(** * A shallow embedding of the Teeny Tiny front end (lex.py, parse.py)

    The scanner and the single-pass parser/code generator are translated
    function by function.  Python's [sys.exit] is the [Exit] outcome of the
    [Result] type; every [while] loop goes through the combinator [while_],
    which takes the number of loop tests it may perform.  The loops of the
    scanner take the length of the buffer for it and never use it up
    ([getToken_wf]); the parser takes a [fuel] argument, and two units more
    than the source has characters are enough for every run
    ([translate_total]), whose result then no longer depends on the fuel
    ([translate_fuel]). *)

From Stdlib Require Import ZArith Lia Ascii String List Bool.
From stdpp Require Import base tactics option list gmap strings.

Open Scope Z_scope.

(** ** Outcomes of a run *)

Inductive Result (A : Type) : Type :=
| Ok (a : A)
| Exit (message : string)
| OutOfFuel.

Arguments Ok {A} a.
Arguments Exit {A} message.
Arguments OutOfFuel {A}.

#[global] Instance Result_ret : MRet Result := fun A a => Ok a.

#[global] Instance Result_bind : MBind Result := fun A B f m =>
  match m with
  | Ok a => f a
  | Exit message => Exit message
  | OutOfFuel => OutOfFuel
  end.

(** [while cond: body], with at most [fuel] evaluations of the loop test. *)
Fixpoint while_ {S : Type} (fuel : nat) (cond : S → bool)
    (body : S → Result S) (s : S) : Result S :=
  match fuel with
  | O => OutOfFuel
  | S fuel' => if cond s then s' ← body s; while_ fuel' cond body s' else Ok s
  end.

(** ** lex.py *)

Module Lex.

(** [class TokenType(enum.Enum)], members in definition order. *)
Inductive TokenType : Set :=
| EOF | NEWLINE | NUMBER | IDENT | STRING
| LABEL | GOTO | PRINT | INPUT | LET | IF | THEN | ENDIF | WHILE | REPEAT
| ENDWHILE
| EQ | PLUS | MINUS | ASTERISK | SLASH | EQEQ | NOTEQ | LT | LTEQ | GT | GTEQ.

#[global] Instance TokenType_eq_dec : EqDecision TokenType.
Proof. solve_decision. Defined.

Definition value (kind : TokenType) : Z :=
  match kind with
  | EOF => -1 | NEWLINE => 0 | NUMBER => 1 | IDENT => 2 | STRING => 3
  | LABEL => 101 | GOTO => 102 | PRINT => 103 | INPUT => 104 | LET => 105
  | IF => 106 | THEN => 107 | ENDIF => 108 | WHILE => 109 | REPEAT => 110
  | ENDWHILE => 111
  | EQ => 201 | PLUS => 202 | MINUS => 203 | ASTERISK => 204 | SLASH => 205
  | EQEQ => 206 | NOTEQ => 207 | LT => 208 | LTEQ => 209 | GT => 210
  | GTEQ => 211
  end.

Definition name (kind : TokenType) : string :=
  match kind with
  | EOF => "EOF" | NEWLINE => "NEWLINE" | NUMBER => "NUMBER"
  | IDENT => "IDENT" | STRING => "STRING"
  | LABEL => "LABEL" | GOTO => "GOTO" | PRINT => "PRINT" | INPUT => "INPUT"
  | LET => "LET" | IF => "IF" | THEN => "THEN" | ENDIF => "ENDIF"
  | WHILE => "WHILE" | REPEAT => "REPEAT" | ENDWHILE => "ENDWHILE"
  | EQ => "EQ" | PLUS => "PLUS" | MINUS => "MINUS" | ASTERISK => "ASTERISK"
  | SLASH => "SLASH" | EQEQ => "EQEQ" | NOTEQ => "NOTEQ" | LT => "LT"
  | LTEQ => "LTEQ" | GT => "GT" | GTEQ => "GTEQ"
  end.

(** Iteration order of [for kind in TokenType]. *)
Definition members : list TokenType :=
  [ EOF; NEWLINE; NUMBER; IDENT; STRING;
    LABEL; GOTO; PRINT; INPUT; LET; IF; THEN; ENDIF; WHILE; REPEAT; ENDWHILE;
    EQ; PLUS; MINUS; ASTERISK; SLASH; EQEQ; NOTEQ; LT; LTEQ; GT; GTEQ ].

(** [class Token] *)
Record Token : Set := mkToken { text : string; kind : TokenType }.

#[global] Instance Token_eq_dec : EqDecision Token.
Proof. solve_decision. Defined.

(** [Token.checkIfKeyword]: the first member whose name is the text and
    whose value lies in [100, 200), or [None]. *)
Definition checkIfKeyword (tokenText : string) : option TokenType :=
  List.find
    (fun kind => String.eqb (name kind) tokenText
                 && (100 <=? value kind) && (value kind <? 200))
    members.

(** *** Characters

    A character is one of the 256 code points U+0000..U+00FF; the three
    predicates are Python's [str.isdigit], [str.isalpha] and [str.isalnum]
    on that range (which also count the superscript digits, the Latin-1
    letters and, for [isalnum], the vulgar fractions). *)

Definition code (c : ascii) : nat := nat_of_ascii c.

Definition between (lo hi n : nat) : bool := (lo <=? n)%nat && (n <=? hi)%nat.

Definition isdigit (c : ascii) : bool :=
  let n := code c in
  between 48 57 n || (n =? 178)%nat || (n =? 179)%nat || (n =? 185)%nat.

Definition isalpha (c : ascii) : bool :=
  let n := code c in
  between 65 90 n || between 97 122 n
  || (n =? 170)%nat || (n =? 181)%nat || (n =? 186)%nat
  || between 192 214 n || between 216 246 n || between 248 255 n.

Definition isalnum (c : ascii) : bool :=
  isalpha c || isdigit c || between 188 190 (code c).

(** The string made of one character, and of two. *)
Definition str1 (c : ascii) : string := String c EmptyString.
Definition str2 (c d : ascii) : string := String c (String d EmptyString).

(** [s[i]] for [0 <= i < len(s)]. *)
Definition index (s : string) (i : Z) : ascii :=
  match String.get (Z.to_nat i) s with
  | Some c => c
  | None => "000"%char
  end.

(** [s[a:b]] for [0 <= a]; as in Python the slice stops at the end of [s]
    and is empty when [b <= a]. *)
Definition slice (s : string) (a b : Z) : string :=
  String.substring (Z.to_nat a) (Z.to_nat (b - a)) s.

Definition len (s : string) : Z := Z.of_nat (String.length s).

(** [class Lexer] *)
Record Lexer : Set := mkLexer {
  source : string;
  curChar : ascii;
  curPos : Z
}.

Definition nextChar (l : Lexer) : Lexer :=
  let pos := curPos l + 1 in
  if len (source l) <=? pos
  then {| source := source l; curChar := "000"; curPos := pos |}
  else {| source := source l; curChar := index (source l) pos; curPos := pos |}.

(** [Lexer.__init__].  The placeholder [''] first stored in [curChar] is
    overwritten by the call of [nextChar] before anything reads it. *)
Definition init (source : string) : Lexer :=
  nextChar {| source := source +:+ str1 "010"; curChar := "000"; curPos := -1 |}.

Definition peek (l : Lexer) : ascii :=
  if len (source l) <=? curPos l + 1 then "000"%char
  else index (source l) (curPos l + 1).

Definition abort {A : Type} (message : string) : Result A :=
  Exit ("Lexing Error. " +:+ message).

(** The scanning loops move the cursor one character to the right per
    iteration, so none of them tests its condition more often than
    [steps l] times on a buffer that ends in a newline. *)
Definition steps (l : Lexer) : nat := S (String.length (source l)).

Definition iswhite (c : ascii) : bool :=
  (c =? " ")%char || (c =? "009")%char || (c =? "013")%char.

Definition skipWhitespace (l : Lexer) : Result Lexer :=
  while_ (steps l) (fun l => iswhite (curChar l)) (fun l => Ok (nextChar l)) l.

Definition skipComment (l : Lexer) : Result Lexer :=
  if (curChar l =? "#")%char
  then while_ (steps l) (fun l => negb (curChar l =? "010")%char)
         (fun l => Ok (nextChar l)) l
  else Ok l.

Definition illegal_in_string (c : ascii) : bool :=
  (c =? "013")%char || (c =? "010")%char || (c =? "009")%char
  || (c =? "%")%char || (c =? "\")%char.

(** The loop of the string branch, which runs up to the closing quote. *)
Definition scanString (l : Lexer) : Result Lexer :=
  while_ (steps l) (fun l => negb (curChar l =? "034")%char)
    (fun l => if illegal_in_string (curChar l)
              then abort "Illegal character in string."
              else Ok (nextChar l)) l.

(** [while self.peek().isdigit(): self.nextChar()] and its [isalnum] twin. *)
Definition scanWhilePeek (p : ascii → bool) (l : Lexer) : Result Lexer :=
  while_ (steps l) (fun l => p (peek l)) (fun l => Ok (nextChar l)) l.

(** A two-character operator [c=] or the one-character form. *)
Definition twoCharOr (l : Lexer) (two one : TokenType) : Token * Lexer :=
  if (peek l =? "=")%char
  then let lastChar := curChar l in
       let l := nextChar l in
       (mkToken (str2 lastChar (curChar l)) two, l)
  else (mkToken (str1 (curChar l)) one, l).

(** The [if]/[elif] chain of [getToken], which classifies the token that
    starts at the current character. *)
Definition classify (l : Lexer) : Result (Token * Lexer) :=
  if (curChar l =? "+")%char then Ok (mkToken (str1 (curChar l)) PLUS, l)
  else if (curChar l =? "-")%char then Ok (mkToken (str1 (curChar l)) MINUS, l)
  else if (curChar l =? "*")%char then Ok (mkToken (str1 (curChar l)) ASTERISK, l)
  else if (curChar l =? "/")%char then Ok (mkToken (str1 (curChar l)) SLASH, l)
  else if (curChar l =? "010")%char then Ok (mkToken (str1 (curChar l)) NEWLINE, l)
  else if (curChar l =? "=")%char then Ok (twoCharOr l EQEQ EQ)
  else if (curChar l =? ">")%char then Ok (twoCharOr l GTEQ GT)
  else if (curChar l =? "<")%char then Ok (twoCharOr l LTEQ LT)
  else if (curChar l =? "!")%char then
    if (peek l =? "=")%char
    then let lastChar := curChar l in
         let l := nextChar l in
         Ok (mkToken (str2 lastChar (curChar l)) NOTEQ, l)
    else abort ("Expected !=,  got !" +:+ str1 (peek l))
  else if (curChar l =? "034")%char then
    let l := nextChar l in
    let startPos := curPos l in
    l ← scanString l;
    let tokText := slice (source l) startPos (curPos l) in
    Ok (mkToken tokText STRING, l)
  else if isdigit (curChar l) then
    let startPos := curPos l in
    l ← scanWhilePeek isdigit l;
    l ← (if (peek l =? ".")%char
         then let l := nextChar l in
              if negb (isdigit (peek l))
              then abort "Illegal character in number."
              else scanWhilePeek isdigit l
         else Ok l);
    let tokText := slice (source l) startPos (curPos l + 1) in
    Ok (mkToken tokText NUMBER, l)
  else if isalpha (curChar l) then
    let startPos := curPos l in
    l ← scanWhilePeek isalnum l;
    let tokText := slice (source l) startPos (curPos l + 1) in
    match checkIfKeyword tokText with
    | None => Ok (mkToken tokText IDENT, l)
    | Some keyword => Ok (mkToken tokText keyword, l)
    end
  else if (curChar l =? "000")%char then Ok (mkToken (str1 (curChar l)) EOF, l)
  else abort ("Unknown token: " +:+ str1 (curChar l)).

Definition getToken (l : Lexer) : Result (Token * Lexer) :=
  l ← skipWhitespace l;
  l ← skipComment l;
  '(token, l) ← classify l;
  Ok (token, nextChar l).

(** [n] successive calls of [getToken]. *)
Fixpoint getTokens (n : nat) (l : Lexer) : Result (list Token * Lexer) :=
  match n with
  | O => Ok ([], l)
  | S n' => '(t, l) ← getToken l; '(ts, l) ← getTokens n' l; Ok (t :: ts, l)
  end.

End Lex.

(** ** parse.py *)

Module Parse.

Import Lex.

(** Modelled from the spec: the emitter, whose class is not among the
    sources.  It is a text buffer with append operations into two ordered
    streams, and the parser only calls its three appending methods.  An
    [Emitter] is the sequence of these calls, oldest first: the preamble
    stream is fed by the [HeaderLine] calls, the body stream by the [Emit]
    and [EmitLine] calls, and the translated text is a function of this
    sequence alone. *)
Inductive Call : Set :=
| Emit (code : string)
| EmitLine (code : string)
| HeaderLine (code : string).

#[global] Instance Call_eq_dec : EqDecision Call.
Proof. solve_decision. Defined.

Definition Emitter : Set := list Call.

(** [class Parser] *)
Record Parser : Type := mkParser {
  lexer : Lexer;
  emitter : Emitter;
  symbols : gset string;
  labelsDeclared : gset string;
  labelsGotoed : gset string;
  curToken : Token;
  peekToken : Token
}.

Definition emit (code : string) (p : Parser) : Parser :=
  mkParser (lexer p) (emitter p ++ [Emit code]) (symbols p)
    (labelsDeclared p) (labelsGotoed p) (curToken p) (peekToken p).

Definition emitLine (code : string) (p : Parser) : Parser :=
  mkParser (lexer p) (emitter p ++ [EmitLine code]) (symbols p)
    (labelsDeclared p) (labelsGotoed p) (curToken p) (peekToken p).

Definition headerLine (code : string) (p : Parser) : Parser :=
  mkParser (lexer p) (emitter p ++ [HeaderLine code]) (symbols p)
    (labelsDeclared p) (labelsGotoed p) (curToken p) (peekToken p).

Definition add_symbol (x : string) (p : Parser) : Parser :=
  mkParser (lexer p) (emitter p) ({[x]} ∪ symbols p)
    (labelsDeclared p) (labelsGotoed p) (curToken p) (peekToken p).

Definition add_labelDeclared (x : string) (p : Parser) : Parser :=
  mkParser (lexer p) (emitter p) (symbols p)
    ({[x]} ∪ labelsDeclared p) (labelsGotoed p) (curToken p) (peekToken p).

Definition add_labelGotoed (x : string) (p : Parser) : Parser :=
  mkParser (lexer p) (emitter p) (symbols p)
    (labelsDeclared p) ({[x]} ∪ labelsGotoed p) (curToken p) (peekToken p).

Definition checkToken (p : Parser) (k : TokenType) : bool :=
  bool_decide (k = kind (curToken p)).

Definition checkPeek (p : Parser) (k : TokenType) : bool :=
  bool_decide (k = kind (peekToken p)).

Definition abort {A : Type} (message : string) : Result A :=
  Exit ("Error. " +:+ message).

Definition nextToken (p : Parser) : Result Parser :=
  '(t, l) ← getToken (lexer p);
  Ok (mkParser l (emitter p) (symbols p) (labelsDeclared p) (labelsGotoed p)
        (peekToken p) t).

Definition match_ (k : TokenType) (p : Parser) : Result Parser :=
  if negb (checkToken p k)
  then abort ("Expected " +:+ name k +:+ ", got " +:+ name (kind (curToken p)))
  else nextToken p.

(** [Parser.__init__]: the sets start empty, and the two calls of
    [nextToken] replace the [None] placeholders of [curToken] and
    [peekToken] by the first two tokens before anything reads them. *)
Definition init (lexer : Lexer) (emitter : Emitter) : Result Parser :=
  '(t1, l) ← getToken lexer;
  '(t2, l) ← getToken l;
  Ok (mkParser l emitter ∅ ∅ ∅ t1 t2).

Definition quote : string := str1 "034".

Definition nl (fuel : nat) (p : Parser) : Result Parser :=
  p ← match_ NEWLINE p;
  while_ fuel (fun p => checkToken p NEWLINE) nextToken p.

Definition primary (p : Parser) : Result Parser :=
  if checkToken p NUMBER then
    nextToken (emit (text (curToken p)) p)
  else if checkToken p IDENT then
    if negb (bool_decide (text (curToken p) ∈ symbols p))
    then abort ("Referencing variable before assignment: " +:+ text (curToken p))
    else nextToken (emit (text (curToken p)) p)
  else abort ("Unexpected token at " +:+ text (curToken p)).

Definition unary (p : Parser) : Result Parser :=
  p ← (if checkToken p PLUS || checkToken p MINUS
       then nextToken (emit (text (curToken p)) p)
       else Ok p);
  primary p.

Definition term (fuel : nat) (p : Parser) : Result Parser :=
  p ← unary p;
  while_ fuel (fun p => checkToken p ASTERISK || checkToken p SLASH)
    (fun p => p ← nextToken (emit (text (curToken p)) p); unary p) p.

Definition expression (fuel : nat) (p : Parser) : Result Parser :=
  p ← term fuel p;
  while_ fuel (fun p => checkToken p PLUS || checkToken p MINUS)
    (fun p => p ← nextToken (emit (text (curToken p)) p); term fuel p) p.

Definition isComparisonOperator (p : Parser) : bool :=
  checkToken p GT || checkToken p GTEQ || checkToken p LT
  || checkToken p LTEQ || checkToken p EQEQ || checkToken p NOTEQ.

Definition comparison (fuel : nat) (p : Parser) : Result Parser :=
  p ← expression fuel p;
  p ← (if isComparisonOperator p
       then p ← nextToken (emit (text (curToken p)) p); expression fuel p
       else abort ("Expected comparison operator at: " +:+ text (curToken p)));
  while_ fuel isComparisonOperator
    (fun p => p ← nextToken (emit (text (curToken p)) p); expression fuel p) p.

(** The declaration shared by the [LET] and [INPUT] branches. *)
Definition declare (p : Parser) : Parser :=
  if negb (bool_decide (text (curToken p) ∈ symbols p))
  then headerLine ("float " +:+ text (curToken p) +:+ ";")
         (add_symbol (text (curToken p)) p)
  else p.

Fixpoint statement (fuel : nat) (p : Parser) : Result Parser :=
  match fuel with
  | O => OutOfFuel
  | S fuel =>
    p ←
      (if checkToken p PRINT then
         p ← nextToken p;
         if checkToken p STRING then
           nextToken
             (emitLine ("printf(" +:+ quote +:+ text (curToken p) +:+ "\n"
                        +:+ quote +:+ ");") p)
         else
           p ← expression fuel
                 (emit ("printf(" +:+ quote +:+ "%" +:+ ".2f\n" +:+ quote
                        +:+ ", (float)(") p);
           Ok (emitLine "));" p)
       else if checkToken p IF then
         p ← nextToken p;
         p ← comparison fuel (emit "if(" p);
         p ← match_ THEN p;
         p ← nl fuel p;
         p ← while_ fuel (fun p => negb (checkToken p ENDIF)) (statement fuel)
               (emitLine "){" p);
         p ← match_ ENDIF p;
         Ok (emitLine "}" p)
       else if checkToken p WHILE then
         p ← nextToken p;
         p ← comparison fuel (emit "while(" p);
         p ← match_ REPEAT p;
         p ← nl fuel p;
         p ← while_ fuel (fun p => negb (checkToken p ENDWHILE))
               (statement fuel) (emitLine "){" p);
         p ← match_ ENDWHILE p;
         Ok (emitLine "}" p)
       else if checkToken p LABEL then
         p ← nextToken p;
         if bool_decide (text (curToken p) ∈ labelsDeclared p)
         then abort ("Label already exists: " +:+ text (curToken p))
         else
           match_ IDENT
             (emitLine (text (curToken p) +:+ ":")
                (add_labelDeclared (text (curToken p)) p))
       else if checkToken p GOTO then
         p ← nextToken p;
         match_ IDENT
           (emitLine ("goto " +:+ text (curToken p) +:+ ";")
              (add_labelGotoed (text (curToken p)) p))
       else if checkToken p LET then
         p ← nextToken p;
         p ← match_ IDENT (emit (text (curToken p) +:+ " = ") (declare p));
         p ← match_ EQ p;
         p ← expression fuel p;
         Ok (emitLine ";" p)
       else if checkToken p INPUT then
         p ← nextToken p;
         let p := declare p in
         let p := emitLine ("if(0==scanf(" +:+ quote +:+ "%" +:+ "f" +:+ quote
                            +:+ ", &" +:+ text (curToken p) +:+ ")) {") p in
         let p := emitLine (text (curToken p) +:+ " = 0;") p in
         let p := emit ("scanf(" +:+ quote +:+ "%") p in
         let p := emitLine ("*s" +:+ quote +:+ ");") p in
         let p := emitLine "}" p in
         match_ IDENT p
       else
         abort ("Invalid Statement at " +:+ text (curToken p) +:+ " ("
                +:+ name (kind (curToken p)) +:+ ")"));
    nl fuel p
  end.

(** The closing loop of [program].  Python leaves the iteration order of a
    set open; here it is the order of [elements]. *)
Definition checkLabels (p : Parser) : Result Parser :=
  match List.find (fun label => negb (bool_decide (label ∈ labelsDeclared p)))
          (elements (labelsGotoed p)) with
  | Some label => abort ("Attempting to GOTO to an undeclared label: " +:+ label)
  | None => Ok p
  end.

Definition program (fuel : nat) (p : Parser) : Result Parser :=
  let p := headerLine "#include <stdio.h>" p in
  let p := headerLine "int main(void){" p in
  p ← while_ fuel (fun p => checkToken p NEWLINE) nextToken p;
  p ← while_ fuel (fun p => negb (checkToken p EOF)) (statement fuel) p;
  let p := emitLine "return 0;" p in
  let p := emitLine "}" p in
  checkLabels p.

(** Modelled from the spec: [translate], the run on a source text, whose
    entry point is not among the sources.  It builds a lexer on the text
    and a parser on the lexer and a fresh emitter, then calls [program];
    the result is what the emitter has received. *)
Definition translate (fuel : nat) (source : string) : Result Emitter :=
  p ← init (Lex.init source) [];
  p ← program fuel p;
  Ok (emitter p).

End Parse.

Import Lex Parse.

(** * Vocabulary of the specification *)

(** What a result satisfies, outcome by outcome. *)
Definition outcome {A : Type} (ok : A → Prop) (exit : string → Prop)
    (nofuel : Prop) (r : Result A) : Prop :=
  match r with
  | Ok a => ok a
  | Exit message => exit message
  | OutOfFuel => nofuel
  end.

(** The character a cursor at [i] reads: the sentinel from the end of the
    buffer on. *)
Definition charAt (s : string) (i : Z) : ascii :=
  if len s <=? i then "000"%char else index s i.

(** The string without its first [n] characters. *)
Fixpoint drop (n : nat) (s : string) : string :=
  match n, s with
  | S n', String _ s' => drop n' s'
  | _, _ => s
  end.

(** Every character of [s] satisfies [p]. *)
Fixpoint all_chars (p : ascii → bool) (s : string) : bool :=
  match s with
  | EmptyString => true
  | String c s' => p c && all_chars p s'
  end.

(** The character [c] occurs in [s]. *)
Fixpoint has_char (c : ascii) (s : string) : bool :=
  match s with
  | EmptyString => false
  | String d s' => (d =? c)%char || has_char c s'
  end.

(** What follows the leading run of digits of [s], where a digit is a
    character that [str.isdigit] accepts. *)
Fixpoint after_digits (s : string) : string :=
  match s with
  | String c s' => if isdigit c then after_digits s' else s
  | EmptyString => s
  end.

(** [s] is a run of such digits, a decimal point and a character that is
    no such digit. *)
Definition dangling_point (s : string) : bool :=
  match after_digits s with
  | String c (String d _) => (c =? ".")%char && negb (isdigit d)
  | _ => false
  end.


(** The end-of-input token. *)
Definition EOF_token : Token := mkToken (str1 "000") EOF.

(** A decimal digit, [0] to [9], and a letter, [A] to [Z] or [a] to [z]. *)
Definition decimal (c : ascii) : bool := between 48 57 (code c).

Definition letter (c : ascii) : bool :=
  between 65 90 (code c) || between 97 122 (code c).

Definition letter_or_digit (c : ascii) : bool := letter c || decimal c.

(** The characters of [s] are ASCII characters, below U+0080: among them
    [str.isalpha] holds of the letters only, and [str.isalnum] of the
    letters and the decimal digits only. *)
Definition ascii_only (s : string) : bool :=
  all_chars (fun c => (code c <? 128)%nat) s.



(** One or more decimal digits. *)
Definition digits1 (s : string) : Prop :=
  s ≠ "" ∧ all_chars decimal s = true.

(** One or more decimal digits, optionally followed by one decimal point
    and one or more decimal digits. *)
Definition NumberLiteral (s : string) : Prop :=
  ∃ a, digits1 a ∧ (s = a ∨ ∃ b, digits1 b ∧ s = a +:+ "." +:+ b).



(** One or more of the characters that [str.isdigit] accepts, which are the
    decimal digits and the superscript digits; and such a run, optionally
    followed by one decimal point and another such run: what the scanner
    takes for a number. *)
Definition scanned_digits1 (s : string) : Prop :=
  s ≠ "" ∧ all_chars isdigit s = true.

Definition ScannedNumber (s : string) : Prop :=
  ∃ a, scanned_digits1 a
       ∧ (s = a ∨ ∃ b, scanned_digits1 b ∧ s = a +:+ "." +:+ b).

(** The lexer a cursor at [i] over [src] is. *)
Definition lexerAt (src : string) (i : Z) : Lexer :=
  {| source := src; curChar := charAt src i; curPos := i |}.

(** The states a scanner goes through: the buffer ends in the newline that
    [Lexer.__init__] appends, the cursor is not negative and [curChar] is
    the character under it. *)
Definition wf (l : Lexer) : Prop :=
  (∃ s, source l = s +:+ str1 "010") ∧ 0 ≤ curPos l
  ∧ curChar l = charAt (source l) (curPos l).

(** The messages of [Lexer.abort]. *)
Definition is_lex_error (message : string) : Prop :=
  ∃ m, message = "Lexing Error. " +:+ m.

(** What [classify] returns from position [i]: a token and a cursor that
    has not moved back; the token is the end-of-input token exactly when
    the character at [i] is the sentinel, and then the cursor stays,
    otherwise the cursor stays within the buffer; a number token spells
    what the scanner takes for a number. *)
Definition classified (src : string) (i : Z) (r : Token * Lexer) : Prop :=
  ∃ j, r.2 = lexerAt src j ∧ i ≤ j
       ∧ (kind r.1 = EOF ↔ charAt src i = "000"%char)
       ∧ (kind r.1 = NUMBER → ScannedNumber (text r.1))
       ∧ (charAt src i = "000"%char → j = i)
       ∧ (charAt src i ≠ "000"%char → j < len src).

(** The string made of one newline character. *)
Definition newline : string := str1 "010".

(** The number of preamble declarations of [x]. *)
Definition declarations (x : string) (e : Emitter) : nat :=
  count_occ Call_eq_dec e (HeaderLine ("float " +:+ x +:+ ";")).

(** The text that a run of [Emit] calls at the head of [e] appends. *)
Fixpoint fragments (e : Emitter) : string :=
  match e with
  | Emit code :: e' => code +:+ fragments e'
  | _ => ""
  end.

(** The right-hand side of the first assignment to [x]: what is appended to
    the body between the fragment [x = ] and the call that closes the
    statement. *)
Fixpoint assigned (x : string) (e : Emitter) : option string :=
  match e with
  | [] => None
  | c :: e' =>
      if decide (c = Emit (x +:+ " = ")) then Some (fragments e')
      else assigned x e'
  end.

(** [x] is declared in [ts]: the keyword [LET] or [INPUT] followed by the
    identifier [x]. *)
Definition declared (ts : list Token) (x : string) : Prop :=
  ∃ a d n b, ts = a ++ d :: n :: b
    ∧ (kind d = LET ∨ kind d = INPUT) ∧ kind n = IDENT ∧ text n = x.

(** [x] is declared as a label in [ts]: the keyword [LABEL] followed by the
    identifier [x]. *)
Definition label_declared (ts : list Token) (x : string) : Prop :=
  ∃ a d n b, ts = a ++ d :: n :: b
    ∧ kind d = LABEL ∧ kind n = IDENT ∧ text n = x.

(** The token that comes after [before] is not the name that one of the
    keywords [LET], [INPUT], [LABEL] and [GOTO] takes; in a program that the
    grammar accepts, an identifier at such a place is an operand of an
    expression, and every operand is at such a place. *)
Definition in_expression (before : list Token) : Prop :=
  ∀ a d, before = a ++ [d] →
    kind d ≠ LET ∧ kind d ≠ INPUT ∧ kind d ≠ LABEL ∧ kind d ≠ GOTO.

(** Every identifier of an expression is declared by the tokens before it. *)
Definition uses_declared (ts : list Token) : Prop :=
  ∀ before t after, ts = before ++ t :: after →
    kind t = IDENT → in_expression before → declared before (text t).

(** Every [GOTO] is followed by an identifier that [labels] holds of. *)
Definition gotos_labelled (ts : list Token) (labels : string → Prop) : Prop :=
  ∀ before g after, ts = before ++ g :: after → kind g = GOTO →
    ∃ n after', after = n :: after' ∧ kind n = IDENT ∧ labels (text n).

(** What the parser's sets know about the tokens [ts] it has consumed. *)
Record Inv (ts : list Token) (S D G : gset string) : Prop := mkInv {
  inv_noeof : Forall (fun t => kind t ≠ EOF) ts;
  inv_symbols : ∀ x, x ∈ S → declared ts x;
  inv_uses : uses_declared ts;
  inv_labels : ∀ x, x ∈ D → label_declared ts x;
  inv_gotos : gotos_labelled ts (fun x => x ∈ G)
}.

(** The parser [p] has consumed the tokens [ts] of the scanner [l0]: they
    are the first tokens that [l0] delivers, and the next two are the
    current and the lookahead token. *)
Definition At (l0 : Lexer) (ts : list Token) (p : Parser) : Prop :=
  getTokens (length ts + 2) l0
  = Ok (ts ++ [curToken p; peekToken p], lexer p).

(** The invariant of a run on the scanner [l0]. *)
Definition Good (l0 : Lexer) (p : Parser) : Prop :=
  ∃ ts, At l0 ts p ∧ Inv ts (symbols p) (labelsDeclared p) (labelsGotoed p).

(** The states [q] that differ from [p] by what the emitter has received
    and by the sets. *)
Definition same_tokens (p q : Parser) : Prop :=
  lexer q = lexer p ∧ curToken q = curToken p ∧ peekToken q = peekToken p.

(** The message of the closing check of [program]. *)
Definition label_error (x : string) : string :=
  "Error. Attempting to GOTO to an undeclared label: " +:+ x.

(** The messages that the scanner and the grammar routines exit with. *)
Definition early_error (m : string) : Prop := ∀ x, m ≠ label_error x.

(** The part of [program] that consumes the tokens. *)
Definition parsed_statements (fuel : nat) (p : Parser) : Result Parser :=
  let p := headerLine "#include <stdio.h>" p in
  let p := headerLine "int main(void){" p in
  p ← while_ fuel (fun p => checkToken p NEWLINE) nextToken p;
  while_ fuel (fun p => negb (checkToken p EOF)) (statement fuel) p.

(** [x] is declared by a statement that has ended within [ts]: the
    declaration is followed by a [NEWLINE] token. *)
Definition declared_by_earlier_statement (ts : list Token) (x : string)
    : Prop :=
  ∃ a d n b, ts = a ++ d :: n :: b
    ∧ (kind d = LET ∨ kind d = INPUT) ∧ kind n = IDENT ∧ text n = x
    ∧ ∃ t, t ∈ b ∧ kind t = NEWLINE.

(** The tokens of [LET x = x]. *)
Definition let_x_x : list Token :=
  [ mkToken "LET" LET; mkToken "x" IDENT; mkToken "=" EQ;
    mkToken "x" IDENT; mkToken newline NEWLINE ].

(** The tokens of [GOTO a]. *)
Definition goto_a : list Token :=
  [ mkToken "GOTO" GOTO; mkToken "a" IDENT; mkToken newline NEWLINE ].

(** [x] is the target of a jump in [ts]: the keyword [GOTO] followed by the
    identifier [x]. *)
Definition gotoed (ts : list Token) (x : string) : Prop :=
  ∃ a g n b, ts = a ++ g :: n :: b
    ∧ kind g = GOTO ∧ kind n = IDENT ∧ text n = x.

(** What the tokens [ts] that the parser has consumed know about its label
    sets: every label that [ts] declares is in [D], every name of [G] is
    the target of a jump in [ts], and [ts] does not end in the keyword
    [LABEL]. *)
Record Exact (ts : list Token) (D G : gset string) : Prop := mkExact {
  exact_noeof : Forall (fun t => kind t ≠ EOF) ts;
  exact_last : ∀ a t, ts = a ++ [t] → kind t ≠ LABEL;
  exact_labels : ∀ x, label_declared ts x → x ∈ D;
  exact_gotos : ∀ x, x ∈ G → gotoed ts x
}.

(** The second invariant of a run on the scanner [l0]. *)
Definition Tracked (l0 : Lexer) (p : Parser) : Prop :=
  ∃ ts, At l0 ts p ∧ Exact ts (labelsDeclared p) (labelsGotoed p).

(** The tokens of [GOTO a], [GOTO b]. *)
Definition goto_a_goto_b : list Token :=
  [ mkToken "GOTO" GOTO; mkToken "a" IDENT; mkToken newline NEWLINE;
    mkToken "GOTO" GOTO; mkToken "b" IDENT; mkToken newline NEWLINE ].

(** Two results of the same kind, with related values or the same exit
    message. *)
Definition agree {A B : Type} (R : A → B → Prop)
    (r1 : Result A) (r2 : Result B) : Prop :=
  match r1, r2 with
  | Ok a, Ok b => R a b
  | Exit m, Exit m' => m = m'
  | OutOfFuel, OutOfFuel => True
  | _, _ => False
  end.

(** [r'] is [r], unless [r] ran out of fuel. *)
Definition fuel_le {A : Type} (r r' : Result A) : Prop :=
  r = OutOfFuel ∨ r = r'.

(** [l1] reads the buffer of [l2] behind the prefix [pre], at the same
    place. *)
Definition shifted (pre s0 : string) (l1 l2 : Lexer) : Prop :=
  ∃ i, 0 ≤ i ∧ l1 = lexerAt (pre +:+ s0 +:+ str1 "010") (len pre + i)
       ∧ l2 = lexerAt (s0 +:+ str1 "010") i.

(** A token and a scanner that are the same behind the prefix. *)
Definition same_token (pre s0 : string) (r1 r2 : Token * Lexer) : Prop :=
  r1.1 = r2.1 ∧ shifted pre s0 r1.2 r2.2.

(** Two parser states that differ only by the buffer prefix of their
    scanners. *)
Definition related (pre s0 : string) (p1 p2 : Parser) : Prop :=
  shifted pre s0 (lexer p1) (lexer p2) ∧ emitter p1 = emitter p2
  ∧ symbols p1 = symbols p2 ∧ labelsDeclared p1 = labelsDeclared p2
  ∧ labelsGotoed p1 = labelsGotoed p2 ∧ curToken p1 = curToken p2
  ∧ peekToken p1 = peekToken p2.

(** [n] newline characters. *)
Fixpoint blank (n : nat) : string :=
  match n with
  | O => ""
  | S n' => String "010" (blank n')
  end.

(** The guarded read that the [INPUT] branch sends to the body. *)
Definition input_guard (x : string) : Emitter :=
  [ EmitLine ("if(0==scanf(" +:+ quote +:+ "%" +:+ "f" +:+ quote
              +:+ ", &" +:+ x +:+ ")) {");
    EmitLine (x +:+ " = 0;");
    Emit ("scanf(" +:+ quote +:+ "%");
    EmitLine ("*s" +:+ quote +:+ ");");
    EmitLine "}" ].

(** The scanner of [p] is in one of its reachable states over a buffer of
    [L] characters, and a token that was read from the end of the buffer or
    from behind it is the end-of-input token. *)
Definition settled (L : Z) (p : Parser) : Prop :=
  wf (lexer p) ∧ len (source (lexer p)) = L
  ∧ (L < curPos (lexer p) → kind (peekToken p) = EOF)
  ∧ (L + 1 < curPos (lexer p) → kind (curToken p) = EOF).

(** The number of cursor positions that are left while the current token
    may still be another one than the end-of-input token. *)
Definition budget (L : Z) (p : Parser) : nat :=
  Z.to_nat (L + 2 - curPos (lexer p)).

(** [r] is an exit, or a settled state with less than [b] positions left;
    it is not a run that ended for lack of fuel. *)
Definition below (L : Z) (b : nat) (r : Result Parser) : Prop :=
  outcome (fun p' => settled L p' ∧ (budget L p' < b)%nat) (fun _ => True)
    False r.

(** ** Vocabulary of the further properties *)

(** The keywords: the members whose value lies in [100, 200). *)
Definition is_keyword (k : TokenType) : bool :=
  (100 <=? value k) && (value k <? 200).

(** The spelling of the newline token and of the operators. *)
Definition spelling (k : TokenType) : option string :=
  match k with
  | NEWLINE => Some newline
  | EQ => Some "=" | PLUS => Some "+" | MINUS => Some "-"
  | ASTERISK => Some "*" | SLASH => Some "/"
  | EQEQ => Some "==" | NOTEQ => Some "!="
  | LT => Some "<" | LTEQ => Some "<=" | GT => Some ">" | GTEQ => Some ">="
  | _ => None
  end.

(** The characters that [=] makes a two-character operator of. *)
Definition takes_equal (c : ascii) : bool :=
  (c =? "=")%char || (c =? "<")%char || (c =? ">")%char || (c =? "!")%char.

(** The kind of a word: its keyword, or [IDENT]. *)
Definition word_kind (s : string) : TokenType :=
  match checkIfKeyword s with
  | Some keyword => keyword
  | None => IDENT
  end.

(** The token that starts at position [i] of [src], and the position [j]
    of its last character. *)
Inductive lexeme (src : string) (i : Z) : Token → Z → Prop :=
| lexeme_symbol k s j :
    spelling k = Some s → slice src i (j + 1) = s → j = i + len s - 1 →
    j < len src →
    (j = i → takes_equal (charAt src i) = true →
     charAt src (i + 1) ≠ "="%char) →
    lexeme src i (mkToken s k) j
| lexeme_string j :
    charAt src i = "034"%char → i < j < len src →
    charAt src j = "034"%char →
    (∀ k, i < k < j → charAt src k ≠ "034"%char
                      ∧ illegal_in_string (charAt src k) = false) →
    lexeme src i (mkToken (slice src (i + 1) j) STRING) j
| lexeme_number j :
    isdigit (charAt src i) = true → i ≤ j < len src →
    (∀ k, i ≤ k ≤ j → isdigit (charAt src k) = true
                      ∨ charAt src k = "."%char) →
    isdigit (charAt src (j + 1)) = false →
    lexeme src i (mkToken (slice src i (j + 1)) NUMBER) j
| lexeme_word j :
    isalpha (charAt src i) = true → i ≤ j < len src →
    (∀ k, i < k ≤ j → isalnum (charAt src k) = true) →
    isalnum (charAt src (j + 1)) = false →
    lexeme src i
      (mkToken (slice src i (j + 1)) (word_kind (slice src i (j + 1)))) j
| lexeme_eof :
    charAt src i = "000"%char → lexeme src i (mkToken (str1 "000") EOF) i.

(** The position [i2] that skipping blanks and one comment reaches from
    [i]: behind the blanks, and at the newline that ends the comment when
    one starts there. *)
Definition skips (src : string) (i i2 : Z) : Prop :=
  ∃ i1, i ≤ i1 ≤ i2
    ∧ (∀ k, i ≤ k < i1 → iswhite (charAt src k) = true)
    ∧ iswhite (charAt src i1) = false
    ∧ (charAt src i1 ≠ "#"%char → i2 = i1)
    ∧ (charAt src i1 = "#"%char →
       charAt src i2 = "010"%char
       ∧ ∀ k, i1 ≤ k < i2 → charAt src k ≠ "010"%char).
(** The characters that a token starts with. *)
Definition starts_token (c : ascii) : bool :=
  (c =? "+")%char || (c =? "-")%char || (c =? "*")%char || (c =? "/")%char
  || (c =? "010")%char || takes_equal c || (c =? "034")%char
  || isdigit c || isalpha c || (c =? "000")%char.

(** The characters that a string literal may hold. *)
Definition plain (c : ascii) : bool :=
  negb (c =? "034")%char && negb (illegal_in_string c).
(** The last character of a string. *)
Fixpoint last_char (s : string) : option ascii :=
  match s with
  | EmptyString => None
  | String c EmptyString => Some c
  | String _ s' => last_char s'
  end.

(** [r] is no state, or a state that [R] relates [p] to. *)
Definition ensures (R : Parser → Parser → Prop) (p : Parser)
    (r : Result Parser) : Prop :=
  outcome (R p) (fun _ => True) True r.

(** [p'] has what [p] has and possibly more: the emitter has received
    further calls, and the three sets have grown. *)
Definition extends (p p' : Parser) : Prop :=
  (∃ e, emitter p' = emitter p ++ e) ∧ symbols p ⊆ symbols p'
  ∧ labelsDeclared p ⊆ labelsDeclared p'
  ∧ labelsGotoed p ⊆ labelsGotoed p'.

(** The preamble declares the variables of [symbols], once each, and no
    other. *)
Definition declares_symbols (p : Parser) : Prop :=
  ∀ x, declarations x (emitter p)
       = if bool_decide (x ∈ symbols p) then 1%nat else 0%nat.

(** The number of label lines [x:]. *)
Definition label_lines (x : string) (e : Emitter) : nat :=
  count_occ Call_eq_dec e (EmitLine (x +:+ ":")).

(** The body holds the labels of [labelsDeclared], once each, and no
    other. *)
Definition emits_labels (p : Parser) : Prop :=
  ∀ x, label_lines x (emitter p)
       = if bool_decide (x ∈ labelsDeclared p) then 1%nat else 0%nat.
(** [p'] is [p] after it has read the tokens [ts]: the first of them is
    the current token of [p], the second its lookahead token, the others
    are what the scanner of [p] delivers, and the two tokens that follow
    [ts] are the current and the lookahead token of [p']. *)
Definition reads (p : Parser) (ts : list Token) (p' : Parser) : Prop :=
  ∃ new, getTokens (length ts) (lexer p) = Ok (new, lexer p')
    ∧ curToken p :: peekToken p :: new = ts ++ [curToken p'; peekToken p'].

(** The three sets of [p'] are those of [p]. *)
Definition same_sets (p p' : Parser) : Prop :=
  symbols p' = symbols p ∧ labelsDeclared p' = labelsDeclared p
  ∧ labelsGotoed p' = labelsGotoed p.

(** The tokens of an arithmetic expression, and the comparison operators. *)
Definition arithmetic (t : Token) : bool :=
  match kind t with
  | NUMBER | IDENT | PLUS | MINUS | ASTERISK | SLASH => true
  | _ => false
  end.

Definition compares (t : Token) : bool :=
  match kind t with
  | GT | GTEQ | LT | LTEQ | EQEQ | NOTEQ => true
  | _ => false
  end.

(** The calls that copy the tokens [ts] to the body, one [Emit] of its
    text for each. *)
Definition copy (ts : list Token) : Emitter :=
  map (fun t => Emit (text t)) ts.

(** [p'] is [p] after it has read the tokens [ts], all of which [ok]
    holds of, and copied them to the body. *)
Definition copies (ok : Token → bool) (p : Parser) (ts : list Token)
    (p' : Parser) : Prop :=
  reads p ts p' ∧ Forall (fun t => ok t = true) ts
  ∧ emitter p' = emitter p ++ copy ts ∧ same_sets p p'.

(** [p'] is [p] after it has read the newline tokens [ts], with nothing
    else changed. *)
Definition skips_lines (p : Parser) (ts : list Token) (p' : Parser) : Prop :=
  reads p ts p' ∧ Forall (fun t => kind t = NEWLINE) ts
  ∧ emitter p' = emitter p ∧ same_sets p p'.
(** [p'] is [p] after it has read the tokens [ts] and sent the calls [e]
    to the emitter. *)
Definition yields (p : Parser) (ts : list Token) (e : Emitter)
    (p' : Parser) : Prop :=
  reads p ts p' ∧ emitter p' = emitter p ++ e.

(** The declaration of [x] that goes to the preamble when [x] is not in
    the set [S] of the variables declared so far. *)
Definition declaration (x : string) (S : gset string) : Emitter :=
  if bool_decide (x ∈ S) then []
  else [HeaderLine ("float " +:+ x +:+ ";")].

(** One or more newline tokens. *)
Definition newlines (ts : list Token) : Prop :=
  ts ≠ [] ∧ Forall (fun t => kind t = NEWLINE) ts.
(** An [IF] or [WHILE] statement, from [p] to [p']: the keyword and the
    comparison [cmp], copied behind [opening]; the keyword [mid] and the
    newlines; the statements of the body, which read [body] and emit [e],
    up to the keyword [closing]; that keyword and the newlines, for which
    the closing brace is sent. *)
Definition block (fuel : nat) (opening : string) (mid closing : TokenType)
    (p p' : Parser) : Prop :=
  ∃ cmp m nls q body e q' c nls',
    Forall (fun t => arithmetic t || compares t = true) cmp
    ∧ Exists (fun t => compares t = true) cmp
    ∧ kind m = mid ∧ newlines nls
    ∧ yields p (curToken p :: cmp ++ m :: nls)
        (Emit opening :: copy cmp ++ [EmitLine "){"]) q
    ∧ while_ fuel (fun p => negb (checkToken p closing)) (statement fuel) q
      = Ok q'
    ∧ yields q body e q'
    ∧ kind c = closing ∧ newlines nls'
    ∧ yields q' (c :: nls') [EmitLine "}"] p'.

(** The message for a variable that is read before a [LET] or an [INPUT]
    has declared it. *)
Definition undeclared (x : string) : string :=
  "Error. Referencing variable before assignment: " +:+ x.
(** The keywords that a statement starts with. *)
Definition starts_statement (k : TokenType) : bool :=
  match k with
  | PRINT | IF | WHILE | LABEL | GOTO | LET | INPUT => true
  | _ => false
  end.

(** The message for a token that starts no statement. *)
Definition invalid_statement (t : Token) : string :=
  "Error. Invalid Statement at " +:+ text t +:+ " (" +:+ name (kind t)
  +:+ ")".

(** Two parser states that differ only by their scanners, which [LR]
    relates. *)
Definition alike (LR : Lexer → Lexer → Prop) (p1 p2 : Parser) : Prop :=
  LR (lexer p1) (lexer p2) ∧ emitter p1 = emitter p2
  ∧ symbols p1 = symbols p2 ∧ labelsDeclared p1 = labelsDeclared p2
  ∧ labelsGotoed p1 = labelsGotoed p2 ∧ curToken p1 = curToken p2
  ∧ peekToken p1 = peekToken p2.

(** Two scanners that deliver the same tokens, however many are requested,
    or exit with the same message at the same token. *)
Definition same_stream (l1 l2 : Lexer) : Prop :=
  ∀ n, agree (fun r1 r2 => r1.1 = r2.1) (getTokens n l1) (getTokens n l2).

(** * Verification *)

(** ** The loop combinator *)

Lemma outcome_impl {A} (ok ok' : A → Prop) (ex ex' : string → Prop)
    (nf nf' : Prop) r :
  outcome ok ex nf r →
  (∀ a, ok a → ok' a) → (∀ m, ex m → ex' m) → (nf → nf') →
  outcome ok' ex' nf' r.
Proof. destruct r; simpl; auto. Qed.

Lemma bind_Ok {A B} (m : Result A) (f : A → Result B) b :
  m ≫= f = Ok b ↔ ∃ a, m = Ok a ∧ f a = Ok b.
Proof.
  destruct m; simpl; split; try (intros (? & ? & ?)); try discriminate; eauto.
  by simplify_eq.
Qed.

Lemma bind_Exit {A B} (m : Result A) (f : A → Result B) msg :
  m ≫= f = Exit msg ↔ m = Exit msg ∨ ∃ a, m = Ok a ∧ f a = Exit msg.
Proof.
  destruct m; simpl; split.
  - intros H. right. eauto.
  - intros [H | (? & H & ?)]; by simplify_eq.
  - intros [= ->]. by left.
  - intros [H | (? & H & ?)]; by simplify_eq.
  - done.
  - intros [H | (? & H & ?)]; by simplify_eq.
Qed.

Section While.
Context {S : Type} (cond : S → bool) (body : S → Result S).

(** A loop whose body keeps an invariant and lowers a measure ends within
    the measure's number of iterations, in a state where the invariant
    holds and the test fails, or with an exit of its body. *)
Lemma while_rule (I : S → Prop) (E : string → Prop) (μ : S → nat) :
  (∀ s, I s → cond s = true →
     outcome (fun s' => I s' ∧ (μ s' < μ s)%nat) E False (body s)) →
  ∀ fuel s, I s → (μ s < fuel)%nat →
  outcome (fun s' => I s' ∧ cond s' = false) E False
    (while_ fuel cond body s).
Proof.
  intros Hbody fuel. induction fuel as [|fuel IH]; intros s HI Hμ; [lia|].
  simpl. destruct (cond s) eqn:Hc; [|by simpl].
  specialize (Hbody s HI Hc). destruct (body s) as [s'| |]; simpl in *; auto.
  destruct Hbody. apply IH; [done|lia].
Qed.

(** Partial correctness alone, for any fuel. *)
Lemma while_inv (I : S → Prop) (E : string → Prop) :
  (∀ s, I s → cond s = true → outcome I E True (body s)) →
  ∀ fuel s, I s →
  outcome (fun s' => I s' ∧ cond s' = false) E True
    (while_ fuel cond body s).
Proof.
  intros Hbody fuel. induction fuel as [|fuel IH]; intros s HI; [done|].
  simpl. destruct (cond s) eqn:Hc; [|by simpl].
  specialize (Hbody s HI Hc). destruct (body s) as [s'| |]; simpl in *; auto.
Qed.

(** More fuel does not change a result that did not run out of it. *)
Lemma while_mono fuel fuel' s r :
  while_ fuel cond body s = r → r ≠ OutOfFuel → (fuel ≤ fuel')%nat →
  while_ fuel' cond body s = r.
Proof.
  revert fuel' s. induction fuel as [|fuel IH]; intros fuel' s Hr Hne Hle.
  - simpl in Hr. congruence.
  - destruct fuel' as [|fuel']; [lia|]. simpl in *.
    destruct (cond s); [|done]. destruct (body s) as [s'| |]; simpl in *; auto.
    apply IH; [done..|lia].
Qed.
End While.

(** Two loops that run in lockstep on related states. *)
Lemma while_sim {S T : Type} (R : S → T → Prop)
    (cond1 : S → bool) (body1 : S → Result S)
    (cond2 : T → bool) (body2 : T → Result T) :
  (∀ s t, R s t → cond1 s = cond2 t) →
  (∀ s t, R s t → cond1 s = true →
     match body1 s, body2 t with
     | Ok s', Ok t' => R s' t'
     | Exit m, Exit m' => m = m'
     | OutOfFuel, OutOfFuel => True
     | _, _ => False
     end) →
  ∀ fuel s t, R s t →
  match while_ fuel cond1 body1 s, while_ fuel cond2 body2 t with
  | Ok s', Ok t' => R s' t'
  | Exit m, Exit m' => m = m'
  | OutOfFuel, OutOfFuel => True
  | _, _ => False
  end.
Proof.
  intros Hcond Hbody fuel. induction fuel as [|fuel IH]; intros s t HR; [done|].
  simpl. rewrite <- (Hcond s t HR). destruct (cond1 s) eqn:Hc; [|done].
  specialize (Hbody s t HR Hc).
  destruct (body1 s), (body2 t); simpl; try done. by apply IH.
Qed.

(** ** Strings *)

Lemma length_append s1 s2 :
  String.length (s1 +:+ s2) = (String.length s1 + String.length s2)%nat.
Proof. induction s1 as [|c s1 IH]; simpl; [done|by rewrite IH]. Qed.

Lemma get_append_r s1 s2 n :
  String.get (String.length s1 + n) (s1 +:+ s2) = String.get n s2.
Proof. induction s1; simpl; auto. Qed.

Lemma get_append_l s1 s2 n :
  (n < String.length s1)%nat → String.get n (s1 +:+ s2) = String.get n s1.
Proof.
  revert n. induction s1; simpl; intros n Hn; [lia|].
  destruct n; [done|]. apply IHs1. lia.
Qed.

Lemma get_ge s n : (String.length s ≤ n)%nat → String.get n s = None.
Proof.
  revert n. induction s; simpl; intros n Hn; [done|].
  destruct n; [lia|]. apply IHs. lia.
Qed.

Lemma get_lt s n : (n < String.length s)%nat → is_Some (String.get n s).
Proof.
  revert n. induction s; simpl; intros n Hn; [lia|].
  destruct n; [by eexists|]. apply IHs. lia.
Qed.

Lemma substring_append_r s1 s2 n m :
  String.substring (String.length s1 + n) m (s1 +:+ s2)
  = String.substring n m s2.
Proof. induction s1; simpl; auto. Qed.

Lemma substring_0_append s1 s2 :
  String.substring 0 (String.length s1) (s1 +:+ s2) = s1.
Proof. induction s1 as [|c s1 IH]; simpl; [by destruct s2|by rewrite IH]. Qed.

Lemma append_cons c s1 s2 : String c s1 +:+ s2 = String c (s1 +:+ s2).
Proof. reflexivity. Qed.

Lemma append_nil_l s : "" +:+ s = s.
Proof. reflexivity. Qed.

Lemma append_assoc s1 s2 s3 : (s1 +:+ s2) +:+ s3 = s1 +:+ s2 +:+ s3.
Proof.
  induction s1 as [|c s1 IH]; [done|]. rewrite !append_cons. by f_equal.
Qed.

Lemma append_nil_r s : s +:+ "" = s.
Proof. induction s as [|c s IH]; [done|]. rewrite append_cons. by f_equal. Qed.

Lemma charAt_append_r s1 s2 i :
  0 ≤ i → charAt (s1 +:+ s2) (len s1 + i) = charAt s2 i.
Proof.
  intros Hi. unfold charAt, len, index. rewrite length_append.
  replace (Z.to_nat (Z.of_nat (String.length s1) + i))
    with (String.length s1 + Z.to_nat i)%nat by lia.
  rewrite get_append_r.
  destruct (Z.leb_spec (Z.of_nat (String.length s2)) i);
    destruct (Z.leb_spec (Z.of_nat (String.length s1 + String.length s2))
                (Z.of_nat (String.length s1) + i)); (done || lia).
Qed.

Lemma charAt_append_l s1 s2 i :
  0 ≤ i < len s1 → charAt (s1 +:+ s2) i = charAt s1 i.
Proof.
  intros Hi. unfold charAt, len, index in *. rewrite length_append.
  rewrite get_append_l by lia.
  destruct (Z.leb_spec (Z.of_nat (String.length s1)) i);
    destruct (Z.leb_spec (Z.of_nat (String.length s1 + String.length s2)) i);
    (done || lia).
Qed.

Lemma charAt_0 c s : charAt (String c s) 0 = c.
Proof.
  unfold charAt, len. simpl String.length.
  by destruct (Z.leb_spec (Z.of_nat (S (String.length s))) 0); [lia|].
Qed.

Lemma charAt_ge s i : len s ≤ i → charAt s i = "000"%char.
Proof. intros. unfold charAt. by destruct (Z.leb_spec (len s) i); [|lia]. Qed.

Lemma len_append s1 s2 : len (s1 +:+ s2) = len s1 + len s2.
Proof. unfold len. rewrite length_append. lia. Qed.

Lemma len_nonneg s : 0 ≤ len s.
Proof. unfold len. lia. Qed.

Lemma eqb_true (c d : ascii) : (c =? d)%char = true ↔ c = d.
Proof. apply Ascii.eqb_eq. Qed.

Lemma eqb_false (c d : ascii) : (c =? d)%char = false ↔ c ≠ d.
Proof. apply Ascii.eqb_neq. Qed.

Lemma substring_split n m1 m2 s :
  String.substring n (m1 + m2) s
  = String.substring n m1 s +:+ String.substring (n + m1) m2 s.
Proof.
  revert n m1. induction s as [|c s IH]; intros n m1.
  - destruct n, m1, m2; reflexivity.
  - destruct n as [|n]; simpl.
    + destruct m1 as [|m1]; simpl; [done|].
      rewrite append_cons. f_equal. apply (IH 0%nat).
    + apply IH.
Qed.

Lemma substring_cons n m s c :
  String.get n s = Some c →
  String.substring n (S m) s = String c (String.substring (S n) m s).
Proof.
  revert n. induction s as [|d s IH]; intros n; [done|].
  destruct n as [|n]; simpl.
  - by intros [= ->].
  - intros H. by rewrite (IH n H).
Qed.

Lemma substring_0 n s : String.substring n 0 s = "".
Proof.
  revert n. induction s as [|d s IH]; intros n; destruct n; simpl; auto.
Qed.

Lemma charAt_get s i c :
  0 ≤ i → charAt s i = c → c ≠ "000"%char → String.get (Z.to_nat i) s = Some c.
Proof.
  unfold charAt, index. intros Hi H Hc.
  destruct (len s <=? i); [congruence|].
  destruct (String.get (Z.to_nat i) s); congruence.
Qed.

Lemma slice_cons s a b :
  0 ≤ a < b → charAt s a ≠ "000"%char →
  slice s a b = String (charAt s a) (slice s (a + 1) b).
Proof.
  intros Hab Hc. unfold slice.
  replace (Z.to_nat (b - a)) with (S (Z.to_nat (b - (a + 1)))) by lia.
  rewrite (substring_cons _ _ _ (charAt s a)) by (by apply charAt_get; [lia|..]).
  do 2 f_equal. lia.
Qed.

Lemma slice_empty s a b : b ≤ a → slice s a b = "".
Proof.
  intros. unfold slice. replace (Z.to_nat (b - a)) with 0%nat by lia.
  apply substring_0.
Qed.

Lemma slice_split s a b c :
  0 ≤ a ≤ b → b ≤ c → slice s a c = slice s a b +:+ slice s b c.
Proof.
  intros Hab Hbc. unfold slice.
  replace (Z.to_nat (c - a)) with (Z.to_nat (b - a) + Z.to_nat (c - b))%nat
    by lia.
  rewrite substring_split. do 2 f_equal. lia.
Qed.

(** A slice over positions that all satisfy [p]. *)
Lemma slice_all (p : ascii → bool) s a b :
  p "000"%char = false → 0 ≤ a →
  (∀ k, a ≤ k < b → p (charAt s k) = true) →
  all_chars p (slice s a b) = true.
Proof.
  intros Hp Ha Hall.
  remember (Z.to_nat (b - a)) as n eqn:Hn. revert a Ha Hall Hn.
  induction n as [|n IH]; intros a Ha Hall Hn.
  - by rewrite slice_empty by lia.
  - assert (p (charAt s a) = true) as Hpa by (apply Hall; lia).
    rewrite slice_cons; [|lia|by intros Heq; rewrite Heq, Hp in Hpa].
    simpl. rewrite Hpa. simpl. apply IH; [lia| |lia].
    intros k Hk. apply Hall. lia.
Qed.

Lemma charAt_drop s (n : nat) i :
  0 ≤ i → charAt (drop n s) i = charAt s (Z.of_nat n + i).
Proof.
  intros Hi. revert s. induction n as [|n IH]; intros s.
  - simpl drop. by replace (Z.of_nat 0 + i) with i by lia.
  - destruct s as [|c s].
    + simpl. by rewrite !charAt_ge by (unfold len; simpl; lia).
    + simpl drop. rewrite IH.
      change (String c s) with (str1 c +:+ s).
      replace (Z.of_nat (S n) + i) with (len (str1 c) + (Z.of_nat n + i))
        by (unfold len; simpl; lia).
      by rewrite charAt_append_r by lia.
Qed.

Lemma has_char_charAt c s i :
  has_char c s = false → c ≠ "000"%char → 0 ≤ i → charAt s i ≠ c.
Proof.
  intros Hs Hc Hi. revert i Hi. induction s as [|d s IH]; intros i Hi.
  - by rewrite charAt_ge by (unfold len; simpl; lia).
  - simpl in Hs. apply orb_false_iff in Hs as [Hd Hs]. apply eqb_false in Hd.
    destruct (decide (i = 0)) as [->|]; [by rewrite charAt_0|].
    change (String d s) with (str1 d +:+ s).
    replace i with (len (str1 d) + (i - 1)) by (unfold len; simpl; lia).
    rewrite charAt_append_r by lia. apply IH; [done|lia].
Qed.

(** ** The scanner's state *)

Lemma wf_lexerAt l : wf l → l = lexerAt (source l) (curPos l).
Proof. intros (_ & _ & Hc). destruct l; simpl in *. by rewrite Hc. Qed.

Lemma lexerAt_wf s i : 0 ≤ i → wf (lexerAt (s +:+ str1 "010") i).
Proof. intros. split; [by eexists|done]. Qed.

Lemma nextChar_lexerAt src i : nextChar (lexerAt src i) = lexerAt src (i + 1).
Proof.
  unfold nextChar, lexerAt, charAt; simpl.
  by destruct (len src <=? i + 1).
Qed.

Lemma peek_lexerAt src i : peek (lexerAt src i) = charAt src (i + 1).
Proof. reflexivity. Qed.

Lemma init_lexerAt src : Lex.init src = lexerAt (src +:+ str1 "010") 0.
Proof.
  unfold Lex.init, nextChar, lexerAt, charAt; simpl. change (-1 + 1) with 0.
  by destruct (len (src +:+ str1 "010") <=? 0).
Qed.

Lemma wf_init src : wf (Lex.init src).
Proof. rewrite init_lexerAt. by apply lexerAt_wf. Qed.

Lemma wf_nextChar l : wf l → wf (nextChar l).
Proof.
  intros Hwf. rewrite (wf_lexerAt l Hwf), nextChar_lexerAt.
  destruct Hwf as ((s & Hs) & Hpos & _). rewrite Hs.
  apply lexerAt_wf. lia.
Qed.

Lemma source_nextChar l : source (nextChar l) = source l.
Proof. unfold nextChar. by destruct (_ <=? _). Qed.

Lemma curPos_nextChar l : curPos (nextChar l) = curPos l + 1.
Proof. unfold nextChar. by destruct (_ <=? _). Qed.

Lemma charAt_last s : charAt (s +:+ str1 "010") (len s) = "010"%char.
Proof.
  replace (len s) with (len s + 0) by lia.
  rewrite charAt_append_r by lia. apply charAt_0.
Qed.

(** A loop that only advances the cursor: it stops within the buffer, at
    the first position from the cursor on where its test fails. *)
Lemma scan_rule (c : Lexer → bool) src i0 :
  0 ≤ i0 →
  (∀ i, i0 ≤ i → (∀ j, i0 ≤ j < i → c (lexerAt src j) = true) →
        c (lexerAt src i) = true → i < len src) →
  outcome
    (fun l' => ∃ i, l' = lexerAt src i ∧ i0 ≤ i ∧ c (lexerAt src i) = false
               ∧ ∀ j, i0 ≤ j < i → c (lexerAt src j) = true)
    (fun _ => False) False
    (while_ (S (String.length src)) c (fun l => Ok (nextChar l))
       (lexerAt src i0)).
Proof.
  intros Hi0 Hprog.
  eapply outcome_impl;
    [ apply (while_rule c (fun l => Ok (nextChar l))
        (fun l => ∃ i, l = lexerAt src i ∧ i0 ≤ i
                  ∧ ∀ j, i0 ≤ j < i → c (lexerAt src j) = true)
        (fun _ => False)
        (fun l => Z.to_nat (len src - curPos l))) | ..].
  - intros l (i & -> & Hi & Hall) Hc. simpl. split.
    + exists (i + 1). rewrite nextChar_lexerAt. split; [done|]. split; [lia|].
      intros j Hj. destruct (decide (j = i)) as [->|]; [done|]. apply Hall. lia.
    + specialize (Hprog i Hi Hall Hc). rewrite curPos_nextChar. simpl. lia.
  - exists i0. split; [done|]. split; [lia|]. intros; lia.
  - simpl. unfold len. lia.
  - intros l' ((i & -> & Hi & Hall) & Hc). eauto.
  - done.
  - done.
Qed.

Lemma outcome_Ok {A} (ok : A → Prop) (r : Result A) :
  outcome ok (fun _ => False) False r → ∃ a, r = Ok a ∧ ok a.
Proof. destruct r; simpl; intros; [eauto|done..]. Qed.

(** ** The scanning loops, by cursor position *)

Section Scanning.
Variable s0 : string.
Let src : string := s0 +:+ str1 "010".

Lemma len_src : len src = len s0 + 1.
Proof. unfold src. rewrite len_append. reflexivity. Qed.

Lemma charAt_newline : charAt src (len s0) = "010"%char.
Proof. apply charAt_last. Qed.

Lemma charAt_not_nul i : charAt src i ≠ "000"%char → i < len src.
Proof.
  intros H. destruct (Z.lt_ge_cases i (len src)); [done|].
  by rewrite charAt_ge in H.
Qed.

Lemma skipWhitespace_spec i0 :
  0 ≤ i0 →
  ∃ i1, skipWhitespace (lexerAt src i0) = Ok (lexerAt src i1) ∧ i0 ≤ i1
        ∧ iswhite (charAt src i1) = false
        ∧ ∀ j, i0 ≤ j < i1 → iswhite (charAt src j) = true.
Proof.
  intros Hi0. unfold skipWhitespace, steps. simpl source.
  destruct (outcome_Ok _ _
    (scan_rule (fun l => iswhite (curChar l)) src i0 Hi0
       ltac:(intros i _ _ Hc; apply charAt_not_nul; simpl in Hc;
             by intros Heq; rewrite Heq in Hc)))
    as (l' & -> & i1 & -> & ? & ? & ?).
  eauto.
Qed.

Lemma skipComment_spec i1 :
  0 ≤ i1 →
  ∃ i2, skipComment (lexerAt src i1) = Ok (lexerAt src i2) ∧ i1 ≤ i2
        ∧ (charAt src i1 ≠ "#"%char → i2 = i1)
        ∧ (charAt src i1 = "#"%char →
           charAt src i2 = "010"%char
           ∧ ∀ j, i1 ≤ j < i2 → charAt src j ≠ "010"%char).
Proof.
  intros Hi1. unfold skipComment, steps. simpl source. simpl curChar.
  destruct (charAt src i1 =? "#")%char eqn:Hc.
  - apply eqb_true in Hc.
    assert (i1 < len src) as Hlt
      by (apply charAt_not_nul; by rewrite Hc).
    destruct (outcome_Ok _ _
      (scan_rule (fun l => negb (curChar l =? "010")%char) src i1 Hi1
         ltac:(intros i Hi Hall _;
               destruct (Z.lt_ge_cases i (len src)); [done|];
               specialize (Hall (len s0) ltac:(rewrite len_src in *; lia));
               simpl in Hall; by rewrite charAt_newline in Hall)))
      as (l' & -> & i2 & -> & ? & Hend & Hall).
    exists i2. split; [done|]. split; [done|]. split; [done|]. intros _.
    simpl in Hend. apply negb_false_iff, eqb_true in Hend. split; [done|].
    intros j Hj. specialize (Hall j Hj). simpl in Hall.
    by apply negb_true_iff, eqb_false in Hall.
  - apply eqb_false in Hc. exists i1. repeat split; (done || lia).
Qed.

Lemma scanWhilePeek_spec (p : ascii → bool) i :
  p "000"%char = false → 0 ≤ i →
  ∃ j, scanWhilePeek p (lexerAt src i) = Ok (lexerAt src j) ∧ i ≤ j
       ∧ p (charAt src (j + 1)) = false
       ∧ ∀ k, i < k ≤ j → p (charAt src k) = true.
Proof.
  intros Hp Hi. unfold scanWhilePeek, steps. simpl source.
  destruct (outcome_Ok _ _
    (scan_rule (fun l => p (peek l)) src i Hi
       ltac:(intros k _ _ Hc; change (p (charAt src (k + 1)) = true) in Hc;
             assert (k + 1 < len src); [|lia];
             apply charAt_not_nul; by intros Heq; rewrite Heq, Hp in Hc)))
    as (l' & -> & j & -> & ? & Hend & Hall).
  exists j. split; [done|]. split; [done|]. split; [done|].
  intros k Hk. specialize (Hall (k - 1) ltac:(lia)).
  change (p (charAt src (k - 1 + 1)) = true) in Hall.
  by replace (k - 1 + 1) with k in Hall by lia.
Qed.

Lemma scanString_spec i :
  0 ≤ i < len src →
  outcome
    (fun l' => ∃ j, l' = lexerAt src j ∧ i ≤ j < len src
               ∧ charAt src j = "034"%char
               ∧ ∀ k, i ≤ k < j → charAt src k ≠ "034"%char
                                 ∧ illegal_in_string (charAt src k) = false)
    (fun m => m = "Lexing Error. Illegal character in string.")
    False (scanString (lexerAt src i)).
Proof.
  intros Hi. unfold scanString, steps. simpl source.
  eapply outcome_impl;
    [ apply (while_rule _ _
        (fun l => ∃ j, l = lexerAt src j ∧ i ≤ j < len src
                  ∧ ∀ k, i ≤ k < j → charAt src k ≠ "034"%char
                        ∧ illegal_in_string (charAt src k) = false)
        (fun m => m = "Lexing Error. Illegal character in string.")
        (fun l => Z.to_nat (len src - curPos l))) | ..].
  - intros l (j & -> & Hj & Hall) Hc. simpl in *.
    destruct (illegal_in_string (charAt src j)) eqn:Hill; simpl; [done|].
    apply negb_true_iff, eqb_false in Hc.
    assert (j ≠ len s0) as Hne.
    { intros ->. by rewrite charAt_newline in Hill. }
    rewrite len_src in *. split.
    + exists (j + 1). rewrite nextChar_lexerAt. split; [done|]. split; [lia|].
      intros k Hk. destruct (decide (k = j)) as [->|]; [done|].
      apply Hall. lia.
    + rewrite curPos_nextChar. simpl. lia.
  - exists i. split; [done|]. split; [lia|]. intros; lia.
  - simpl. unfold len in *. lia.
  - intros l' ((j & -> & Hj & Hall) & Hc). simpl in Hc.
    apply negb_false_iff, eqb_true in Hc. eauto.
  - done.
  - done.
Qed.

Lemma checkIfKeyword_value tokText keyword :
  checkIfKeyword tokText = Some keyword → 100 ≤ value keyword < 200.
Proof.
  unfold checkIfKeyword. intros H. apply find_some in H as [_ H].
  apply andb_true_iff in H as [H H2]. apply andb_true_iff in H as [_ H1].
  lia.
Qed.

Lemma digits1_slice a b :
  0 ≤ a < b → (∀ k, a ≤ k < b → isdigit (charAt src k) = true) →
  scanned_digits1 (slice src a b).
Proof.
  intros Hab Hall. split.
  - assert (isdigit (charAt src a) = true) as Ha by (apply Hall; lia).
    rewrite slice_cons; [done|done|by intros Heq; rewrite Heq in Ha].
  - by apply slice_all; [|lia|].
Qed.

Lemma classified_intro i t j :
  i ≤ j → charAt src i ≠ "000"%char → kind t ≠ EOF →
  (kind t = NUMBER → ScannedNumber (text t)) → j < len src →
  classified src i (t, lexerAt src j).
Proof.
  intros Hij Hc Hk Hn Hj. exists j. split; [done|]. split; [done|].
  split; [by split|]. split; [done|]. by split.
Qed.

Lemma scan_end_in_buffer (p : ascii → bool) i j :
  p "000"%char = false → charAt src i ≠ "000"%char → i ≤ j →
  (∀ k, i < k ≤ j → p (charAt src k) = true) → j < len src.
Proof.
  intros Hp Hi Hij Hall. destruct (decide (j = i)) as [->|Hne].
  - by apply charAt_not_nul.
  - apply charAt_not_nul. intros Heq.
    specialize (Hall j ltac:(lia)). by rewrite Heq, Hp in Hall.
Qed.

Lemma classify_spec i :
  0 ≤ i →
  outcome (classified src i) is_lex_error False (classify (lexerAt src i)).
Proof.
  intros Hi. unfold classify. simpl curChar.
  assert (∀ k (c : ascii), k ≠ EOF → k ≠ NUMBER → c ≠ "000"%char →
          charAt src i = c →
          classified src i (mkToken (str1 (charAt src i)) k, lexerAt src i))
    as Hone.
  { intros k c Hk Hn Hc Heq.
    apply classified_intro; [lia|by rewrite Heq|done|done|].
    apply charAt_not_nul. by rewrite Heq. }
  assert (∀ k (c : ascii), k ≠ EOF → k ≠ NUMBER → c ≠ "000"%char →
          charAt src i = c → (peek (lexerAt src i) =? "=")%char = true →
          classified src i
            (mkToken (str2 (charAt src i) (curChar (nextChar (lexerAt src i))))
               k, nextChar (lexerAt src i))) as Hpair.
  { intros k c Hk Hn Hc Heq Hp. rewrite nextChar_lexerAt.
    apply classified_intro; [lia|by rewrite Heq|done|done|].
    apply charAt_not_nul. rewrite peek_lexerAt in Hp.
    apply eqb_true in Hp. by rewrite Hp. }
  assert (∀ two one (c : ascii), two ≠ EOF → one ≠ EOF →
          two ≠ NUMBER → one ≠ NUMBER → c ≠ "000"%char →
          charAt src i = c →
          classified src i (twoCharOr (lexerAt src i) two one)) as Htwo.
  { intros two one c H2 H1 H2' H1' Hc Heq. unfold twoCharOr.
    destruct (peek (lexerAt src i) =? "=")%char eqn:Hp.
    - by apply (Hpair _ c).
    - by apply (Hone _ c). }
  destruct (charAt src i =? "+")%char eqn:E1;
    [apply eqb_true in E1; simpl; by apply (Hone _ "+"%char)|].
  destruct (charAt src i =? "-")%char eqn:E2;
    [apply eqb_true in E2; simpl; by apply (Hone _ "-"%char)|].
  destruct (charAt src i =? "*")%char eqn:E3;
    [apply eqb_true in E3; simpl; by apply (Hone _ "*"%char)|].
  destruct (charAt src i =? "/")%char eqn:E4;
    [apply eqb_true in E4; simpl; by apply (Hone _ "/"%char)|].
  destruct (charAt src i =? "010")%char eqn:E5;
    [apply eqb_true in E5; simpl; by apply (Hone _ "010"%char)|].
  destruct (charAt src i =? "=")%char eqn:E6;
    [apply eqb_true in E6; simpl; by apply (Htwo _ _ "="%char)|].
  destruct (charAt src i =? ">")%char eqn:E7;
    [apply eqb_true in E7; simpl; by apply (Htwo _ _ ">"%char)|].
  destruct (charAt src i =? "<")%char eqn:E8;
    [apply eqb_true in E8; simpl; by apply (Htwo _ _ "<"%char)|].
  destruct (charAt src i =? "!")%char eqn:E9.
  { apply eqb_true in E9.
    destruct (peek (lexerAt src i) =? "=")%char eqn:Hp.
    - simpl. by apply (Hpair _ "!"%char).
    - by eexists. }
  destruct (charAt src i =? "034")%char eqn:E10.
  { apply eqb_true in E10. rewrite nextChar_lexerAt.
    assert (i < len src) by (apply charAt_not_nul; by rewrite E10).
    assert (i ≠ len s0) by (intros ->; by rewrite charAt_newline in E10).
    pose proof len_src.
    pose proof (scanString_spec (i + 1) ltac:(lia)) as Hs.
    destruct (scanString (lexerAt src (i + 1))) as [l'| |]; simpl in *;
      [|subst; by exists "Illegal character in string."|done].
    destruct Hs as (j & -> & ? & _).
    apply classified_intro; [lia|by rewrite E10|done|done|lia]. }
  destruct (isdigit (charAt src i)) eqn:E11.
  { assert (charAt src i ≠ "000"%char) as Hnn
      by (by intros Heq; rewrite Heq in E11).
    destruct (scanWhilePeek_spec isdigit i eq_refl Hi)
      as (j & -> & Hj & Hend & Hall).
    assert (scanned_digits1 (slice src i (j + 1))) as Hint.
    { apply digits1_slice; [lia|]. intros k Hk.
      destruct (decide (k = i)) as [->|]; [done|]. apply Hall. lia. }
    assert (j < len src) as Hjl
      by (by apply (scan_end_in_buffer isdigit i j)).
    simpl. destruct (peek (lexerAt src j) =? ".")%char eqn:Hdot.
    - rewrite nextChar_lexerAt. rewrite peek_lexerAt in Hdot.
      apply eqb_true in Hdot.
      destruct (isdigit (peek (lexerAt src (j + 1)))) eqn:Hfrac; simpl;
        [|by eexists].
      rewrite peek_lexerAt in Hfrac.
      destruct (scanWhilePeek_spec isdigit (j + 1) eq_refl ltac:(lia))
        as (j' & -> & Hj' & Hend' & Hall').
      assert (j + 2 ≤ j') as Hlong.
      { destruct (decide (j' = j + 1)) as [->|]; [|lia].
        replace (j + 1 + 1) with (j + 2) in * by lia. congruence. }
      assert (j' < len src) as Hjl'.
      { apply (scan_end_in_buffer isdigit (j + 1) j'); [done| |done..].
        by rewrite Hdot. }
      simpl. apply classified_intro; [lia|done|done| |done].
      intros _. simpl. exists (slice src i (j + 1)). split; [done|]. right.
      exists (slice src (j + 2) (j' + 1)). split.
      + apply digits1_slice; [lia|]. intros k Hk. apply Hall'. lia.
      + rewrite (slice_split src i (j + 1) (j' + 1)) by lia. f_equal.
        rewrite slice_cons; [|lia|by rewrite Hdot].
        rewrite Hdot. by replace (j + 1 + 1) with (j + 2) by lia.
    - simpl. apply classified_intro; [lia|done|done| |done].
      intros _. simpl. exists (slice src i (j + 1)). split; [done|]. by left. }
  destruct (isalpha (charAt src i)) eqn:E12.
  { assert (charAt src i ≠ "000"%char) as Hnn
      by (by intros Heq; rewrite Heq in E12).
    destruct (scanWhilePeek_spec isalnum i eq_refl Hi)
      as (j & -> & Hj & _ & Hall).
    assert (j < len src) as Hjl
      by (by apply (scan_end_in_buffer isalnum i j)).
    simpl. destruct (checkIfKeyword _) as [keyword|] eqn:Hk; simpl.
    - apply checkIfKeyword_value in Hk.
      apply classified_intro; [lia|done| | |done]; simpl;
        intros ->; simpl in Hk; lia.
    - by apply classified_intro; [lia|..]. }
  destruct (charAt src i =? "000")%char eqn:E13.
  { apply eqb_true in E13. exists i. split; [done|]. split; [lia|].
    split; [by split|]. split; [done|]. by split. }
  by eexists.
Qed.

(** [getToken] from position [i] classifies at the position [i2] that
    the two skipping steps reach, which is [i] itself when no blank and
    no comment starts there. *)
Lemma getToken_decomp i :
  0 ≤ i →
  ∃ i2, i ≤ i2
    ∧ getToken (lexerAt src i)
      = ('(token, l) ← classify (lexerAt src i2); Ok (token, nextChar l))
    ∧ (iswhite (charAt src i) = false → charAt src i ≠ "#"%char → i2 = i)
    ∧ (i ≤ len src → i2 ≤ len src).
Proof.
  intros Hi. unfold getToken.
  destruct (skipWhitespace_spec i Hi) as (i1 & -> & Hi1 & Hw & Hall).
  destruct (skipComment_spec i1 ltac:(lia))
    as (i2 & Hc & Hi2 & Hsame & Hcomment).
  exists i2. split; [lia|]. split; [|split].
  - simpl. by rewrite Hc.
  - intros Hnw Hnc. assert (i1 = i) as ->; [|by apply Hsame].
    destruct (decide (i1 = i)) as [|Hne]; [done|].
    specialize (Hall i ltac:(lia)). congruence.
  - intros Hle. assert (i1 ≤ len src) as Hi1l.
    { destruct (Z.le_gt_cases i1 (len src)); [done|].
      specialize (Hall (len src) ltac:(lia)).
      by rewrite charAt_ge in Hall by lia. }
    destruct (decide (charAt src i1 = "#"%char)) as [Heq|Hne].
    + destruct (Hcomment Heq) as [Hnl _].
      assert (i2 < len src); [|lia]. apply charAt_not_nul. by rewrite Hnl.
    + rewrite (Hsame Hne). done.
Qed.

Lemma getToken_spec i :
  0 ≤ i →
  outcome
    (fun r => ∃ i2 j, r.2 = lexerAt src (j + 1) ∧ i ≤ i2 ≤ j
              ∧ (kind r.1 = EOF ↔ charAt src i2 = "000"%char)
              ∧ (kind r.1 = NUMBER → ScannedNumber (text r.1))
              ∧ (i ≤ len src → i2 ≤ len src)
              ∧ (charAt src i2 = "000"%char → j = i2)
              ∧ (charAt src i2 ≠ "000"%char → j < len src))
    is_lex_error False (getToken (lexerAt src i)).
Proof.
  intros Hi. destruct (getToken_decomp i Hi) as (i2 & Hi2 & -> & _ & Hin).
  pose proof (classify_spec i2 ltac:(lia)) as Hc.
  destruct (classify (lexerAt src i2)) as [[t l]| |]; simpl in *; [|done..].
  destruct Hc as (j & Hl & Hj & Heof & Hnum & Hstay & Hbuf). simpl in *.
  subst l. exists i2, j. rewrite nextChar_lexerAt.
  split; [done|]. split; [lia|done].
Qed.
End Scanning.

(** One call of [getToken] on a well-formed scanner returns a token and a
    well-formed scanner further to the right, or exits with a lexical
    error; it does not run out of loop tests. *)
Lemma getToken_wf l :
  wf l →
  outcome
    (fun r => wf r.2 ∧ source r.2 = source l ∧ curPos l < curPos r.2)
    is_lex_error False (getToken l).
Proof.
  intros Hwf. rewrite (wf_lexerAt l Hwf).
  destruct Hwf as ((s & Hs) & Hpos & _). rewrite Hs.
  eapply outcome_impl; [by apply getToken_spec| |done..].
  intros [t l'] (i2 & j & Hl' & Hj & _). simpl in *. subst l'.
  split; [apply lexerAt_wf; lia|]. split; [done|]. simpl. lia.
Qed.

(** From the end of the buffer on, [getToken] returns the end-of-input
    token and moves the cursor one further. *)
Lemma getToken_at_end l :
  wf l → len (source l) ≤ curPos l →
  getToken l = Ok (mkToken (str1 "000") EOF, nextChar l).
Proof.
  intros Hwf Hend. rewrite (wf_lexerAt l Hwf) at 1.
  destruct Hwf as ((s & Hs) & Hpos & Hc). rewrite Hs in *.
  destruct (getToken_decomp s (curPos l) Hpos) as (i2 & Hi2 & -> & Hsame & _).
  rewrite charAt_ge in Hsame by done.
  rewrite (Hsame eq_refl ltac:(done)).
  unfold classify. simpl curChar. rewrite charAt_ge by done. simpl.
  do 2 f_equal. rewrite nextChar_lexerAt.
  unfold nextChar. rewrite Hs.
  destruct (Z.leb_spec (len (s +:+ str1 "010")) (curPos l + 1)); [|lia].
  unfold lexerAt. f_equal. by rewrite charAt_ge by lia.
Qed.

(** ** Observations on what the emitter received *)

(** ** Parser steps that leave the sets and the emitter alone *)

Lemma nextToken_Ok p p' :
  nextToken p = Ok p' →
  ∃ t l, getToken (lexer p) = Ok (t, l)
    ∧ p' = mkParser l (emitter p) (symbols p) (labelsDeclared p)
             (labelsGotoed p) (peekToken p) t.
Proof.
  unfold nextToken. intros H. apply bind_Ok in H as ([t l] & Hg & H).
  simpl in H. injection H as <-. eauto.
Qed.

(** C3 — A [LABEL x] statement for a name [x] that is already in
    [labelsDeclared] ends the run inside that very call of [statement],
    before its newline is matched and before any further statement: the
    exit message is the duplicate-label one, unless the scanner, asked for
    the next lookahead token first, exits with its own lexical error. *)
Theorem duplicate_label_exits_at_once fuel p :
  wf (lexer p) →
  checkToken p LABEL = true →
  text (peekToken p) ∈ labelsDeclared p →
  ∃ m, statement (S fuel) p = Exit m
       ∧ ((∃ t l, getToken (lexer p) = Ok (t, l)
           ∧ m = "Error. Label already exists: " +:+ text (peekToken p))
          ∨ (getToken (lexer p) = Exit m ∧ is_lex_error m)).
Proof.
  intros Hwf Hk Hin. unfold checkToken in Hk. apply bool_decide_eq_true in Hk.
  simpl. unfold checkToken. rewrite <- Hk. simpl.
  pose proof (getToken_wf _ Hwf) as Hg. unfold nextToken.
  destruct (getToken (lexer p)) as [[t l]| |] eqn:Hget; simpl in *; [|eauto|done].
  rewrite bool_decide_eq_true_2 by done. simpl. eauto 10.
Qed.

Lemma duplicate_label_exits_at_once_witness :
  ∃ m, statement 1
         (mkParser (Lex.init "") [] ∅ {["a"]} ∅
            (mkToken "LABEL" LABEL) (mkToken "a" IDENT)) = Exit m
       ∧ ((∃ t l, getToken (Lex.init "") = Ok (t, l)
           ∧ m = "Error. Label already exists: " +:+ "a")
          ∨ (getToken (Lex.init "") = Exit m ∧ is_lex_error m)).
Proof.
  apply (duplicate_label_exits_at_once 0
           (mkParser (Lex.init "") [] ∅ {["a"]} ∅
              (mkToken "LABEL" LABEL) (mkToken "a" IDENT))).
  - apply wf_init.
  - reflexivity.
  - simpl. set_solver.
Defined.

(** C8 — [PRINT "HI"] followed by a newline makes the emitter receive,
    between the fixed preamble and epilogue, the single statement
    [printf("HI\n");]: the literal text, the line terminator and the two
    delimiters, with no conversion to a number. *)
Theorem print_string_literal :
  translate 50 ("PRINT " +:+ quote +:+ "HI" +:+ quote +:+ newline)
  = Ok [ HeaderLine "#include <stdio.h>"; HeaderLine "int main(void){";
         EmitLine ("printf(" +:+ quote +:+ "HI\n" +:+ quote +:+ ");");
         EmitLine "return 0;"; EmitLine "}" ].
Proof. vm_compute. reflexivity. Qed.

Lemma let_example_output :
  translate 50 ("LET x = 1 + 2 * 3" +:+ newline)
  = Ok [ HeaderLine "#include <stdio.h>"; HeaderLine "int main(void){";
         HeaderLine "float x;";
         Emit "x = "; Emit "1"; Emit "+"; Emit "2"; Emit "*"; Emit "3";
         EmitLine ";"; EmitLine "return 0;"; EmitLine "}" ].
Proof. vm_compute. reflexivity. Qed.

(** C5 — Claim as stated: the right-hand side of the assignment that
    [LET x = 1 + 2 * 3] produces is the source text with its blanks.  It is
    not: the blanks are skipped by the scanner and never reach the
    emitter. *)
Lemma let_rhs_is_not_the_source_text :
  ¬ (∀ out, translate 50 ("LET x = 1 + 2 * 3" +:+ newline) = Ok out →
            declarations "x" out = 1%nat
            ∧ assigned "x" out = Some "1 + 2 * 3").
Proof.
  intros H. destruct (H _ let_example_output) as [_ Habs].
  vm_compute in Habs. discriminate.
Qed.

(** C5 — [LET x = 1 + 2 * 3] followed by a newline produces exactly one
    preamble declaration of [x] and an assignment whose right-hand side is
    the spellings of the tokens [1], [+], [2], [*], [3] one after the
    other, in source order and without parentheses. *)
Theorem let_declares_once_and_assigns :
  ∃ out, translate 50 ("LET x = 1 + 2 * 3" +:+ newline) = Ok out
    ∧ out = [ HeaderLine "#include <stdio.h>"; HeaderLine "int main(void){";
              HeaderLine "float x;";
              Emit "x = "; Emit "1"; Emit "+"; Emit "2"; Emit "*"; Emit "3";
              EmitLine ";"; EmitLine "return 0;"; EmitLine "}" ]
    ∧ declarations "x" out = 1%nat
    ∧ assigned "x" out = Some "1+2*3".
Proof.
  eexists. split; [apply let_example_output|]. split; [done|].
  split; by vm_compute.
Qed.

(** ** String and number literals *)

Lemma drop_S s (n : nat) :
  charAt s (Z.of_nat n) ≠ "000"%char →
  drop n s = String (charAt s (Z.of_nat n)) (drop (S n) s).
Proof.
  revert s. induction n as [|n IH]; intros s Hc.
  - destruct s as [|c s]; [by rewrite charAt_ge in Hc|].
    change (Z.of_nat 0) with 0. by rewrite charAt_0.
  - destruct s as [|c s];
      [by rewrite charAt_ge in Hc by (unfold len; simpl; lia)|].
    change (String c s) with (str1 c +:+ s) in *.
    replace (Z.of_nat (S n)) with (len (str1 c) + Z.of_nat n) in *
      by (unfold len; simpl; lia).
    rewrite charAt_append_r in * by lia. by apply IH.
Qed.

Lemma drop_cons s i :
  0 ≤ i → charAt s i ≠ "000"%char →
  drop (Z.to_nat i) s = String (charAt s i) (drop (Z.to_nat (i + 1)) s).
Proof.
  intros Hi Hc. replace (Z.to_nat (i + 1)) with (S (Z.to_nat i)) by lia.
  rewrite <- (Z2Nat.id i) in Hc by done. rewrite (drop_S _ _ Hc).
  by rewrite Z2Nat.id by done.
Qed.

Lemma after_digits_drop s i j :
  0 ≤ i → i ≤ j + 1 →
  (∀ k, i ≤ k ≤ j → isdigit (charAt s k) = true) →
  isdigit (charAt s (j + 1)) = false →
  after_digits (drop (Z.to_nat i) s) = drop (Z.to_nat (j + 1)) s.
Proof.
  intros Hi Hij Hall Hend.
  remember (Z.to_nat (j + 1 - i)) as n eqn:Hn. revert i Hi Hij Hall Hn.
  induction n as [|n IH]; intros i Hi Hij Hall Hn.
  - replace i with (j + 1) by lia.
    destruct (drop (Z.to_nat (j + 1)) s) as [|c r] eqn:Hd; [done|].
    assert (charAt (drop (Z.to_nat (j + 1)) s) 0 = c) as Hc
      by (by rewrite Hd, charAt_0).
    rewrite charAt_drop in Hc by lia.
    replace (Z.of_nat (Z.to_nat (j + 1)) + 0) with (j + 1) in Hc by lia.
    simpl. by rewrite <- Hc, Hend.
  - assert (isdigit (charAt s i) = true) as Hd by (apply Hall; lia).
    rewrite drop_cons; [|done|by intros Heq; rewrite Heq in Hd].
    simpl. rewrite Hd. apply IH; [lia..| |lia]. intros k Hk. apply Hall. lia.
Qed.

Lemma classify_quote l :
  curChar l = "034"%char →
  classify l
  = (l' ← scanString (nextChar l);
     Ok (mkToken (slice (source l') (curPos (nextChar l)) (curPos l')) STRING,
         l')).
Proof. intros H. unfold classify. by rewrite H. Qed.

Lemma classify_digit l :
  isdigit (curChar l) = true →
  classify l
  = (l1 ← scanWhilePeek isdigit l;
     l2 ← (if (peek l1 =? ".")%char
           then if negb (isdigit (peek (nextChar l1)))
                then Lex.abort "Illegal character in number."
                else scanWhilePeek isdigit (nextChar l1)
           else Ok l1);
     Ok (mkToken (slice (source l2) (curPos l) (curPos l2 + 1)) NUMBER, l2)).
Proof.
  intros H. unfold classify. rewrite H. revert H.
  generalize (curChar l) as c.
  intros [[] [] [] [] [] [] [] []]; by try discriminate.
Qed.

Lemma not_skipped (c : ascii) :
  c = "034"%char ∨ isdigit c = true → iswhite c = false ∧ c ≠ "#"%char.
Proof.
  intros [->|H]; [done|]. revert H.
  destruct c as [[] [] [] [] [] [] [] []]; by try discriminate.
Qed.

(** From an opening quote, [getToken] returns the string token, closed by
    a quote that lies before the end of the buffer, or exits with the
    lexical error for an illegal character, as it does whenever no quote
    follows the opening one. *)
Lemma getToken_at_quote l :
  wf l → curChar l = "034"%char →
  (getToken l = Exit "Lexing Error. Illegal character in string."
   ∨ ∃ t l' j, getToken l = Ok (t, l') ∧ kind t = STRING
       ∧ curPos l < j < len (source l) ∧ charAt (source l) j = "034"%char
       ∧ curPos l' = j + 1 ∧ text t = slice (source l) (curPos l + 1) j)
  ∧ (has_char "034" (drop (Z.to_nat (curPos l + 1)) (source l)) = false →
     getToken l = Exit "Lexing Error. Illegal character in string.").
Proof.
  intros Hwf Hq. pose proof Hwf as ((s & Hs) & Hpos & Hc).
  rewrite Hq in Hc. symmetry in Hc.
  assert (curPos l < len (source l)) as Hlt.
  { rewrite Hs. apply charAt_not_nul. rewrite <- Hs. by rewrite Hc. }
  assert (curPos l ≠ len s) as Hne.
  { intros Heq. rewrite Hs, Heq, charAt_newline in Hc. done. }
  assert (len (source l) = len s + 1) as Hlen by (rewrite Hs; apply len_src).
  rewrite (wf_lexerAt l Hwf). simpl source. simpl curPos.
  rewrite Hs in *.
  destruct (getToken_decomp s (curPos l) Hpos) as (i2 & _ & -> & Hsame & _).
  destruct (not_skipped "034" (or_introl eq_refl)) as [Hw Hh].
  rewrite Hc in Hsame. rewrite (Hsame Hw Hh).
  rewrite classify_quote by done. rewrite nextChar_lexerAt.
  pose proof (scanString_spec s (curPos l + 1) ltac:(lia)) as Hscan.
  destruct (scanString (lexerAt (s +:+ str1 "010") (curPos l + 1)))
    as [l'| |]; simpl in *; [|subst; split; [by left|done]|done].
  destruct Hscan as (j & -> & Hj & Hcj & _). split.
  - right. eexists _, _, j. rewrite nextChar_lexerAt.
    split; [done|]. simpl. repeat split; (done || lia).
  - intros Hno. exfalso.
    apply (has_char_charAt _ _ (j - (curPos l + 1))) in Hno; [|done|lia].
    rewrite charAt_drop in Hno by lia.
    by replace (Z.of_nat (Z.to_nat (curPos l + 1)) + (j - (curPos l + 1)))
      with j in Hno by lia.
Qed.

(** C9 — Scanning a string literal ends within the buffer.  From an opening
    quote, [getToken] either returns the string token, closed by a quote
    that lies before the end of the buffer, or exits with the lexical error
    for an illegal character; it exits in this way whenever no quote follows
    the opening one, the newline that ends the buffer being illegal inside
    a literal, and the parser's request for the token ends the run with
    that error. *)
Theorem string_scan_ends_in_buffer l :
  wf l → curChar l = "034"%char →
  (getToken l = Exit "Lexing Error. Illegal character in string."
   ∨ ∃ t l' j, getToken l = Ok (t, l') ∧ kind t = STRING
       ∧ curPos l < j < len (source l) ∧ charAt (source l) j = "034"%char
       ∧ curPos l' = j + 1 ∧ text t = slice (source l) (curPos l + 1) j)
  ∧ (has_char "034" (drop (Z.to_nat (curPos l + 1)) (source l)) = false →
     getToken l = Exit "Lexing Error. Illegal character in string."
     ∧ ∀ p, lexer p = l →
         nextToken p = Exit "Lexing Error. Illegal character in string.").
Proof.
  intros Hwf Hq. destruct (getToken_at_quote l Hwf Hq) as [Hends Hexit].
  split; [done|]. intros Hno. specialize (Hexit Hno). split; [done|].
  intros p Hp. unfold nextToken. by rewrite Hp, Hexit.
Qed.

Lemma string_scan_ends_in_buffer_witness :
  getToken (Lex.init (quote +:+ "abc"))
  = Exit "Lexing Error. Illegal character in string.".
Proof.
  apply (string_scan_ends_in_buffer (Lex.init (quote +:+ "abc"))).
  - apply wf_init.
  - reflexivity.
  - reflexivity.
Defined.

(** A run on a source that opens a string literal and never closes it. *)
Lemma unterminated_string_run fuel rest :
  has_char "034" (rest +:+ newline) = false →
  translate fuel (quote +:+ rest)
  = Exit "Lexing Error. Illegal character in string.".
Proof.
  intros Hno. unfold translate, Parse.init.
  destruct (getToken_at_quote (Lex.init (quote +:+ rest))
              (wf_init _) ltac:(by rewrite init_lexerAt)) as [_ ->]; [done|].
  by rewrite init_lexerAt.
Qed.


(** At a digit whose run of digits is followed by a decimal point and a
    character that is not a digit, [getToken] exits. *)
Lemma getToken_dangling_point l :
  wf l → isdigit (curChar l) = true →
  dangling_point (drop (Z.to_nat (curPos l)) (source l)) = true →
  getToken l = Exit "Lexing Error. Illegal character in number.".
Proof.
  intros Hwf. pose proof Hwf as ((s & Hs) & Hpos & Hc).
  intros Hd Hdang. rewrite (wf_lexerAt l Hwf) at 1. rewrite Hs in *.
  destruct (getToken_decomp s (curPos l) Hpos) as (i2 & _ & -> & Hsame & _).
  destruct (not_skipped (curChar l) (or_intror Hd)) as [Hw Hh].
  rewrite Hc in Hw, Hh, Hd. rewrite (Hsame Hw Hh).
  rewrite classify_digit by done.
  destruct (scanWhilePeek_spec s isdigit (curPos l) eq_refl Hpos)
    as (j & -> & Hj & Hend & Hall).
  simpl. unfold dangling_point in Hdang.
  rewrite (after_digits_drop _ _ j) in Hdang; [|lia|lia| |done].
  2:{ intros k Hk. destruct (decide (k = curPos l)) as [->|]; [done|].
      apply Hall. lia. }
  destruct (drop (Z.to_nat (j + 1)) (s +:+ str1 "010"))
    as [|c [|d r]] eqn:Hdrop; [done..|].
  apply andb_true_iff in Hdang as [Hdot Hnd].
  assert (charAt (drop (Z.to_nat (j + 1)) (s +:+ str1 "010")) 0 = c) as H0
    by (by rewrite Hdrop, charAt_0).
  assert (charAt (drop (Z.to_nat (j + 1)) (s +:+ str1 "010")) 1 = d) as H1.
  { rewrite Hdrop. change (String c (String d r)) with (str1 c +:+ String d r).
    change 1 with (len (str1 c) + 0).
    rewrite charAt_append_r by lia. apply charAt_0. }
  rewrite charAt_drop in H0, H1 by lia.
  replace (Z.of_nat (Z.to_nat (j + 1)) + 0) with (j + 1) in H0 by lia.
  replace (Z.of_nat (Z.to_nat (j + 1)) + 1) with (j + 1 + 1) in H1 by lia.
  rewrite peek_lexerAt, H0, Hdot, nextChar_lexerAt, peek_lexerAt, H1, Hnd.
  reflexivity.
Qed.

(** A run on a source that starts with such a number. *)
Lemma dangling_point_run fuel src :
  dangling_point (src +:+ newline) = true →
  charAt (src +:+ newline) 0 ≠ "."%char →
  translate fuel src = Exit "Lexing Error. Illegal character in number.".
Proof.
  intros Hdang Hfirst. unfold translate, Parse.init.
  rewrite (getToken_dangling_point (Lex.init src) (wf_init _));
    [done| |]; rewrite init_lexerAt; [|done].
  change (isdigit (charAt (src +:+ newline) 0) = true).
  unfold dangling_point in Hdang.
  destruct (src +:+ newline) as [|c r] eqn:Hsrc; [done|].
  rewrite charAt_0 in *. simpl in Hdang.
  destruct (isdigit c); [done|].
  destruct r; [done|]. apply andb_true_iff in Hdang as [Hdot _].
  by apply eqb_true in Hdot.
Qed.

(** ** The token sequence *)


Lemma getTokens_past_end l n :
  wf l → len (source l) ≤ curPos l →
  ∃ l', getTokens n l = Ok (replicate n EOF_token, l').
Proof.
  revert l. induction n as [|n IH]; intros l Hwf Hend; [by eexists|].
  simpl. rewrite getToken_at_end by done. simpl.
  destruct (IH (nextChar l)) as (l' & ->).
  - by apply wf_nextChar.
  - rewrite source_nextChar, curPos_nextChar. lia.
  - by eexists.
Qed.





(** ** Names and their declarations, on the token sequence *)

Lemma snoc_split {A} (ts before after : list A) t x :
  ts ++ [t] = before ++ x :: after →
  (after = [] ∧ before = ts ∧ x = t)
  ∨ (∃ after', after = after' ++ [t] ∧ ts = before ++ x :: after').
Proof.
  destruct after as [|y after _] using rev_ind; intros H.
  - apply app_inj_tail in H as [-> ->]. by left.
  - change (before ++ x :: after ++ [y]) with (before ++ (x :: after) ++ [y])
      in H.
    rewrite app_assoc in H. apply app_inj_tail in H as [-> ->]. right. eauto.
Qed.

Lemma declared_app ts ts' x : declared ts x → declared (ts ++ ts') x.
Proof.
  intros (a & d & n & b & -> & H). exists a, d, n, (b ++ ts').
  by rewrite <- app_assoc.
Qed.

Lemma label_declared_app ts ts' x :
  label_declared ts x → label_declared (ts ++ ts') x.
Proof.
  intros (a & d & n & b & -> & H). exists a, d, n, (b ++ ts').
  by rewrite <- app_assoc.
Qed.

(** One more consumed token that is neither the end of input nor a [GOTO],
    and that is declared if it is an identifier of an expression. *)
Lemma Inv_snoc ts S D G t :
  Inv ts S D G → kind t ≠ EOF → kind t ≠ GOTO →
  (kind t = IDENT → in_expression ts → declared ts (text t)) →
  Inv (ts ++ [t]) S D G.
Proof.
  intros [Hne Hs Hu Hl Hg] Heof Hgoto Hid. split.
  - apply Forall_app. split; [done|]. by constructor.
  - intros x Hx. by apply declared_app, Hs.
  - intros before u after Heq Hk Hin.
    apply snoc_split in Heq as [(-> & -> & ->)|(after' & -> & ->)]; [auto|].
    by eapply Hu.
  - intros x Hx. by apply label_declared_app, Hl.
  - intros before g after Heq Hk.
    apply snoc_split in Heq as [(-> & -> & ->)|(after' & -> & ->)]; [done|].
    destruct (Hg _ _ _ eq_refl Hk) as (n & after'' & -> & Hn).
    exists n, (after'' ++ [t]). by split.
Qed.

Lemma Inv_add_symbol ts S D G x :
  Inv ts S D G → declared ts x → Inv ts ({[x]} ∪ S) D G.
Proof.
  intros [Hne Hs Hu Hl Hg] Hx. split; try done.
  intros y [->%elem_of_singleton|Hy]%elem_of_union; auto.
Qed.

Lemma Inv_add_label ts S D G x :
  Inv ts S D G → label_declared ts x → Inv ts S ({[x]} ∪ D) G.
Proof.
  intros [Hne Hs Hu Hl Hg] Hx. split; try done.
  intros y [->%elem_of_singleton|Hy]%elem_of_union; auto.
Qed.

(** A consumed [GOTO] and the identifier after it. *)
Lemma Inv_goto ts S D G g n :
  Inv ts S D G → kind g = GOTO → kind n = IDENT →
  Inv (ts ++ [g; n]) S D ({[text n]} ∪ G).
Proof.
  intros [Hne Hs Hu Hl Hg] Hkg Hkn. split.
  - apply Forall_app. split; [done|].
    repeat constructor; congruence.
  - intros x Hx. by apply declared_app, Hs.
  - intros before u after Heq Hk Hin.
    change (ts ++ [g; n]) with (ts ++ [g] ++ [n]) in Heq.
    rewrite app_assoc in Heq.
    apply snoc_split in Heq as [(-> & -> & ->)|(after' & -> & Heq)].
    + destruct (Hin ts g eq_refl) as (_ & _ & _ & []). done.
    + apply snoc_split in Heq as [(-> & -> & ->)|(after'' & -> & ->)];
        [congruence|].
      by eapply Hu.
  - intros x Hx. by apply label_declared_app, Hl.
  - intros before u after Heq Hk.
    change (ts ++ [g; n]) with (ts ++ [g] ++ [n]) in Heq.
    rewrite app_assoc in Heq.
    apply snoc_split in Heq as [(-> & -> & ->)|(after' & -> & Heq)];
      [congruence|].
    apply snoc_split in Heq as [(-> & -> & ->)|(after'' & -> & ->)].
    + exists n, []. split; [done|]. split; [done|]. set_solver.
    + destruct (Hg _ _ _ eq_refl Hk) as (m & after3 & -> & Hm1 & Hm2).
      exists m, (after3 ++ [g; n]). split; [|split; [done|set_solver]].
      simpl. by rewrite <- !app_assoc.
Qed.

(** ** The parser keeps [Good] *)

Lemma while_Ok {S : Type} (cond : S → bool) (body : S → Result S)
    (I : S → Prop) :
  (∀ s s', I s → cond s = true → body s = Ok s' → I s') →
  ∀ fuel s s', I s → while_ fuel cond body s = Ok s' →
  I s' ∧ cond s' = false.
Proof.
  intros Hbody fuel. induction fuel as [|fuel IH]; intros s s' HI H; [done|].
  simpl in H. destruct (cond s) eqn:Hc; [|by simplify_eq].
  apply bind_Ok in H as (s1 & H1 & H). eauto.
Qed.

Lemma getTokens_S n l :
  getTokens (S n) l
  = ('(t, l) ← getToken l; '(ts, l) ← getTokens n l; Ok (t :: ts, l)).
Proof. reflexivity. Qed.

Lemma getTokens_snoc n l0 ts l t l' :
  getTokens n l0 = Ok (ts, l) → getToken l = Ok (t, l') →
  getTokens (S n) l0 = Ok (ts ++ [t], l').
Proof.
  revert l0 ts. induction n as [|n IH]; intros l0 ts Hn Ht.
  - simpl in Hn. simplify_eq. simpl. by rewrite Ht.
  - simpl in Hn. apply bind_Ok in Hn as ([t0 l1] & H0 & Hn). simpl in Hn.
    apply bind_Ok in Hn as ([ts' l2] & Hn' & Hn). simpl in Hn. simplify_eq.
    specialize (IH _ _ Hn' Ht).
    rewrite getTokens_S, H0. cbv beta iota delta [mbind Result_bind].
    by rewrite IH.
Qed.

Lemma At_step l0 ts p t l q :
  At l0 ts p → getToken (lexer p) = Ok (t, l) →
  lexer q = l → curToken q = peekToken p → peekToken q = t →
  At l0 (ts ++ [curToken p]) q.
Proof.
  unfold At. intros Hat Hget <- -> ->.
  rewrite length_app. simpl length.
  replace (length ts + 1 + 2)%nat with (S (length ts + 2)) by lia.
  rewrite (getTokens_snoc _ _ _ _ _ _ Hat Hget). by rewrite <- !app_assoc.
Qed.

Lemma checkToken_true p k : checkToken p k = true ↔ kind (curToken p) = k.
Proof. unfold checkToken. rewrite bool_decide_eq_true. naive_solver. Qed.

Lemma checkToken_false p k : checkToken p k = false ↔ kind (curToken p) ≠ k.
Proof. unfold checkToken. rewrite bool_decide_eq_false. naive_solver. Qed.

Lemma match_Ok k p p' :
  match_ k p = Ok p' → kind (curToken p) = k ∧ nextToken p = Ok p'.
Proof.
  unfold match_. destruct (checkToken p k) eqn:Hc; [|done].
  apply checkToken_true in Hc. by simpl.
Qed.

(** Consuming the current token, which the sets account for. *)
Lemma Good_step l0 p p' ts :
  At l0 ts p → nextToken p = Ok p' →
  Inv (ts ++ [curToken p]) (symbols p) (labelsDeclared p) (labelsGotoed p) →
  Good l0 p'.
Proof.
  intros Hat Hnext Hinv. apply nextToken_Ok in Hnext as (t & l & Hget & ->).
  exists (ts ++ [curToken p]). split; [|done]. by eapply At_step.
Qed.

(** Consuming a token that is neither an identifier, nor [GOTO], nor the
    end of input. *)
Lemma Good_next l0 p p' :
  Good l0 p → nextToken p = Ok p' →
  kind (curToken p) ≠ EOF → kind (curToken p) ≠ GOTO →
  kind (curToken p) ≠ IDENT → Good l0 p'.
Proof.
  intros (ts & Hat & Hinv) Hnext ? ? ?. eapply Good_step; [done..|].
  by apply Inv_snoc.
Qed.

(** Consuming an identifier that is in [symbols]. *)
Lemma Good_next_use l0 p p' :
  Good l0 p → nextToken p = Ok p' →
  kind (curToken p) = IDENT → text (curToken p) ∈ symbols p → Good l0 p'.
Proof.
  intros (ts & Hat & Hinv) Hnext Hk Hin. eapply Good_step; [done..|].
  apply Inv_snoc; [done|congruence..|]. intros _ _. by apply Hinv.
Qed.

Lemma Good_match l0 k p p' :
  Good l0 p → match_ k p = Ok p' →
  k ≠ EOF → k ≠ GOTO → k ≠ IDENT → Good l0 p'.
Proof.
  intros HG [<- Hnext]%match_Ok ? ? ?. by eapply Good_next.
Qed.

Lemma nl_Good l0 fuel p p' : Good l0 p → nl fuel p = Ok p' → Good l0 p'.
Proof.
  intros HG H. unfold nl in H. apply bind_Ok in H as (p1 & H1 & H).
  apply (Good_match l0) in H1; [|done..].
  eapply (while_Ok _ _ (Good l0)); [|exact H1|exact H].
  intros s s' Hs Hc%checkToken_true Hn.
  eapply Good_next; [done..|congruence|congruence|congruence].
Qed.

Lemma primary_Good l0 p p' : Good l0 p → primary p = Ok p' → Good l0 p'.
Proof.
  intros HG H. unfold primary in H.
  destruct (checkToken p NUMBER) eqn:Hn.
  { apply checkToken_true in Hn.
    eapply (Good_next l0 (emit _ p)); [exact HG|exact H|simpl; congruence..]. }
  destruct (checkToken p IDENT) eqn:Hi; [|done].
  apply checkToken_true in Hi.
  destruct (bool_decide (text (curToken p) ∈ symbols p)) eqn:Hs; [|done].
  apply bool_decide_eq_true in Hs. simpl in H.
  by eapply (Good_next_use l0 (emit _ p)); [exact HG|exact H|..].
Qed.

Lemma unary_Good l0 p p' : Good l0 p → unary p = Ok p' → Good l0 p'.
Proof.
  intros HG H. unfold unary in H. apply bind_Ok in H as (p1 & H1 & H).
  eapply primary_Good; [|exact H].
  destruct (checkToken p PLUS || checkToken p MINUS) eqn:Hc; [|by simplify_eq].
  apply orb_true_iff in Hc as [Hc|Hc]; apply checkToken_true in Hc;
    (eapply (Good_next l0 (emit _ p)); [exact HG|exact H1|simpl; congruence..]).
Qed.

(** The loops of [term], [expression] and [comparison]: an operator token
    is consumed, then an operand is parsed. *)
Lemma operator_loop_Good l0 (cond : Parser → bool)
    (operand : Parser → Result Parser) fuel p p' :
  (∀ q, cond q = true →
        kind (curToken q) ≠ EOF ∧ kind (curToken q) ≠ GOTO
        ∧ kind (curToken q) ≠ IDENT) →
  (∀ q q', Good l0 q → operand q = Ok q' → Good l0 q') →
  Good l0 p →
  while_ fuel cond
    (fun p => p ← nextToken (emit (text (curToken p)) p); operand p) p
  = Ok p' →
  Good l0 p'.
Proof.
  intros Hcond Hop HG H.
  eapply (while_Ok _ _ (Good l0)); [|exact HG|exact H].
  intros s s' Hs Hc Hb. apply bind_Ok in Hb as (s1 & H1 & Hb).
  destruct (Hcond s Hc) as (? & ? & ?).
  eapply Hop; [|exact Hb]. by eapply (Good_next l0 (emit _ s)); [exact Hs|..].
Qed.

Lemma term_Good l0 fuel p p' : Good l0 p → term fuel p = Ok p' → Good l0 p'.
Proof.
  intros HG H. unfold term in H. apply bind_Ok in H as (p1 & H1 & H).
  eapply operator_loop_Good; [| |by eapply unary_Good|exact H].
  - intros q [Hc|Hc]%orb_true_iff; apply checkToken_true in Hc;
      repeat split; congruence.
  - intros q q'. apply unary_Good.
Qed.

Lemma expression_Good l0 fuel p p' :
  Good l0 p → expression fuel p = Ok p' → Good l0 p'.
Proof.
  intros HG H. unfold expression in H. apply bind_Ok in H as (p1 & H1 & H).
  eapply operator_loop_Good; [| |by eapply term_Good|exact H].
  - intros q [Hc|Hc]%orb_true_iff; apply checkToken_true in Hc;
      repeat split; congruence.
  - intros q q'. apply term_Good.
Qed.

Lemma isComparisonOperator_kind q :
  isComparisonOperator q = true →
  kind (curToken q) ≠ EOF ∧ kind (curToken q) ≠ GOTO
  ∧ kind (curToken q) ≠ IDENT.
Proof.
  unfold isComparisonOperator. rewrite !orb_true_iff, !checkToken_true.
  intros H. repeat split; intros Heq; rewrite Heq in H;
    destruct H as [[[[[H|H]|H]|H]|H]|H]; discriminate H.
Qed.

Lemma comparison_Good l0 fuel p p' :
  Good l0 p → comparison fuel p = Ok p' → Good l0 p'.
Proof.
  intros HG H. unfold comparison in H. apply bind_Ok in H as (p1 & H1 & H).
  apply bind_Ok in H as (p2 & H2 & H).
  apply (expression_Good l0) in H1; [|done].
  eapply operator_loop_Good;
    [apply isComparisonOperator_kind| |
     |exact H].
  - intros q q'. apply expression_Good.
  - destruct (isComparisonOperator p1) eqn:Hc; [|done].
    apply bind_Ok in H2 as (p3 & H3 & H2).
    destruct (isComparisonOperator_kind _ Hc) as (? & ? & ?).
    eapply expression_Good; [|exact H2].
    by eapply (Good_next l0 (emit _ p1)); [exact H1|..].
Qed.

(** A keyword that takes a name, and the name. *)
Lemma Inv_pair ts S D G d n :
  Inv ts S D G →
  kind d = LET ∨ kind d = INPUT ∨ kind d = LABEL → kind n = IDENT →
  Inv (ts ++ [d; n]) S D G.
Proof.
  intros Hinv Hd Hn. change (ts ++ [d; n]) with (ts ++ [d] ++ [n]).
  rewrite app_assoc. apply Inv_snoc; [|congruence..|].
  - apply Inv_snoc; [done|destruct Hd as [?|[?|?]]; congruence..].
  - intros _ Hin. destruct (Hin ts d eq_refl) as (? & ? & ? & ?).
    by destruct Hd as [?|[?|?]].
Qed.

Lemma declared_pair ts d n :
  kind d = LET ∨ kind d = INPUT → kind n = IDENT →
  declared (ts ++ [d; n]) (text n).
Proof. intros. by exists ts, d, n, []. Qed.

Lemma label_declared_pair ts d n :
  kind d = LABEL → kind n = IDENT → label_declared (ts ++ [d; n]) (text n).
Proof. intros. by exists ts, d, n, []. Qed.

Lemma symbols_declare p :
  symbols (declare p) = symbols p
  ∨ symbols (declare p) = {[text (curToken p)]} ∪ symbols p.
Proof. unfold declare. destruct (negb _); [by right|by left]. Qed.

(** A keyword and its name are consumed, by two calls of [nextToken]
    between which only the emitter and the sets change. *)
Lemma Good_name l0 ts p p1 q p2 :
  At l0 ts p → nextToken p = Ok p1 → same_tokens p1 q →
  nextToken q = Ok p2 →
  Inv (ts ++ [curToken p; curToken p1])
    (symbols q) (labelsDeclared q) (labelsGotoed q) →
  Good l0 p2.
Proof.
  intros Hat H1 (Hl & Hc & Hp) H2 Hinv.
  apply nextToken_Ok in H1 as (t1 & l1 & Hget1 & ->). simpl in *.
  assert (At l0 (ts ++ [curToken p]) q) as Hq by (by eapply At_step).
  eapply Good_step; [exact Hq|exact H2|].
  rewrite Hc, <- app_assoc. done.
Qed.

Lemma nextToken_sets p p' :
  nextToken p = Ok p' →
  symbols p' = symbols p ∧ labelsDeclared p' = labelsDeclared p
  ∧ labelsGotoed p' = labelsGotoed p ∧ emitter p' = emitter p
  ∧ curToken p' = peekToken p.
Proof. by intros (t & l & _ & ->)%nextToken_Ok. Qed.

Lemma declare_fields p :
  same_tokens p (declare p) ∧ labelsDeclared (declare p) = labelsDeclared p
  ∧ labelsGotoed (declare p) = labelsGotoed p.
Proof. unfold declare, same_tokens. by destruct (negb _). Qed.

(** [LET] or [INPUT], then the declaration of the name, then the name. *)
Lemma Good_declare l0 ts p p1 q p2 :
  At l0 ts p →
  Inv ts (symbols p) (labelsDeclared p) (labelsGotoed p) →
  kind (curToken p) = LET ∨ kind (curToken p) = INPUT →
  nextToken p = Ok p1 → kind (curToken p1) = IDENT →
  same_tokens p1 q → symbols q = symbols (declare p1) →
  labelsDeclared q = labelsDeclared p1 → labelsGotoed q = labelsGotoed p1 →
  nextToken q = Ok p2 →
  Good l0 p2.
Proof.
  intros Hat Hinv Hkw H1 Hid Hsame Hs Hd Hg H2.
  eapply Good_name; [done..|]. rewrite Hs, Hd, Hg.
  destruct (nextToken_sets _ _ H1) as (Hs1 & -> & -> & _).
  assert (Inv (ts ++ [curToken p; curToken p1]) (symbols p)
            (labelsDeclared p) (labelsGotoed p)) as Hpair
    by (apply Inv_pair; [done|tauto|done]).
  destruct (symbols_declare p1) as [->| ->]; rewrite Hs1; [done|].
  apply Inv_add_symbol; [done|]. by apply declared_pair.
Qed.

Lemma statement_Good l0 fuel p p' :
  Good l0 p → statement fuel p = Ok p' → Good l0 p'.
Proof.
  revert p p'. induction fuel as [|fuel IH]; intros p p' HG H; [done|].
  simpl in H. apply bind_Ok in H as (pb & Hb & H).
  eapply nl_Good; [|exact H]. clear H p'.
  assert (∀ k q q', Good l0 q →
            while_ fuel (fun p => negb (checkToken p k)) (statement fuel) q
            = Ok q' → Good l0 q') as Hbody.
  { intros k q q' Hq Hw.
    eapply (while_Ok _ _ (Good l0)); [|exact Hq|exact Hw]. eauto. }
  destruct (checkToken p PRINT) eqn:HPRINT.
  { apply checkToken_true in HPRINT.
    apply bind_Ok in Hb as (p1 & H1 & Hb).
    apply (Good_next l0) in H1; [|done|congruence..].
    destruct (checkToken p1 STRING) eqn:HS.
    - apply checkToken_true in HS.
      eapply (Good_next l0 (emitLine _ p1));
        [exact H1|exact Hb|simpl; congruence..].
    - apply bind_Ok in Hb as (p2 & H2 & Hb). simplify_eq.
      exact (expression_Good l0 _ (emit _ p1) _ H1 H2). }
  destruct (checkToken p IF) eqn:HIF.
  { apply checkToken_true in HIF.
    apply bind_Ok in Hb as (p1 & H1 & Hb).
    apply (Good_next l0) in H1; [|done|congruence..].
    apply bind_Ok in Hb as (p2 & H2 & Hb).
    apply (comparison_Good l0 _ (emit _ p1)) in H2; [|done].
    apply bind_Ok in Hb as (p3 & H3 & Hb).
    apply (Good_match l0) in H3; [|done..].
    apply bind_Ok in Hb as (p4 & H4 & Hb).
    apply (nl_Good l0) in H4; [|done].
    apply bind_Ok in Hb as (p5 & H5 & Hb).
    apply (Hbody _ (emitLine _ p4)) in H5; [|done].
    apply bind_Ok in Hb as (p6 & H6 & Hb).
    apply (Good_match l0) in H6; [|done..]. by simplify_eq. }
  destruct (checkToken p WHILE) eqn:HWHILE.
  { apply checkToken_true in HWHILE.
    apply bind_Ok in Hb as (p1 & H1 & Hb).
    apply (Good_next l0) in H1; [|done|congruence..].
    apply bind_Ok in Hb as (p2 & H2 & Hb).
    apply (comparison_Good l0 _ (emit _ p1)) in H2; [|done].
    apply bind_Ok in Hb as (p3 & H3 & Hb).
    apply (Good_match l0) in H3; [|done..].
    apply bind_Ok in Hb as (p4 & H4 & Hb).
    apply (nl_Good l0) in H4; [|done].
    apply bind_Ok in Hb as (p5 & H5 & Hb).
    apply (Hbody _ (emitLine _ p4)) in H5; [|done].
    apply bind_Ok in Hb as (p6 & H6 & Hb).
    apply (Good_match l0) in H6; [|done..]. by simplify_eq. }
  destruct HG as (ts & Hat & Hinv).
  destruct (checkToken p LABEL) eqn:HLABEL.
  { apply checkToken_true in HLABEL.
    apply bind_Ok in Hb as (p1 & H1 & Hb).
    destruct (bool_decide (text (curToken p1) ∈ labelsDeclared p1)); [done|].
    apply match_Ok in Hb as [Hk Hb]. simpl in Hk.
    eapply (Good_name l0 ts p p1); [done|done| |exact Hb|]; [done|].
    simpl. destruct (nextToken_sets _ _ H1) as (-> & -> & -> & _).
    apply Inv_add_label; [apply Inv_pair; auto|by apply label_declared_pair]. }
  destruct (checkToken p GOTO) eqn:HGOTO.
  { apply checkToken_true in HGOTO.
    apply bind_Ok in Hb as (p1 & H1 & Hb).
    apply match_Ok in Hb as [Hk Hb]. simpl in Hk.
    eapply (Good_name l0 ts p p1); [done|done| |exact Hb|]; [done|].
    simpl. destruct (nextToken_sets _ _ H1) as (-> & -> & -> & _).
    by apply Inv_goto. }
  destruct (checkToken p LET) eqn:HLET.
  { apply checkToken_true in HLET.
    apply bind_Ok in Hb as (p1 & H1 & Hb).
    apply bind_Ok in Hb as (p2 & H2 & Hb).
    apply match_Ok in H2 as [Hk H2].
    destruct (declare_fields p1) as ((Hl & Hc & Hp) & Hd & Hg).
    assert (Good l0 p2) as HG2.
    { eapply (Good_declare l0 ts p p1); [done|done|by left|done| | | | | |exact H2];
        simpl; try done. by rewrite <- Hc. }
    apply bind_Ok in Hb as (p3 & H3 & Hb).
    apply (Good_match l0) in H3; [|done..].
    apply bind_Ok in Hb as (p4 & H4 & Hb).
    apply (expression_Good l0) in H4; [|done]. by simplify_eq. }
  destruct (checkToken p INPUT) eqn:HINPUT; [|done].
  apply checkToken_true in HINPUT.
  apply bind_Ok in Hb as (p1 & H1 & Hb).
  apply match_Ok in Hb as [Hk Hb].
  destruct (declare_fields p1) as ((Hl & Hc & Hp) & Hd & Hg).
  eapply (Good_declare l0 ts p p1); [done|done|by right|done| | | | | |exact Hb];
    simpl; try done. by rewrite <- Hc.
Qed.

(** ** Exit messages *)

Lemma program_eq fuel p :
  program fuel p
  = (p ← parsed_statements fuel p;
     checkLabels (emitLine "}" (emitLine "return 0;" p))).
Proof.
  unfold program, parsed_statements.
  by destruct (while_ fuel _ nextToken _).
Qed.

Lemma while_Exit {S : Type} (cond : S → bool) (body : S → Result S)
    (E : string → Prop) :
  (∀ s m, body s = Exit m → E m) →
  ∀ fuel s m, while_ fuel cond body s = Exit m → E m.
Proof.
  intros Hbody fuel. induction fuel as [|fuel IH]; intros s m H; [done|].
  simpl in H. destruct (cond s); [|done].
  apply bind_Exit in H as [H|(s' & _ & H)]; eauto.
Qed.

Lemma lex_abort_error m : is_lex_error ("Lexing Error. " +:+ m).
Proof. by exists m. Qed.

Lemma scan_no_exit fuel (c : Lexer → bool) l m :
  while_ fuel c (fun l => Ok (nextChar l)) l = Exit m → False.
Proof. by apply (while_Exit _ _ (fun _ => False)). Qed.

Lemma classify_Exit l m : classify l = Exit m → is_lex_error m.
Proof.
  unfold classify, Lex.abort, scanWhilePeek, scanString.
  intros H.
  repeat match type of H with
  | (if ?c then _ else _) = _ => destruct c
  | match ?c with Some _ => _ | None => _ end = _ => destruct c
  | Ok _ = Exit _ => discriminate H
  | Exit _ = Exit _ => injection H as <-; apply lex_abort_error
  | _ ≫= _ = Exit _ => apply bind_Exit in H as [H|(? & _ & H)]
  | while_ _ _ (fun l => Ok (nextChar l)) _ = Exit _ =>
      by apply scan_no_exit in H
  end.
  apply (while_Exit _ _ is_lex_error) in H; [done|].
  intros s m'. destruct (illegal_in_string _); [|done].
  intros [= <-]. apply lex_abort_error.
Qed.

Lemma getToken_Exit l m : getToken l = Exit m → is_lex_error m.
Proof.
  unfold getToken, skipWhitespace, skipComment. intros H.
  apply bind_Exit in H as [H|(l1 & _ & H)]; [by apply scan_no_exit in H|].
  apply bind_Exit in H as [H|(l2 & _ & H)].
  { destruct (_ =? _)%char; [by apply scan_no_exit in H|done]. }
  apply bind_Exit in H as [H|([t l3] & _ & H)]; [|done].
  by apply (classify_Exit l2).
Qed.

Lemma lex_error_early m : is_lex_error m → early_error m.
Proof. intros (m' & ->) x H. vm_compute in H. discriminate H. Qed.

Ltac early := intros ? Hearly; vm_compute in Hearly; discriminate Hearly.

Lemma nextToken_Exit p m : nextToken p = Exit m → early_error m.
Proof.
  unfold nextToken. intros H.
  apply bind_Exit in H as [H|([t l] & _ & H)]; [|done].
  by apply lex_error_early, (getToken_Exit (lexer p)).
Qed.

Lemma match_Exit k p m : match_ k p = Exit m → early_error m.
Proof.
  unfold match_, Parse.abort. destruct (negb _); [|apply nextToken_Exit].
  intros [= <-]. early.
Qed.

Lemma nl_Exit fuel p m : nl fuel p = Exit m → early_error m.
Proof.
  unfold nl. intros H. apply bind_Exit in H as [H|(p1 & _ & H)].
  - by apply match_Exit in H.
  - apply (while_Exit _ _ early_error) in H; [done|]. apply nextToken_Exit.
Qed.

Lemma primary_Exit p m : primary p = Exit m → early_error m.
Proof.
  unfold primary, Parse.abort. intros H.
  repeat match type of H with
  | (if ?c then _ else _) = _ => destruct c
  | nextToken _ = Exit _ => by apply nextToken_Exit in H
  | Exit _ = Exit _ => injection H as <-; early
  end.
Qed.

Lemma unary_Exit p m : unary p = Exit m → early_error m.
Proof.
  unfold unary. intros H. apply bind_Exit in H as [H|(p1 & _ & H)].
  - destruct (_ || _); [by apply nextToken_Exit in H|done].
  - by apply primary_Exit in H.
Qed.

Lemma operator_loop_Exit (cond : Parser → bool)
    (operand : Parser → Result Parser) fuel p m :
  (∀ q m, operand q = Exit m → early_error m) →
  while_ fuel cond
    (fun p => p ← nextToken (emit (text (curToken p)) p); operand p) p
  = Exit m →
  early_error m.
Proof.
  intros Hop H. apply (while_Exit _ _ early_error) in H; [done|].
  intros s m' Hb. apply bind_Exit in Hb as [Hb|(s1 & _ & Hb)]; eauto.
  by apply nextToken_Exit in Hb.
Qed.

Lemma term_Exit fuel p m : term fuel p = Exit m → early_error m.
Proof.
  unfold term. intros H. apply bind_Exit in H as [H|(p1 & _ & H)].
  - by apply unary_Exit in H.
  - eapply operator_loop_Exit; [|exact H]. apply unary_Exit.
Qed.

Lemma expression_Exit fuel p m : expression fuel p = Exit m → early_error m.
Proof.
  unfold expression. intros H. apply bind_Exit in H as [H|(p1 & _ & H)].
  - by apply term_Exit in H.
  - eapply operator_loop_Exit; [|exact H]. apply term_Exit.
Qed.

Lemma comparison_Exit fuel p m : comparison fuel p = Exit m → early_error m.
Proof.
  unfold comparison, Parse.abort. intros H.
  apply bind_Exit in H as [H|(p1 & _ & H)]; [by apply expression_Exit in H|].
  apply bind_Exit in H as [H|(p2 & _ & H)].
  - destruct (isComparisonOperator p1); [|injection H as <-; early].
    apply bind_Exit in H as [H|(p3 & _ & H)];
      [by apply nextToken_Exit in H|by apply expression_Exit in H].
  - eapply operator_loop_Exit; [|exact H]. apply expression_Exit.
Qed.

Lemma statement_Exit fuel p m : statement fuel p = Exit m → early_error m.
Proof.
  revert p m. induction fuel as [|fuel IH]; intros p m H; [done|].
  simpl in H. unfold Parse.abort in H.
  apply bind_Exit in H as [H|(pb & _ & H)]; [|by apply nl_Exit in H].
  repeat match type of H with
  | (if ?c then _ else _) = _ => destruct c
  | _ ≫= _ = Exit _ => apply bind_Exit in H as [H|(? & _ & H)]
  | nextToken _ = Exit _ => by apply nextToken_Exit in H
  | match_ _ _ = Exit _ => by apply match_Exit in H
  | nl _ _ = Exit _ => by apply nl_Exit in H
  | expression _ _ = Exit _ => by apply expression_Exit in H
  | comparison _ _ = Exit _ => by apply comparison_Exit in H
  | while_ _ _ (statement _) _ = Exit _ =>
      by apply (while_Exit _ _ early_error) in H
  | Ok _ = Exit _ => discriminate H
  | Exit _ = Exit _ => injection H as <-; early
  end.
Qed.

Lemma parsed_statements_Exit fuel p m :
  parsed_statements fuel p = Exit m → early_error m.
Proof.
  unfold parsed_statements. intros H.
  apply bind_Exit in H as [H|(p1 & _ & H)].
  - apply (while_Exit _ _ early_error) in H; [done|]. apply nextToken_Exit.
  - apply (while_Exit _ _ early_error) in H; [done|]. apply statement_Exit.
Qed.

(** ** Accepted programs *)

Lemma init_Good l0 e p : Parse.init l0 e = Ok p → Good l0 p.
Proof.
  unfold Parse.init. intros H.
  apply bind_Ok in H as ([t1 l1] & H1 & H). simpl in H.
  apply bind_Ok in H as ([t2 l2] & H2 & H). simpl in H. simplify_eq.
  exists []. split.
  - unfold At. simpl. rewrite H1. simpl. rewrite H2. done.
  - split; [constructor|set_solver| |set_solver|].
    + intros before t after Heq. by destruct before.
    + intros before t after Heq. by destruct before.
Qed.

Lemma parsed_statements_Good l0 fuel p p' :
  Good l0 p → parsed_statements fuel p = Ok p' →
  Good l0 p' ∧ kind (curToken p') = EOF.
Proof.
  unfold parsed_statements. intros HG H.
  apply bind_Ok in H as (p1 & H1 & H).
  apply (while_Ok _ _ (Good l0)) in H1 as [H1 _]; [| |exact HG].
  2:{ intros s s' Hs Hc%checkToken_true Hn.
      eapply Good_next; [done..|congruence|congruence|congruence]. }
  apply (while_Ok _ _ (Good l0)) in H as [H Hc]; [| |exact H1].
  2:{ intros s s' Hs _. by apply statement_Good. }
  split; [done|]. by apply negb_false_iff, checkToken_true in Hc.
Qed.

Lemma checkLabels_Ok p p' :
  checkLabels p = Ok p' → p' = p ∧ labelsGotoed p ⊆ labelsDeclared p.
Proof.
  unfold checkLabels.
  destruct (find _ _) as [x|] eqn:Hf; [done|]. intros [= <-]. split; [done|].
  intros x Hx. apply elem_of_elements, list_elem_of_In in Hx.
  apply (find_none _ _ Hf) in Hx.
  by apply negb_false_iff, bool_decide_eq_true in Hx.
Qed.

Lemma checkLabels_Exit p m :
  checkLabels p = Exit m →
  ∃ x, m = label_error x ∧ x ∈ labelsGotoed p ∧ x ∉ labelsDeclared p.
Proof.
  unfold checkLabels.
  destruct (find _ _) as [x|] eqn:Hf; [|done]. intros [= <-].
  apply find_some in Hf as [Hin Hx]. exists x. split; [done|].
  apply list_elem_of_In, elem_of_elements in Hin. split; [done|].
  by apply negb_true_iff, bool_decide_eq_false in Hx.
Qed.

Lemma checkLabels_dangling p x :
  x ∈ labelsGotoed p → x ∉ labelsDeclared p →
  ∃ y, checkLabels p = Exit (label_error y)
       ∧ y ∈ labelsGotoed p ∧ y ∉ labelsDeclared p.
Proof.
  intros Hx Hn. destruct (checkLabels p) as [p'|m|] eqn:Hc.
  - apply checkLabels_Ok in Hc as [_ Hsub]. set_solver.
  - apply checkLabels_Exit in Hc as (y & -> & ? & ?). eauto.
  - unfold checkLabels in Hc. by destruct (find _ _).
Qed.

(** The tokens of an accepted program: the scanner delivers them, then the
    end-of-input token; the sets of the parser account for them and every
    label that a [GOTO] names is declared. *)
Lemma accepted_tokens fuel src out :
  translate fuel src = Ok out →
  ∃ ts eof next l S D G,
    getTokens (length ts + 2) (Lex.init src) = Ok (ts ++ [eof; next], l)
    ∧ kind eof = EOF ∧ Inv ts S D G ∧ G ⊆ D.
Proof.
  unfold translate. intros H.
  apply bind_Ok in H as (p0 & H0 & H). apply init_Good in H0.
  apply bind_Ok in H as (p1 & H1 & _). rewrite program_eq in H1.
  apply bind_Ok in H1 as (p2 & H2 & H1).
  apply (parsed_statements_Good _ _ _ _ H0) in H2
    as ((ts & Hat & Hinv) & Heof).
  apply checkLabels_Ok in H1 as [_ Hsub].
  by exists ts, (curToken p2), (peekToken p2), (lexer p2), (symbols p2),
    (labelsDeclared p2), (labelsGotoed p2).
Qed.

Lemma let_x_x_output :
  translate 50 "LET x = x"
  = Ok [ HeaderLine "#include <stdio.h>"; HeaderLine "int main(void){";
         HeaderLine "float x;"; Emit "x = "; Emit "x"; EmitLine ";";
         EmitLine "return 0;"; EmitLine "}" ].
Proof. vm_compute. reflexivity. Qed.

Lemma let_x_x_tokens :
  getTokens (length let_x_x + 2) (Lex.init "LET x = x")
  = Ok (let_x_x ++ [EOF_token; EOF_token],
        mkLexer ("LET x = x" +:+ newline) "000" 12).
Proof. vm_compute. reflexivity. Qed.

(** C1 — Claim as stated: in an accepted program every identifier of an
    expression is declared by a statement strictly earlier than the one it
    occurs in.  [LET x = x] is accepted: [LET] puts [x] into [symbols]
    before the expression on its right is parsed, and that expression is
    the first use of [x]. *)
Lemma first_use_in_the_declaring_statement :
  ¬ (∀ src out ts eof next l,
       translate 50 src = Ok out →
       getTokens (length ts + 2) (Lex.init src) = Ok (ts ++ [eof; next], l) →
       kind eof = EOF →
       ∀ before t after, ts = before ++ t :: after → kind t = IDENT →
         in_expression before →
         declared_by_earlier_statement before (text t)).
Proof.
  intros H.
  specialize (H _ _ let_x_x _ _ _ let_x_x_output let_x_x_tokens eq_refl
                [mkToken "LET" LET; mkToken "x" IDENT; mkToken "=" EQ]
                (mkToken "x" IDENT) [mkToken newline NEWLINE]
                eq_refl eq_refl).
  destruct H as (a & d & n & b & Heq & Hd & Hn & _ & t & Ht & Hnl).
  - intros a d Heq.
    change [mkToken "LET" LET; mkToken "x" IDENT; mkToken "=" EQ]
      with ([mkToken "LET" LET; mkToken "x" IDENT] ++ [mkToken "=" EQ]) in Heq.
    by apply app_inj_tail in Heq as [_ <-].
  - destruct a as [|? [|? [|? a]]]; simplify_eq/=.
    + by apply list_elem_of_singleton in Ht as ->.
    + by destruct a.
Qed.

(** C1 — In every accepted program, each identifier that occurs in an
    expression is declared by the tokens before it: a [LET] or [INPUT]
    keyword followed by that very name comes earlier in the token
    sequence, in the same statement or in an earlier one.  The name after
    [LET] or [INPUT] is itself the declaration and needs none before. *)
Theorem uses_follow_declarations fuel src out :
  translate fuel src = Ok out →
  ∃ ts eof next l,
    getTokens (length ts + 2) (Lex.init src) = Ok (ts ++ [eof; next], l)
    ∧ kind eof = EOF ∧ Forall (fun t => kind t ≠ EOF) ts
    ∧ ∀ before t after, ts = before ++ t :: after → kind t = IDENT →
        in_expression before → declared before (text t).
Proof.
  intros (ts & eof & next & l & S & D & G & Hts & Heof & Hinv & _)
    %accepted_tokens.
  exists ts, eof, next, l. split; [done|]. split; [done|].
  split; [apply Hinv|]. apply Hinv.
Qed.

Lemma uses_follow_declarations_witness :
  ∃ ts eof next l,
    getTokens (length ts + 2) (Lex.init "LET x = x")
    = Ok (ts ++ [eof; next], l)
    ∧ kind eof = EOF ∧ Forall (fun t => kind t ≠ EOF) ts
    ∧ ∀ before t after, ts = before ++ t :: after → kind t = IDENT →
        in_expression before → declared before (text t).
Proof.
  apply (uses_follow_declarations 50 "LET x = x" _ let_x_x_output).
Defined.

(** ** Results that agree *)

Lemma agree_bind {A B A' B'} (R : A → B → Prop) (R' : A' → B' → Prop)
    m1 m2 (f1 : A → Result A') (f2 : B → Result B') :
  agree R m1 m2 → (∀ a b, R a b → agree R' (f1 a) (f2 b)) →
  agree R' (m1 ≫= f1) (m2 ≫= f2).
Proof. destruct m1, m2; simpl; intros; (done || auto). Qed.

Lemma agree_while {S T : Type} (R : S → T → Prop)
    (cond1 : S → bool) (body1 : S → Result S)
    (cond2 : T → bool) (body2 : T → Result T) fuel s t :
  (∀ s t, R s t → cond1 s = cond2 t) →
  (∀ s t, R s t → agree R (body1 s) (body2 t)) →
  R s t →
  agree R (while_ fuel cond1 body1 s) (while_ fuel cond2 body2 t).
Proof.
  intros Hc Hb HR.
  apply (while_sim R); [exact Hc|intros; by apply Hb|exact HR].
Qed.

Lemma fuel_le_refl {A} (r : Result A) : fuel_le r r.
Proof. by right. Qed.

Lemma fuel_le_bind {A B} (m m' : Result A) (f f' : A → Result B) :
  fuel_le m m' → (∀ a, fuel_le (f a) (f' a)) →
  fuel_le (m ≫= f) (m' ≫= f').
Proof.
  intros [->| <-] Hf; [by left|]. destruct m; simpl; [apply Hf|by right..].
Qed.

Lemma fuel_le_while {S : Type} (cond : S → bool) (body body' : S → Result S)
    fuel fuel' s :
  (∀ s, fuel_le (body s) (body' s)) → (fuel ≤ fuel')%nat →
  fuel_le (while_ fuel cond body s) (while_ fuel' cond body' s).
Proof.
  intros Hb. revert fuel' s. induction fuel as [|fuel IH]; intros fuel' s Hle.
  - by left.
  - destruct fuel' as [|fuel']; [lia|]. simpl.
    destruct (cond s); [|by right].
    apply fuel_le_bind; [done|]. intros s'. apply IH. lia.
Qed.

(** ** The scanner on a longer buffer *)

Section Shift.
Variables pre s0 : string.

Lemma shifted_curChar l1 l2 : (shifted pre s0) l1 l2 → curChar l1 = curChar l2.
Proof. intros (i & Hi & -> & ->). simpl. by apply charAt_append_r. Qed.

Lemma shifted_peek l1 l2 : (shifted pre s0) l1 l2 → peek l1 = peek l2.
Proof.
  intros (i & Hi & -> & ->). rewrite !peek_lexerAt.
  replace (len pre + i + 1) with (len pre + (i + 1)) by lia.
  apply charAt_append_r. lia.
Qed.

Lemma shifted_nextChar l1 l2 :
  (shifted pre s0) l1 l2 → (shifted pre s0) (nextChar l1) (nextChar l2).
Proof.
  intros (i & Hi & -> & ->). exists (i + 1). rewrite !nextChar_lexerAt.
  split; [lia|]. split; [f_equal; lia|done].
Qed.

Lemma shifted_slice l1 l2 l1' l2' (k : Z) :
  (shifted pre s0) l1 l2 → (shifted pre s0) l1' l2' →
  slice (source l1') (curPos l1) (curPos l1' + k)
  = slice (source l2') (curPos l2) (curPos l2' + k).
Proof.
  intros (i & Hi & -> & ->) (j & Hj & -> & ->). simpl. unfold slice.
  replace (Z.to_nat (len pre + i))
    with (String.length pre + Z.to_nat i)%nat by (unfold len; lia).
  rewrite substring_append_r. do 2 f_equal. lia.
Qed.

Lemma shifted_steps l1 l2 : (shifted pre s0) l1 l2 → (steps l2 ≤ steps l1)%nat.
Proof.
  intros (i & Hi & -> & ->). unfold steps. simpl. rewrite !length_append. lia.
Qed.

(** A scanning loop gives the same on both buffers, provided that it ends
    on the shorter one. *)
Lemma loop_shifted (cond : Lexer → bool) (body : Lexer → Result Lexer) l1 l2 :
  (∀ l1 l2, (shifted pre s0) l1 l2 → cond l1 = cond l2) →
  (∀ l1 l2, (shifted pre s0) l1 l2 → agree (shifted pre s0) (body l1) (body l2)) →
  (shifted pre s0) l1 l2 →
  while_ (steps l2) cond body l2 ≠ OutOfFuel →
  agree (shifted pre s0) (while_ (steps l1) cond body l1)
    (while_ (steps l2) cond body l2).
Proof.
  intros Hc Hb Hs Hne.
  rewrite <- (while_mono cond body (steps l2) (steps l1) l2 _ eq_refl Hne
                (shifted_steps _ _ Hs)).
  by apply agree_while.
Qed.

Lemma nextChar_agree l1 l2 :
  (shifted pre s0) l1 l2 → agree (shifted pre s0) (Ok (nextChar l1)) (Ok (nextChar l2)).
Proof. apply shifted_nextChar. Qed.

Lemma skipWhitespace_shifted l1 l2 :
  (shifted pre s0) l1 l2 → agree (shifted pre s0) (skipWhitespace l1) (skipWhitespace l2).
Proof.
  intros Hs. apply loop_shifted; [|apply nextChar_agree|done|].
  - intros a b Hab. by rewrite (shifted_curChar _ _ Hab).
  - destruct Hs as (i & Hi & _ & ->).
    destruct (skipWhitespace_spec s0 i Hi) as (i1 & Heq & _).
    change (skipWhitespace (lexerAt (s0 +:+ str1 "010") i) ≠ OutOfFuel).
    by rewrite Heq.
Qed.

Lemma skipComment_shifted l1 l2 :
  (shifted pre s0) l1 l2 → agree (shifted pre s0) (skipComment l1) (skipComment l2).
Proof.
  intros Hs. unfold skipComment. rewrite (shifted_curChar _ _ Hs).
  destruct (curChar l2 =? "#")%char eqn:Hc; [|done].
  apply loop_shifted; [|apply nextChar_agree|done|].
  - intros a b Hab. by rewrite (shifted_curChar _ _ Hab).
  - destruct Hs as (i & Hi & _ & ->).
    destruct (skipComment_spec s0 i Hi) as (i2 & Heq & _).
    unfold skipComment in Heq. rewrite Hc in Heq.
    by rewrite Heq.
Qed.

Lemma scanWhilePeek_shifted (p : ascii → bool) l1 l2 :
  p "000"%char = false → (shifted pre s0) l1 l2 →
  agree (shifted pre s0) (scanWhilePeek p l1) (scanWhilePeek p l2).
Proof.
  intros Hp Hs. apply loop_shifted; [|apply nextChar_agree|done|].
  - intros a b Hab. by rewrite (shifted_peek _ _ Hab).
  - destruct Hs as (i & Hi & _ & ->).
    destruct (scanWhilePeek_spec s0 p i Hp Hi) as (j & Heq & _).
    change (scanWhilePeek p (lexerAt (s0 +:+ str1 "010") i) ≠ OutOfFuel).
    by rewrite Heq.
Qed.

Lemma scanString_shifted l1 l2 :
  (shifted pre s0) l1 l2 → curPos l2 < len (s0 +:+ str1 "010") →
  agree (shifted pre s0) (scanString l1) (scanString l2).
Proof.
  intros Hs Hlt. apply loop_shifted; [| |done|].
  - intros a b Hab. by rewrite (shifted_curChar _ _ Hab).
  - intros a b Hab. rewrite (shifted_curChar _ _ Hab).
    destruct (illegal_in_string _); [done|]. by apply shifted_nextChar.
  - destruct Hs as (i & Hi & _ & ->).
    pose proof (scanString_spec s0 i ltac:(simpl in Hlt; lia)) as H.
    change (scanString (lexerAt (s0 +:+ str1 "010") i) ≠ OutOfFuel).
    by destruct (scanString _).
Qed.

Lemma classify_shifted l1 l2 :
  (shifted pre s0) l1 l2 → agree (same_token pre s0) (classify l1) (classify l2).
Proof.
  intros Hs. unfold classify, twoCharOr.
  pose proof (shifted_nextChar _ _ Hs) as Hn.
  rewrite (shifted_curChar _ _ Hs), (shifted_peek _ _ Hs),
    (shifted_curChar _ _ Hn).
  repeat match goal with
  | |- agree _ (if ?c then _ else _) (if ?c then _ else _) =>
      let E := fresh "E" in destruct c eqn:E
  | |- agree _ (Ok (if ?c then _ else _)) (Ok (if ?c then _ else _)) =>
      destruct c
  | |- agree _ (Ok _) (Ok _) => by split
  | |- agree _ (Lex.abort _) (Lex.abort _) => reflexivity
  end.
  - (* string literal *)
    assert (curChar l2 = "034"%char) as Hq
      by (by match goal with
             | H : (curChar l2 =? "034")%char = true |- _ => apply eqb_true in H
             end).
    assert (curPos (nextChar l2) < len (s0 +:+ str1 "010")) as Hlt.
    { destruct Hs as (i & Hi & _ & ->). rewrite nextChar_lexerAt. simpl.
      simpl in Hq.
      assert (i < len (s0 +:+ str1 "010"))
        by (apply (charAt_not_nul s0); by rewrite Hq).
      assert (i ≠ len s0)
        by (intros ->; by rewrite charAt_newline in Hq).
      pose proof (len_src s0) as Hlen. lia. }
    eapply agree_bind; [by apply scanString_shifted|].
    intros a b Hab. split; [|done]. simpl. f_equal.
    pose proof (shifted_slice _ _ _ _ 0 Hn Hab) as Hsl.
    by rewrite !Z.add_0_r in Hsl.
  - (* number *)
    eapply agree_bind; [by apply scanWhilePeek_shifted|]. intros a b Hab.
    pose proof (shifted_nextChar _ _ Hab) as Hn'.
    rewrite (shifted_peek _ _ Hab), (shifted_peek _ _ Hn').
    eapply agree_bind.
    + destruct (peek b =? ".")%char; [|done].
      destruct (negb _); [reflexivity|by apply scanWhilePeek_shifted].
    + intros a' b' Hab'. split; [|done]. simpl. f_equal.
      apply (shifted_slice _ _ _ _ 1 Hs Hab').
  - (* identifier or keyword *)
    eapply agree_bind; [by apply scanWhilePeek_shifted|]. intros a b Hab.
    rewrite (shifted_slice _ _ _ _ 1 Hs Hab).
    by destruct (checkIfKeyword _).
Qed.

Lemma getToken_shifted l1 l2 :
  (shifted pre s0) l1 l2 → agree (same_token pre s0) (getToken l1) (getToken l2).
Proof.
  intros Hs. unfold getToken.
  eapply agree_bind; [by apply skipWhitespace_shifted|]. intros a b Hab.
  eapply agree_bind; [by apply skipComment_shifted|]. intros a' b' Hab'.
  eapply agree_bind; [by apply classify_shifted|].
  intros [t1 c1] [t2 c2] [Ht Hc]. simpl in *. split; [done|].
  by apply shifted_nextChar.
Qed.
End Shift.

(** ** The parser on a longer buffer *)

Lemma agree_Ok {A B} (R : A → B → Prop) a b : R a b → agree R (Ok a) (Ok b).
Proof. done. Qed.

Lemma curToken_emit c p : curToken (emit c p) = curToken p.
Proof. reflexivity. Qed.

Lemma curToken_emitLine c p : curToken (emitLine c p) = curToken p.
Proof. reflexivity. Qed.

Lemma curToken_declare p : curToken (declare p) = curToken p.
Proof. unfold declare. by destruct (negb _). Qed.

Section Related.
Variables pre s0 : string.

Lemma related_curToken p1 p2 : (related pre s0) p1 p2 → curToken p1 = curToken p2.
Proof. by intros (_ & _ & _ & _ & _ & ? & _). Qed.

Lemma related_checkToken p1 p2 :
  (related pre s0) p1 p2 → ∀ k, checkToken p1 k = checkToken p2 k.
Proof. intros H k. unfold checkToken. by rewrite (related_curToken _ _ H). Qed.

Lemma related_isComparisonOperator p1 p2 :
  (related pre s0) p1 p2 → isComparisonOperator p1 = isComparisonOperator p2.
Proof.
  intros H. unfold isComparisonOperator.
  by rewrite !(related_checkToken _ _ H).
Qed.

Lemma related_symbols p1 p2 : (related pre s0) p1 p2 → symbols p1 = symbols p2.
Proof. by intros (_ & _ & ? & _). Qed.

Lemma related_labelsDeclared p1 p2 :
  (related pre s0) p1 p2 → labelsDeclared p1 = labelsDeclared p2.
Proof. by intros (_ & _ & _ & ? & _). Qed.

Lemma related_labelsGotoed p1 p2 :
  (related pre s0) p1 p2 → labelsGotoed p1 = labelsGotoed p2.
Proof. by intros (_ & _ & _ & _ & ? & _). Qed.

Lemma related_emit c p1 p2 : (related pre s0) p1 p2 → (related pre s0) (emit c p1) (emit c p2).
Proof.
  intros (? & ? & ? & ? & ? & ? & ?). repeat split; simpl; congruence.
Qed.

Lemma related_emitLine c p1 p2 :
  (related pre s0) p1 p2 → (related pre s0) (emitLine c p1) (emitLine c p2).
Proof.
  intros (? & ? & ? & ? & ? & ? & ?). repeat split; simpl; congruence.
Qed.

Lemma related_headerLine c p1 p2 :
  (related pre s0) p1 p2 → (related pre s0) (headerLine c p1) (headerLine c p2).
Proof.
  intros (? & ? & ? & ? & ? & ? & ?). repeat split; simpl; congruence.
Qed.

Lemma related_add_symbol x p1 p2 :
  (related pre s0) p1 p2 → (related pre s0) (add_symbol x p1) (add_symbol x p2).
Proof.
  intros (? & ? & ? & ? & ? & ? & ?). repeat split; simpl; congruence.
Qed.

Lemma related_add_labelDeclared x p1 p2 :
  (related pre s0) p1 p2 → (related pre s0) (add_labelDeclared x p1) (add_labelDeclared x p2).
Proof.
  intros (? & ? & ? & ? & ? & ? & ?). repeat split; simpl; congruence.
Qed.

Lemma related_add_labelGotoed x p1 p2 :
  (related pre s0) p1 p2 → (related pre s0) (add_labelGotoed x p1) (add_labelGotoed x p2).
Proof.
  intros (? & ? & ? & ? & ? & ? & ?). repeat split; simpl; congruence.
Qed.

Lemma related_declare p1 p2 :
  (related pre s0) p1 p2 → (related pre s0) (declare p1) (declare p2).
Proof.
  intros H. unfold declare.
  rewrite (related_curToken _ _ H), (related_symbols _ _ H).
  destruct (negb _); [|done].
  by apply related_headerLine, related_add_symbol.
Qed.

Lemma nextToken_related p1 p2 :
  (related pre s0) p1 p2 → agree (related pre s0) (nextToken p1) (nextToken p2).
Proof.
  intros (Hl & He & Hs & Hd & Hg & Hc & Hp). unfold nextToken.
  eapply agree_bind; [by apply getToken_shifted|].
  intros [t1 l1] [t2 l2] [Ht Hl']. simpl in *. subst.
  repeat split; simpl; congruence.
Qed.

Lemma match_related k p1 p2 :
  (related pre s0) p1 p2 → agree (related pre s0) (match_ k p1) (match_ k p2).
Proof.
  intros H. unfold match_.
  rewrite (related_checkToken _ _ H), (related_curToken _ _ H).
  destruct (negb _); [reflexivity|by apply nextToken_related].
Qed.

Ltac rel_norm H :=
  repeat first
    [ rewrite curToken_emit | rewrite curToken_emitLine
    | rewrite curToken_declare
    | rewrite (related_checkToken _ _ H)
    | rewrite (related_isComparisonOperator _ _ H)
    | rewrite (related_curToken _ _ H)
    | rewrite (related_symbols _ _ H)
    | rewrite (related_labelsDeclared _ _ H)
    | rewrite (related_labelsGotoed _ _ H) ].

Ltac rel_solve :=
  repeat first
    [ assumption | apply related_emit | apply related_emitLine
    | apply related_headerLine | apply related_add_labelDeclared
    | apply related_add_labelGotoed | apply related_declare ].

Ltac rel_step lemmas :=
  match goal with
  | |- agree _ (if ?c then _ else _) (if ?c then _ else _) => destruct c
  | |- agree _ (Exit _) (Exit _) => reflexivity
  | |- agree _ (Parse.abort _) (Parse.abort _) => reflexivity
  | |- agree _ (Ok _) (Ok _) => apply agree_Ok; by rel_solve
  | |- agree _ (nextToken _) (nextToken _) =>
      apply nextToken_related; by rel_solve
  | |- agree _ (match_ _ _) (match_ _ _) => apply match_related; by rel_solve
  | |- agree _ (while_ _ _ _ _) (while_ _ _ _ _) =>
      apply agree_while;
      [ let H := fresh "HR" in intros ? ? H; rel_norm H; reflexivity
      | let H := fresh "HR" in intros ? ? H; rel_norm H
      | by rel_solve ]
  | |- agree _ (_ ≫= _) (_ ≫= _) =>
      apply (agree_bind (related pre s0) (related pre s0));
      [|let H := fresh "HR" in intros ? ? H; rel_norm H]
  | |- _ => lemmas
  end.

Lemma nl_related fuel p1 p2 :
  (related pre s0) p1 p2 → agree (related pre s0) (nl fuel p1) (nl fuel p2).
Proof. intros H. unfold nl. repeat rel_step fail. Qed.

Lemma primary_related p1 p2 :
  (related pre s0) p1 p2 → agree (related pre s0) (primary p1) (primary p2).
Proof. intros H. unfold primary. rel_norm H. repeat rel_step fail. Qed.

Lemma unary_related p1 p2 :
  (related pre s0) p1 p2 → agree (related pre s0) (unary p1) (unary p2).
Proof.
  intros H. unfold unary. rel_norm H.
  repeat rel_step ltac:(by apply primary_related).
Qed.

Lemma term_related fuel p1 p2 :
  (related pre s0) p1 p2 → agree (related pre s0) (term fuel p1) (term fuel p2).
Proof.
  intros H. unfold term. repeat rel_step ltac:(by apply unary_related).
Qed.

Lemma expression_related fuel p1 p2 :
  (related pre s0) p1 p2 → agree (related pre s0) (expression fuel p1) (expression fuel p2).
Proof.
  intros H. unfold expression. repeat rel_step ltac:(by apply term_related).
Qed.

Lemma comparison_related fuel p1 p2 :
  (related pre s0) p1 p2 → agree (related pre s0) (comparison fuel p1) (comparison fuel p2).
Proof.
  intros H. unfold comparison.
  repeat rel_step ltac:(by apply expression_related).
Qed.

Lemma statement_related fuel p1 p2 :
  (related pre s0) p1 p2 → agree (related pre s0) (statement fuel p1) (statement fuel p2).
Proof.
  revert p1 p2. induction fuel as [|fuel IH]; intros p1 p2 H; [done|].
  cbn [statement]. rel_norm H.
  repeat rel_step
    ltac:(first [ by apply nl_related
                | apply expression_related; by rel_solve
                | apply comparison_related; by rel_solve
                | by apply IH ]).
Qed.

Lemma checkLabels_related p1 p2 :
  (related pre s0) p1 p2 → agree (related pre s0) (checkLabels p1) (checkLabels p2).
Proof.
  intros H. unfold checkLabels. rel_norm H.
  by destruct (find _ _).
Qed.

Lemma program_related fuel p1 p2 :
  (related pre s0) p1 p2 → agree (related pre s0) (program fuel p1) (program fuel p2).
Proof.
  intros H. unfold program.
  repeat rel_step
    ltac:(first [ by apply statement_related
                | apply checkLabels_related; by rel_solve ]).
Qed.

Lemma init_related l1 l2 e :
  shifted pre s0 l1 l2 → agree (related pre s0) (Parse.init l1 e) (Parse.init l2 e).
Proof.
  intros Hl. unfold Parse.init.
  eapply agree_bind; [by apply getToken_shifted|].
  intros [t1 a] [t1' b] [Ht Hab]. simpl in *. subst.
  eapply agree_bind; [by apply getToken_shifted|].
  intros [t2 a'] [t2' b'] [Ht Hab']. simpl in *. subst.
  by repeat split.
Qed.
End Related.

(** ** More fuel *)

Ltac mono_step lemmas :=
  match goal with
  | |- fuel_le ?r ?r => apply fuel_le_refl
  | |- fuel_le (if ?c then _ else _) (if ?c then _ else _) => destruct c
  | |- fuel_le (while_ _ _ _ _) (while_ _ _ _ _) =>
      apply fuel_le_while; [intros ?|lia]
  | |- fuel_le (_ ≫= _) (_ ≫= _) => apply fuel_le_bind; [|intros ?]
  | |- _ => lemmas
  end.

Lemma nl_mono fuel fuel' p :
  (fuel ≤ fuel')%nat → fuel_le (nl fuel p) (nl fuel' p).
Proof. intros. unfold nl. repeat mono_step fail. Qed.

Lemma term_mono fuel fuel' p :
  (fuel ≤ fuel')%nat → fuel_le (term fuel p) (term fuel' p).
Proof. intros. unfold term. repeat mono_step fail. Qed.

Lemma expression_mono fuel fuel' p :
  (fuel ≤ fuel')%nat → fuel_le (expression fuel p) (expression fuel' p).
Proof.
  intros. unfold expression. repeat mono_step ltac:(by apply term_mono).
Qed.

Lemma comparison_mono fuel fuel' p :
  (fuel ≤ fuel')%nat → fuel_le (comparison fuel p) (comparison fuel' p).
Proof.
  intros. unfold comparison.
  repeat mono_step ltac:(by apply expression_mono).
Qed.

Lemma statement_mono fuel fuel' p :
  (fuel ≤ fuel')%nat → fuel_le (statement fuel p) (statement fuel' p).
Proof.
  revert fuel' p. induction fuel as [|fuel IH]; intros fuel' p Hle;
    [by left|].
  destruct fuel' as [|fuel']; [lia|]. assert (fuel ≤ fuel')%nat by lia.
  cbn [statement].
  repeat mono_step
    ltac:(first [ by apply nl_mono | by apply expression_mono
                | by apply comparison_mono | by apply IH ]).
Qed.

(** ** Leading blank lines *)

Lemma agree_eq {A} (r1 r2 : Result A) : agree eq r1 r2 → r1 = r2.
Proof. destruct r1, r2; simpl; intros; by subst. Qed.

Lemma getToken_newline l :
  wf l → curChar l = "010"%char →
  getToken l = Ok (mkToken (str1 "010") NEWLINE, nextChar l).
Proof.
  intros Hwf Hc. pose proof Hwf as ((s & Hs) & Hpos & Hch).
  rewrite (wf_lexerAt l Hwf) at 1. rewrite Hs.
  destruct (getToken_decomp s (curPos l) Hpos) as (i2 & _ & -> & Hsame & _).
  rewrite Hs, Hc in Hch. rewrite <- Hch in Hsame.
  rewrite (Hsame eq_refl ltac:(done)).
  rewrite <- Hs, <- (wf_lexerAt l Hwf). unfold classify. by rewrite Hc.
Qed.

Lemma nextToken_headerLine c p :
  nextToken (headerLine c p) = (q ← nextToken p; Ok (headerLine c q)).
Proof. unfold nextToken. simpl. by destruct (getToken (lexer p)) as [[]| |]. Qed.

(** With a newline as current token, [program] consumes it in its first
    loop and goes on as it does from the next token. *)
Lemma program_skip_newline fuel p :
  kind (curToken p) = NEWLINE →
  fuel_le (q ← nextToken p; program fuel q) (program (S fuel) p).
Proof.
  intros Hk. unfold program. cbn [while_].
  replace (checkToken _ NEWLINE) with true
    by (symmetry; by apply checkToken_true).
  rewrite !nextToken_headerLine.
  destruct (nextToken p) as [q| |]; [|by right..].
  cbn [mbind Result_bind].
  repeat mono_step fail.
  apply (fuel_le_while (fun p => negb (checkToken p EOF))
           (statement fuel) (statement (S fuel)) fuel (S fuel) a);
    [intros; apply statement_mono; lia|lia].
Qed.

(** One blank line in front of the source costs one more test of the loop
    over the leading newlines, and changes nothing else. *)
Lemma one_blank_line fuel src r :
  translate fuel src = r → r ≠ OutOfFuel →
  translate (S fuel) (String "010" src) = r.
Proof.
  intros Hr Hne.
  set (l1 := lexerAt (String "010" src +:+ str1 "010") 1).
  assert (getToken (Lex.init (String "010" src))
          = Ok (mkToken (str1 "010") NEWLINE, l1)) as Hfirst.
  { rewrite getToken_newline; [|apply wf_init|by rewrite init_lexerAt].
    by rewrite init_lexerAt, nextChar_lexerAt. }
  assert (shifted (str1 "010") src l1 (Lex.init src)) as Hsh.
  { exists 0. split; [done|]. split; [done|]. by rewrite init_lexerAt. }
  assert ((p ← Parse.init l1 []; p ← program fuel p; Ok (emitter p)) = r)
    as Hrun.
  { rewrite <- Hr. apply agree_eq. unfold translate.
    eapply agree_bind; [by apply init_related|]. intros p1 p2 Hp.
    eapply agree_bind; [by apply program_related|]. intros q1 q2 Hq.
    apply Hq. }
  clear Hr Hsh. unfold translate, Parse.init in *. rewrite Hfirst.
  cbv beta iota delta [mbind Result_bind] in Hrun |- *.
  destruct (getToken l1) as [[t2 l2]| |]; [|done..].
  pose proof (program_skip_newline fuel
                (mkParser l2 [] ∅ ∅ ∅ (mkToken (str1 "010") NEWLINE) t2)
                eq_refl) as Hle.
  unfold nextToken in Hle. cbn [lexer emitter symbols labelsDeclared
    labelsGotoed curToken peekToken] in Hle.
  cbv beta iota delta [mbind Result_bind] in Hle.
  destruct (getToken l2) as [[t3 l3]| |].
  - destruct Hle as [Hout| <-]; [by rewrite Hout in Hrun; subst r|done].
  - by destruct Hle as [Hout| <-].
  - by subst r.
Qed.

(** ** Termination *)

(** A token that [getToken] delivers with the cursor behind the buffer is
    the end-of-input token, and the cursor leaves the buffer by one
    position at most. *)
Lemma getToken_bound l :
  wf l →
  outcome
    (fun r => wf r.2 ∧ source r.2 = source l ∧ curPos l < curPos r.2
              ∧ (len (source l) < curPos r.2 → kind r.1 = EOF)
              ∧ (curPos l ≤ len (source l)
                 → curPos r.2 ≤ len (source l) + 1))
    is_lex_error False (getToken l).
Proof.
  intros Hwf. rewrite (wf_lexerAt l Hwf).
  destruct Hwf as ((s & Hs) & Hpos & _). rewrite Hs.
  eapply outcome_impl; [by apply getToken_spec| |done..].
  intros [t l'] (i2 & j & Hl' & Hj & Heof & _ & Hin & Hstay & Hbuf).
  simpl in *. subst l'.
  split; [apply lexerAt_wf; lia|]. split; [done|]. simpl.
  split; [lia|].
  destruct (decide (charAt (s +:+ str1 "010") i2 = "000"%char)) as [Hz|Hnz].
  - split; [intros _; by apply Heof|].
    intros Hle. specialize (Hin Hle). specialize (Hstay Hz). lia.
  - specialize (Hbuf Hnz). split; lia.
Qed.

Lemma lexer_declare p : lexer (declare p) = lexer p.
Proof. unfold declare. by destruct (negb _). Qed.

Lemma peekToken_declare p : peekToken (declare p) = peekToken p.
Proof. unfold declare. by destruct (negb _). Qed.

Section Totality.
Variable L : Z.

Lemma settled_declare p : settled L p → settled L (declare p).
Proof.
  unfold settled. by rewrite lexer_declare, peekToken_declare, curToken_declare.
Qed.

Lemma budget_declare p : budget L (declare p) = budget L p.
Proof. unfold budget. by rewrite lexer_declare. Qed.

Lemma below_bind b (m : Result Parser) (f : Parser → Result Parser) :
  below L b m →
  (∀ q, settled L q → (budget L q < b)%nat → below L b (f q)) →
  below L b (m ≫= f).
Proof. destruct m; simpl; [intros [] ?; auto|done..]. Qed.

Lemma below_mono b b' r : below L b r → (b ≤ b')%nat → below L b' r.
Proof.
  intros H Hle. eapply outcome_impl; [exact H| |done..].
  simpl. intros q [? ?]. split; [done|lia].
Qed.

(** Reading a token when the current one is not the end-of-input token
    uses up a position. *)
Lemma nextToken_below b p :
  settled L p → kind (curToken p) ≠ EOF → (budget L p ≤ b)%nat →
  below L b (nextToken p).
Proof.
  intros (Hwf & HL & Hpeek & Hcur) Hk Hb. unfold nextToken, below.
  pose proof (getToken_bound _ Hwf) as Hg.
  destruct (getToken (lexer p)) as [[t l]| |]; simpl in *; [|done..].
  destruct Hg as (Hwf' & Hsrc & Hlt & Heof & Hin).
  rewrite HL in *.
  assert (curPos (lexer p) ≤ L + 1).
  { destruct (Z.le_gt_cases (curPos (lexer p)) (L + 1)); [done|].
    exfalso. apply Hk, Hcur. lia. }
  split.
  - split; [done|]. split; [simpl; by rewrite Hsrc|]. split; [done|].
    simpl. intros Hgt. apply Hpeek.
    destruct (Z.le_gt_cases (curPos (lexer p)) L); [|lia].
    specialize (Hin ltac:(done)). lia.
  - unfold budget in *. simpl. lia.
Qed.

Lemma match_below b k p :
  settled L p → k ≠ EOF → (budget L p ≤ b)%nat → below L b (match_ k p).
Proof.
  intros Hs Hk Hb. unfold match_.
  destruct (checkToken p k) eqn:Hc; simpl; [|done].
  apply nextToken_below; [done| |done].
  apply checkToken_true in Hc. congruence.
Qed.

(** A loop whose body uses up a position ends within the positions that
    are left. *)
Lemma below_while b fuel (cond : Parser → bool)
    (body : Parser → Result Parser) p :
  (∀ q, settled L q → (budget L q < b)%nat → cond q = true →
     below L (budget L q) (body q)) →
  settled L p → (budget L p < b)%nat → (b ≤ fuel)%nat →
  below L b (while_ fuel cond body p).
Proof.
  intros Hbody Hs Hb Hf.
  eapply outcome_impl;
    [apply (while_rule cond body
              (fun q => settled L q ∧ (budget L q < b)%nat)
              (fun _ => True) (budget L))| |done..].
  - intros q [Hq Hlt] Hc.
    eapply outcome_impl; [by apply Hbody| |done..].
    simpl. intros q' [? ?]. split; [split; [done|lia]|done].
  - done.
  - lia.
  - by intros q [? _].
Qed.

Ltac cur_not_eof :=
  cbn [curToken emit emitLine headerLine add_symbol add_labelDeclared
       add_labelGotoed];
  rewrite ?curToken_declare;
  match goal with
  | H : checkToken ?p _ = true |- kind (curToken ?p) ≠ EOF =>
      apply checkToken_true in H; rewrite H; discriminate
  | H : isComparisonOperator ?p = true |- kind (curToken ?p) ≠ EOF =>
      unfold isComparisonOperator in H;
      repeat (apply orb_true_iff in H as [H|H]);
      apply checkToken_true in H; rewrite H; discriminate
  | H : (_ || _) = true |- kind (curToken ?p) ≠ EOF =>
      repeat (apply orb_true_iff in H as [H|H]);
      apply checkToken_true in H; rewrite H; discriminate
  end.

Ltac is_settled :=
  first [ assumption
        | apply settled_declare; assumption
        | match goal with H : settled _ ?q |- _ => exact H end
        | match goal with
          | H : settled _ ?q |- _ => exact (settled_declare q H)
          end ].

Ltac positions :=
  unfold budget in *;
  cbn [lexer emit emitLine headerLine add_symbol add_labelDeclared
       add_labelGotoed] in *;
  rewrite ?lexer_declare; lia.

Ltac below_step lemmas :=
  match goal with
  | |- below _ _ (Exit _) => exact I
  | |- below _ _ (Parse.abort _) => exact I
  | |- below _ _ (Ok _) => split; [is_settled|positions]
  | |- below _ _ (_ ≫= _) => apply below_bind; [|intros ? ? ?]
  | |- below _ _ (if ?c then _ else _) =>
      let H := fresh "Hc" in destruct c eqn:H
  | |- below _ _ (nextToken _) =>
      apply nextToken_below; [is_settled|cur_not_eof|positions]
  | |- below _ _ (match_ _ _) =>
      apply match_below; [is_settled|discriminate|positions]
  | |- below _ _ (while_ _ _ _ _) =>
      apply below_while; [intros ? ? ? ?|is_settled|positions|positions]
  | |- _ => lemmas
  end.

Lemma primary_below b p :
  settled L p → (budget L p ≤ b)%nat → below L b (primary p).
Proof. intros. unfold primary. repeat below_step fail. Qed.

Lemma unary_below b p :
  settled L p → (budget L p ≤ b)%nat → below L b (unary p).
Proof.
  intros. unfold unary.
  destruct (checkToken p PLUS || checkToken p MINUS) eqn:Hc.
  - repeat below_step ltac:(apply primary_below; [is_settled|positions]).
  - by apply primary_below.
Qed.

Lemma term_below b fuel p :
  settled L p → (budget L p ≤ b)%nat → (b ≤ fuel)%nat →
  below L b (term fuel p).
Proof.
  intros. unfold term.
  repeat below_step ltac:(apply unary_below; [is_settled|positions]).
Qed.

Lemma expression_below b fuel p :
  settled L p → (budget L p ≤ b)%nat → (b ≤ fuel)%nat →
  below L b (expression fuel p).
Proof.
  intros. unfold expression.
  repeat below_step
    ltac:(apply term_below; [is_settled|positions|positions]).
Qed.

Lemma comparison_below b fuel p :
  settled L p → (budget L p ≤ b)%nat → (b ≤ fuel)%nat →
  below L b (comparison fuel p).
Proof.
  intros. unfold comparison.
  repeat below_step
    ltac:(apply expression_below; [is_settled|positions|positions]).
Qed.

Lemma nl_below b fuel p :
  settled L p → (budget L p ≤ b)%nat → (b ≤ fuel)%nat →
  below L b (nl fuel p).
Proof. intros. unfold nl. repeat below_step fail. Qed.

(** A statement uses up a position, and so does each statement of its
    body: [fuel] above the positions that are left is enough for the loops
    and for the nesting. *)
Lemma statement_below fuel : ∀ b p,
  settled L p → (budget L p ≤ b)%nat → (b < fuel)%nat →
  below L b (statement fuel p).
Proof.
  induction fuel as [|fuel IH]; intros b p Hs Hb Hf; [lia|].
  cbn [statement].
  repeat below_step
    ltac:(first [ apply nl_below; [is_settled|positions|positions]
                | apply expression_below; [is_settled|positions|positions]
                | apply comparison_below; [is_settled|positions|positions]
                | apply IH; [is_settled|positions|positions] ]).
Qed.

End Totality.

Lemma checkLabels_below L b p :
  settled L p → (budget L p < b)%nat → below L b (checkLabels p).
Proof. intros. unfold checkLabels. by destruct (find _ _). Qed.

Lemma program_below L fuel p :
  settled L p → (budget L p < fuel)%nat → below L fuel (program fuel p).
Proof.
  intros Hs Hf. unfold program.
  apply below_bind.
  { apply below_while; [|done..].
    intros q Hq _ Hc. apply nextToken_below; [done| |done].
    apply checkToken_true in Hc. by rewrite Hc. }
  intros q Hq Hlt. apply below_bind.
  { apply below_while; [|done..].
    intros q' Hq' Hlt' _. apply statement_below; [done|done|lia]. }
  intros q' Hq' Hlt'. by apply checkLabels_below.
Qed.

(** The parser that [translate] starts from has both tokens read, so it has
    as many positions left as the source has characters, and one for the
    newline that the lexer appends. *)
Lemma init_settled src e :
  outcome
    (fun p => settled (len src + 1) p
              ∧ (budget (len src + 1) p ≤ String.length src + 1)%nat)
    is_lex_error False (Parse.init (Lex.init src) e).
Proof.
  unfold Parse.init.
  pose proof (getToken_bound _ (wf_init src)) as H1.
  destruct (getToken (Lex.init src)) as [[t1 l1]| |]; simpl in *; [|done..].
  destruct H1 as (Hwf1 & Hs1 & Hlt1 & Heof1 & Hin1).
  pose proof (getToken_bound _ Hwf1) as H2.
  destruct (getToken l1) as [[t2 l2]| |]; simpl in *; [|done..].
  destruct H2 as (Hwf2 & Hs2 & Hlt2 & Heof2 & Hin2).
  rewrite Hs1 in *. rewrite init_lexerAt in *. simpl in *.
  rewrite len_append in *. change (len (str1 "010")) with 1 in *.
  pose proof (len_nonneg src).
  split.
  - split; [done|]. split; [simpl; by rewrite Hs2, len_append|].
    simpl. split; [done|]. intros Hgt. apply Heof1.
    destruct (Z.le_gt_cases (curPos l1) (len src + 1)); [|done].
    specialize (Hin2 ltac:(done)). lia.
  - unfold budget, len in *. simpl. lia.
Qed.

(** [translate] ends on every source: with two units of fuel more than the
    source has characters it returns what the emitter has received, or it
    exits. *)
Lemma translate_total fuel src :
  (String.length src + 2 ≤ fuel)%nat → translate fuel src ≠ OutOfFuel.
Proof.
  intros Hf. unfold translate.
  pose proof (init_settled src []) as Hi.
  destruct (Parse.init (Lex.init src) []) as [p| |]; simpl in *; [|done..].
  destruct Hi as [Hs Hb].
  pose proof (program_below (len src + 1) fuel p Hs ltac:(lia)) as Hp.
  by destruct (program fuel p).
Qed.

Lemma program_mono fuel fuel' p :
  (fuel ≤ fuel')%nat → fuel_le (program fuel p) (program fuel' p).
Proof.
  intros. unfold program.
  repeat mono_step ltac:(by apply statement_mono).
Qed.

Lemma translate_mono fuel fuel' src :
  (fuel ≤ fuel')%nat → fuel_le (translate fuel src) (translate fuel' src).
Proof.
  intros. unfold translate.
  repeat mono_step ltac:(by apply program_mono).
Qed.

(** The result of [translate] does not depend on the fuel, once there is
    enough of it. *)
Lemma translate_fuel fuel fuel' src :
  (String.length src + 2 ≤ fuel)%nat → (String.length src + 2 ≤ fuel')%nat →
  translate fuel' src = translate fuel src.
Proof.
  intros Hf Hf'.
  pose proof (translate_total _ src (Nat.le_refl _)) as Ht.
  destruct (translate_mono _ fuel src Hf) as [?|<-]; [done|].
  by destruct (translate_mono _ fuel' src Hf') as [?|<-].
Qed.

Lemma length_blank n : String.length (blank n) = n.
Proof. induction n; simpl; congruence. Qed.

Lemma blank_lines_fuel n fuel src r :
  translate fuel src = r → r ≠ OutOfFuel →
  translate (n + fuel) (blank n +:+ src) = r.
Proof.
  intros Hr Hne. induction n as [|n IH]; [done|].
  by apply (one_blank_line (n + fuel) (blank n +:+ src)).
Qed.

(** C10 — A source that begins with blank lines is translated like the
    source without them.  With enough fuel for the source a run ends, with
    the emitter's contents when the source is accepted and with an exit
    message when it is not, and a run on the source behind [n] newline
    characters, with enough fuel for that text, ends with the same. *)
Theorem leading_blank_lines n fuel fuel' src :
  (String.length src + 2 ≤ fuel)%nat →
  (n + String.length src + 2 ≤ fuel')%nat →
  translate fuel src ≠ OutOfFuel
  ∧ translate fuel' (blank n +:+ src) = translate fuel src.
Proof.
  intros Hf Hf'. pose proof (translate_total fuel src Hf) as Ht.
  split; [done|].
  rewrite <- (blank_lines_fuel n fuel src _ eq_refl Ht).
  apply translate_fuel; rewrite length_append, length_blank; lia.
Qed.

Lemma print_x_output :
  translate 50 ("LET x = 1" +:+ newline +:+ "PRINT x")
  = Ok [ HeaderLine "#include <stdio.h>"; HeaderLine "int main(void){";
         HeaderLine "float x;"; Emit "x = "; Emit "1"; EmitLine ";";
         Emit ("printf(" +:+ quote +:+ "%.2f\n" +:+ quote +:+ ", (float)(");
         Emit "x"; EmitLine "));"; EmitLine "return 0;"; EmitLine "}" ].
Proof. vm_compute. reflexivity. Qed.

Lemma leading_blank_lines_witness :
  translate 50 ("LET x = 1" +:+ newline +:+ "PRINT x") ≠ OutOfFuel
  ∧ translate 53 (blank 3 +:+ "LET x = 1" +:+ newline +:+ "PRINT x")
    = translate 50 ("LET x = 1" +:+ newline +:+ "PRINT x").
Proof.
  apply (leading_blank_lines 3 50 53 ("LET x = 1" +:+ newline +:+ "PRINT x"));
    vm_compute; lia.
Defined.

(** ** Programs with a dangling [GOTO] *)


Lemma getTokens_cons n l t ts l' :
  getTokens (S n) l = Ok (t :: ts, l') →
  ∃ l0, getToken l = Ok (t, l0) ∧ getTokens n l0 = Ok (ts, l').
Proof.
  rewrite getTokens_S. intros H.
  apply bind_Ok in H as ([t0 l0] & H0 & H). simpl in H.
  apply bind_Ok in H as ([ts0 l1] & H1 & H). simpl in H. simplify_eq.
  by exists l0.
Qed.

(** The tokens before the first end-of-input token are the same however
    many tokens are requested. *)
Lemma tokens_unique ts : ∀ ts' l e x l1 e' x' l1',
  getTokens (length ts + 2) l = Ok (ts ++ [e; x], l1) →
  getTokens (length ts' + 2) l = Ok (ts' ++ [e'; x'], l1') →
  kind e = EOF → kind e' = EOF →
  Forall (fun t => kind t ≠ EOF) ts → Forall (fun t => kind t ≠ EOF) ts' →
  ts = ts'.
Proof.
  induction ts as [|t ts IH]; intros [|t' ts'] l e x l1 e' x' l1'
    H H' He He' Hall Hall'; [done|..];
    cbn [length Nat.add app] in H, H'.
  - apply getTokens_cons in H as (l0 & H0 & _).
    apply getTokens_cons in H' as (l0' & H0' & _).
    rewrite H0 in H0'. simplify_eq. by apply Forall_cons in Hall' as [? _].
  - apply getTokens_cons in H as (l0 & H0 & _).
    apply getTokens_cons in H' as (l0' & H0' & _).
    rewrite H0 in H0'. simplify_eq. by apply Forall_cons in Hall as [? _].
  - apply getTokens_cons in H as (l0 & H0 & H).
    apply getTokens_cons in H' as (l0' & H0' & H').
    rewrite H0 in H0'. simplify_eq.
    apply Forall_cons in Hall as [_ Hall].
    apply Forall_cons in Hall' as [_ Hall'].
    f_equal. by apply (IH ts' l0' e x l1 e' x' l1').
Qed.

(** ** The label sets hold what the tokens say, and no more *)

Lemma pair_snoc_split {A} (ts a b : list A) t d n :
  ts ++ [t] = a ++ d :: n :: b →
  (b = [] ∧ n = t ∧ ts = a ++ [d])
  ∨ (∃ b', b = b' ++ [t] ∧ ts = a ++ d :: n :: b').
Proof.
  intros H. apply snoc_split in H as [(Habs & _)|(after' & Heq & ->)];
    [discriminate Habs|].
  destruct after' as [|n' r]; simpl in Heq.
  - injection Heq as -> ->. by left.
  - injection Heq as -> ->. right. eauto.
Qed.

Lemma gotoed_app ts ts' x : gotoed ts x → gotoed (ts ++ ts') x.
Proof.
  intros (a & g & n & b & -> & H). exists a, g, n, (b ++ ts').
  by rewrite <- app_assoc.
Qed.

(** One more consumed token that is neither the end of input nor the
    keyword [LABEL]. *)
Lemma Exact_snoc ts D G t :
  Exact ts D G → kind t ≠ EOF → kind t ≠ LABEL → Exact (ts ++ [t]) D G.
Proof.
  intros [Hne Hlast Hl Hg] Heof Hlabel. split.
  - apply Forall_app. split; [done|]. by constructor.
  - intros a u [_ <-]%app_inj_tail. done.
  - intros x (a & d & n & b & Heq & Hd & Hn & Hx).
    apply pair_snoc_split in Heq as [(-> & -> & Hts)|(b' & -> & Hts)].
    + by destruct (Hlast a d Hts).
    + apply Hl. by exists a, d, n, b'.
  - intros x Hx. by apply gotoed_app, Hg.
Qed.

(** A consumed [LABEL] and the identifier after it. *)
Lemma Exact_label ts D G d n :
  Exact ts D G → kind d = LABEL → kind n = IDENT →
  Exact (ts ++ [d; n]) ({[text n]} ∪ D) G.
Proof.
  intros [Hne Hlast Hl Hg] Hkd Hkn. split.
  - apply Forall_app. split; [done|]. repeat constructor; congruence.
  - intros a u Heq. change (ts ++ [d; n]) with (ts ++ [d] ++ [n]) in Heq.
    rewrite app_assoc in Heq. apply app_inj_tail in Heq as [_ <-]. congruence.
  - intros x (a & d' & n' & b & Heq & Hd & Hn & Hx).
    change (ts ++ [d; n]) with (ts ++ [d] ++ [n]) in Heq.
    rewrite app_assoc in Heq.
    apply pair_snoc_split in Heq as [(-> & -> & Hts)|(b' & -> & Hts)];
      [set_solver|].
    apply pair_snoc_split in Hts as [(-> & -> & Hts)|(b'' & -> & Hts)];
      [congruence|].
    apply elem_of_union_r, Hl. by exists a, d', n', b''.
  - intros x Hx. by apply gotoed_app, Hg.
Qed.

(** A consumed [GOTO] and the identifier after it. *)
Lemma Exact_goto ts D G g n :
  Exact ts D G → kind g = GOTO → kind n = IDENT →
  Exact (ts ++ [g; n]) D ({[text n]} ∪ G).
Proof.
  intros [Hne Hlast Hl Hg] Hkg Hkn. split.
  - apply Forall_app. split; [done|]. repeat constructor; congruence.
  - intros a u Heq. change (ts ++ [g; n]) with (ts ++ [g] ++ [n]) in Heq.
    rewrite app_assoc in Heq. apply app_inj_tail in Heq as [_ <-]. congruence.
  - intros x (a & d' & n' & b & Heq & Hd & Hn & Hx).
    change (ts ++ [g; n]) with (ts ++ [g] ++ [n]) in Heq.
    rewrite app_assoc in Heq.
    apply pair_snoc_split in Heq as [(-> & -> & Hts)|(b' & -> & Hts)].
    { apply app_inj_tail in Hts as [_ <-]. congruence. }
    apply pair_snoc_split in Hts as [(-> & -> & Hts)|(b'' & -> & Hts)];
      [congruence|].
    apply Hl. by exists a, d', n', b''.
  - intros x [->%elem_of_singleton|Hx]%elem_of_union.
    + by exists ts, g, n, [].
    + by apply gotoed_app, Hg.
Qed.

Lemma Tracked_step l0 p p' ts :
  At l0 ts p → nextToken p = Ok p' →
  Exact (ts ++ [curToken p]) (labelsDeclared p) (labelsGotoed p) →
  Tracked l0 p'.
Proof.
  intros Hat Hnext Hex. apply nextToken_Ok in Hnext as (t & l & Hget & ->).
  exists (ts ++ [curToken p]). split; [|done]. by eapply At_step.
Qed.

Lemma Tracked_next l0 p p' :
  Tracked l0 p → nextToken p = Ok p' →
  kind (curToken p) ≠ EOF → kind (curToken p) ≠ LABEL → Tracked l0 p'.
Proof.
  intros (ts & Hat & Hex) Hnext ? ?. eapply Tracked_step; [done..|].
  by apply Exact_snoc.
Qed.

Lemma Tracked_match l0 k p p' :
  Tracked l0 p → match_ k p = Ok p' → k ≠ EOF → k ≠ LABEL → Tracked l0 p'.
Proof. intros HT [<- Hnext]%match_Ok ? ?. by eapply Tracked_next. Qed.

(** The declaration of a variable leaves the label sets and the tokens. *)
Lemma Tracked_declare l0 p : Tracked l0 p → Tracked l0 (declare p).
Proof.
  intros (ts & Hat & Hex).
  destruct (declare_fields p) as ((Hl & Hc & Hp) & Hd & Hg).
  exists ts. unfold At. by rewrite Hl, Hc, Hp, Hd, Hg.
Qed.

Lemma nl_Tracked l0 fuel p p' :
  Tracked l0 p → nl fuel p = Ok p' → Tracked l0 p'.
Proof.
  intros HT H. unfold nl in H. apply bind_Ok in H as (p1 & H1 & H).
  apply (Tracked_match l0) in H1; [|done..].
  eapply (while_Ok _ _ (Tracked l0)); [|exact H1|exact H].
  intros s s' Hs Hc%checkToken_true Hn.
  eapply Tracked_next; [done..|congruence|congruence].
Qed.

Lemma primary_Tracked l0 p p' :
  Tracked l0 p → primary p = Ok p' → Tracked l0 p'.
Proof.
  intros HT H. unfold primary in H.
  destruct (checkToken p NUMBER) eqn:Hn.
  { apply checkToken_true in Hn.
    eapply (Tracked_next l0 (emit _ p)); [exact HT|exact H|simpl; congruence..]. }
  destruct (checkToken p IDENT) eqn:Hi; [|done].
  apply checkToken_true in Hi.
  destruct (bool_decide (text (curToken p) ∈ symbols p)); [|done].
  simpl in H.
  eapply (Tracked_next l0 (emit _ p)); [exact HT|exact H|simpl; congruence..].
Qed.

Lemma unary_Tracked l0 p p' :
  Tracked l0 p → unary p = Ok p' → Tracked l0 p'.
Proof.
  intros HT H. unfold unary in H. apply bind_Ok in H as (p1 & H1 & H).
  eapply primary_Tracked; [|exact H].
  destruct (checkToken p PLUS || checkToken p MINUS) eqn:Hc; [|by simplify_eq].
  apply orb_true_iff in Hc as [Hc|Hc]; apply checkToken_true in Hc;
    (eapply (Tracked_next l0 (emit _ p));
       [exact HT|exact H1|simpl; congruence..]).
Qed.

Lemma operator_loop_Tracked l0 (cond : Parser → bool)
    (operand : Parser → Result Parser) fuel p p' :
  (∀ q, cond q = true →
        kind (curToken q) ≠ EOF ∧ kind (curToken q) ≠ LABEL) →
  (∀ q q', Tracked l0 q → operand q = Ok q' → Tracked l0 q') →
  Tracked l0 p →
  while_ fuel cond
    (fun p => p ← nextToken (emit (text (curToken p)) p); operand p) p
  = Ok p' →
  Tracked l0 p'.
Proof.
  intros Hcond Hop HT H.
  eapply (while_Ok _ _ (Tracked l0)); [|exact HT|exact H].
  intros s s' Hs Hc Hb. apply bind_Ok in Hb as (s1 & H1 & Hb).
  destruct (Hcond s Hc) as (? & ?).
  eapply Hop; [|exact Hb].
  by eapply (Tracked_next l0 (emit _ s)); [exact Hs|..].
Qed.

Lemma term_Tracked l0 fuel p p' :
  Tracked l0 p → term fuel p = Ok p' → Tracked l0 p'.
Proof.
  intros HT H. unfold term in H. apply bind_Ok in H as (p1 & H1 & H).
  eapply operator_loop_Tracked; [| |by eapply unary_Tracked|exact H].
  - intros q [Hc|Hc]%orb_true_iff; apply checkToken_true in Hc;
      split; congruence.
  - intros q q'. apply unary_Tracked.
Qed.

Lemma expression_Tracked l0 fuel p p' :
  Tracked l0 p → expression fuel p = Ok p' → Tracked l0 p'.
Proof.
  intros HT H. unfold expression in H. apply bind_Ok in H as (p1 & H1 & H).
  eapply operator_loop_Tracked; [| |by eapply term_Tracked|exact H].
  - intros q [Hc|Hc]%orb_true_iff; apply checkToken_true in Hc;
      split; congruence.
  - intros q q'. apply term_Tracked.
Qed.

Lemma isComparisonOperator_no_label q :
  isComparisonOperator q = true →
  kind (curToken q) ≠ EOF ∧ kind (curToken q) ≠ LABEL.
Proof.
  unfold isComparisonOperator. rewrite !orb_true_iff, !checkToken_true.
  intros H. split; intros Heq; rewrite Heq in H;
    destruct H as [[[[[H|H]|H]|H]|H]|H]; discriminate H.
Qed.

Lemma comparison_Tracked l0 fuel p p' :
  Tracked l0 p → comparison fuel p = Ok p' → Tracked l0 p'.
Proof.
  intros HT H. unfold comparison in H. apply bind_Ok in H as (p1 & H1 & H).
  apply bind_Ok in H as (p2 & H2 & H).
  apply (expression_Tracked l0) in H1; [|done].
  eapply operator_loop_Tracked;
    [apply isComparisonOperator_no_label| |
     |exact H].
  - intros q q'. apply expression_Tracked.
  - destruct (isComparisonOperator p1) eqn:Hc; [|done].
    apply bind_Ok in H2 as (p3 & H3 & H2).
    destruct (isComparisonOperator_no_label _ Hc) as (? & ?).
    eapply expression_Tracked; [|exact H2].
    by eapply (Tracked_next l0 (emit _ p1)); [exact H1|..].
Qed.

(** A keyword and its name are consumed, by two calls of [nextToken]
    between which only the emitter and the sets change. *)
Lemma Tracked_name l0 ts p p1 q p2 :
  At l0 ts p → nextToken p = Ok p1 → same_tokens p1 q →
  nextToken q = Ok p2 →
  Exact (ts ++ [curToken p; curToken p1])
    (labelsDeclared q) (labelsGotoed q) →
  Tracked l0 p2.
Proof.
  intros Hat H1 (Hl & Hc & Hp) H2 Hex.
  apply nextToken_Ok in H1 as (t1 & l1 & Hget1 & ->). simpl in *.
  assert (At l0 (ts ++ [curToken p]) q) as Hq by (by eapply At_step).
  eapply Tracked_step; [exact Hq|exact H2|].
  rewrite Hc, <- app_assoc. done.
Qed.

Lemma statement_Tracked l0 fuel p p' :
  Tracked l0 p → statement fuel p = Ok p' → Tracked l0 p'.
Proof.
  revert p p'. induction fuel as [|fuel IH]; intros p p' HT H; [done|].
  simpl in H. apply bind_Ok in H as (pb & Hb & H).
  eapply nl_Tracked; [|exact H]. clear H p'.
  assert (∀ k q q', Tracked l0 q →
            while_ fuel (fun p => negb (checkToken p k)) (statement fuel) q
            = Ok q' → Tracked l0 q') as Hbody.
  { intros k q q' Hq Hw.
    eapply (while_Ok _ _ (Tracked l0)); [|exact Hq|exact Hw]. eauto. }
  destruct (checkToken p PRINT) eqn:HPRINT.
  { apply checkToken_true in HPRINT.
    apply bind_Ok in Hb as (p1 & H1 & Hb).
    apply (Tracked_next l0) in H1; [|done|congruence..].
    destruct (checkToken p1 STRING) eqn:HS.
    - apply checkToken_true in HS.
      eapply (Tracked_next l0 (emitLine _ p1));
        [exact H1|exact Hb|simpl; congruence..].
    - apply bind_Ok in Hb as (p2 & H2 & Hb). simplify_eq.
      exact (expression_Tracked l0 _ (emit _ p1) _ H1 H2). }
  destruct (checkToken p IF) eqn:HIF.
  { apply checkToken_true in HIF.
    apply bind_Ok in Hb as (p1 & H1 & Hb).
    apply (Tracked_next l0) in H1; [|done|congruence..].
    apply bind_Ok in Hb as (p2 & H2 & Hb).
    apply (comparison_Tracked l0 _ (emit _ p1)) in H2; [|done].
    apply bind_Ok in Hb as (p3 & H3 & Hb).
    apply (Tracked_match l0) in H3; [|done..].
    apply bind_Ok in Hb as (p4 & H4 & Hb).
    apply (nl_Tracked l0) in H4; [|done].
    apply bind_Ok in Hb as (p5 & H5 & Hb).
    apply (Hbody _ (emitLine _ p4)) in H5; [|done].
    apply bind_Ok in Hb as (p6 & H6 & Hb).
    apply (Tracked_match l0) in H6; [|done..]. by simplify_eq. }
  destruct (checkToken p WHILE) eqn:HWHILE.
  { apply checkToken_true in HWHILE.
    apply bind_Ok in Hb as (p1 & H1 & Hb).
    apply (Tracked_next l0) in H1; [|done|congruence..].
    apply bind_Ok in Hb as (p2 & H2 & Hb).
    apply (comparison_Tracked l0 _ (emit _ p1)) in H2; [|done].
    apply bind_Ok in Hb as (p3 & H3 & Hb).
    apply (Tracked_match l0) in H3; [|done..].
    apply bind_Ok in Hb as (p4 & H4 & Hb).
    apply (nl_Tracked l0) in H4; [|done].
    apply bind_Ok in Hb as (p5 & H5 & Hb).
    apply (Hbody _ (emitLine _ p4)) in H5; [|done].
    apply bind_Ok in Hb as (p6 & H6 & Hb).
    apply (Tracked_match l0) in H6; [|done..]. by simplify_eq. }
  destruct (checkToken p LABEL) eqn:HLABEL.
  { destruct HT as (ts & Hat & Hex).
    apply checkToken_true in HLABEL.
    apply bind_Ok in Hb as (p1 & H1 & Hb).
    destruct (bool_decide (text (curToken p1) ∈ labelsDeclared p1)); [done|].
    apply match_Ok in Hb as [Hk Hb]. simpl in Hk.
    eapply (Tracked_name l0 ts p p1); [done|done| |exact Hb|]; [done|].
    simpl. destruct (nextToken_sets _ _ H1) as (_ & -> & -> & _).
    by apply Exact_label. }
  destruct (checkToken p GOTO) eqn:HGOTO.
  { destruct HT as (ts & Hat & Hex).
    apply checkToken_true in HGOTO.
    apply bind_Ok in Hb as (p1 & H1 & Hb).
    apply match_Ok in Hb as [Hk Hb]. simpl in Hk.
    eapply (Tracked_name l0 ts p p1); [done|done| |exact Hb|]; [done|].
    simpl. destruct (nextToken_sets _ _ H1) as (_ & -> & -> & _).
    by apply Exact_goto. }
  destruct (checkToken p LET) eqn:HLET.
  { apply checkToken_true in HLET.
    apply bind_Ok in Hb as (p1 & H1 & Hb).
    apply (Tracked_next l0) in H1; [|done|congruence..].
    apply bind_Ok in Hb as (p2 & H2 & Hb).
    apply (Tracked_match l0 _ (emit _ (declare p1))) in H2;
      [|by apply Tracked_declare|done..].
    apply bind_Ok in Hb as (p3 & H3 & Hb).
    apply (Tracked_match l0) in H3; [|done..].
    apply bind_Ok in Hb as (p4 & H4 & Hb).
    apply (expression_Tracked l0) in H4; [|done]. by simplify_eq. }
  destruct (checkToken p INPUT) eqn:HINPUT; [|done].
  apply checkToken_true in HINPUT.
  apply bind_Ok in Hb as (p1 & H1 & Hb).
  apply (Tracked_next l0) in H1; [|done|congruence..].
  eapply (Tracked_match l0); [|exact Hb|done..].
  by apply (Tracked_declare l0 p1).
Qed.

Lemma init_Tracked l0 e p : Parse.init l0 e = Ok p → Tracked l0 p.
Proof.
  unfold Parse.init. intros H.
  apply bind_Ok in H as ([t1 l1] & H1 & H). simpl in H.
  apply bind_Ok in H as ([t2 l2] & H2 & H). simpl in H. simplify_eq.
  exists []. split.
  - unfold At. simpl. rewrite H1. simpl. rewrite H2. done.
  - split; [constructor| | |set_solver].
    + intros a t Heq. by destruct a.
    + intros x (a & d & n & b & Heq & _). by destruct a.
Qed.

Lemma parsed_statements_Tracked l0 fuel p p' :
  Tracked l0 p → parsed_statements fuel p = Ok p' → Tracked l0 p'.
Proof.
  unfold parsed_statements. intros HT H.
  apply bind_Ok in H as (p1 & H1 & H).
  apply (while_Ok _ _ (Tracked l0)) in H1 as [H1 _]; [| |exact HT].
  2:{ intros s s' Hs Hc%checkToken_true Hn.
      eapply Tracked_next; [done..|congruence|congruence]. }
  apply (while_Ok _ _ (Tracked l0)) in H as [H Hc]; [done| |exact H1].
  intros s s' Hs _. by apply statement_Tracked.
Qed.

(** How a run exits: with an error of the scanner or of a statement, or
    with the message of the closing check, which then names a label that a
    [GOTO] of the source jumps to and that no [LABEL] of the source
    declares. *)
Lemma translate_Exit_tokens fuel src m ts eof next l :
  translate fuel src = Exit m →
  getTokens (length ts + 2) (Lex.init src) = Ok (ts ++ [eof; next], l) →
  kind eof = EOF → Forall (fun t => kind t ≠ EOF) ts →
  early_error m
  ∨ ∃ y, m = label_error y ∧ gotoed ts y ∧ ¬ label_declared ts y.
Proof.
  intros Hrun Hts Heof Hall. unfold translate in Hrun.
  apply bind_Exit in Hrun as [Hrun|(p & Hp & Hrun)].
  { left. unfold Parse.init in Hrun.
    apply bind_Exit in Hrun as [Hrun|([t1 l1] & _ & Hrun)].
    - by apply getToken_Exit, lex_error_early in Hrun.
    - simpl in Hrun. apply bind_Exit in Hrun as [Hrun|([t2 l2] & _ & Hrun)];
        [|done].
      by apply getToken_Exit, lex_error_early in Hrun. }
  apply bind_Exit in Hrun as [Hrun|(p' & _ & Hrun)]; [|done].
  rewrite program_eq in Hrun.
  apply bind_Exit in Hrun as [Hrun|(p2 & H2 & Hrun)].
  { left. by apply parsed_statements_Exit in Hrun. }
  right. apply checkLabels_Exit in Hrun as (y & -> & Hy & Hn).
  simpl in Hy, Hn. exists y. split; [done|].
  pose proof (init_Tracked _ _ _ Hp) as HT.
  destruct (parsed_statements_Tracked _ _ _ _ HT H2) as (ts' & Hat & Hex).
  assert (kind (curToken p2) = EOF) as Hcur.
  { unfold parsed_statements in H2. apply bind_Ok in H2 as (p1 & _ & H2).
    apply (while_Ok _ _ (fun _ => True)) in H2 as [_ Hc]; [|done..].
    by apply negb_false_iff, checkToken_true in Hc. }
  assert (ts' = ts) as ->.
  { apply (tokens_unique _ _ _ _ _ _ _ _ _ Hat Hts Hcur Heof); [|done].
    apply Hex. }
  split; [by apply Hex|]. intros Hd. apply Hn. by apply Hex.
Qed.

Lemma label_declared_has_label ts x :
  label_declared ts x → Exists (fun t => kind t = LABEL) ts.
Proof.
  intros (a & d & n & b & -> & Hd & _).
  apply Exists_app. right. by constructor.
Qed.

Lemma goto_twice_tokens :
  getTokens (length goto_a_goto_b + 2)
    (Lex.init ("GOTO a" +:+ newline +:+ "GOTO b"))
  = Ok (goto_a_goto_b ++ [EOF_token; EOF_token],
        mkLexer ("GOTO a" +:+ newline +:+ "GOTO b" +:+ newline) "000" 16).
Proof. vm_compute. reflexivity. Qed.

(** C2 — Claim as stated: a program with a [GOTO] whose label is never
    declared is rejected with an error that names that label.  The source
    [GOTO a], [GOTO b] has two such labels and its run exits with one
    message, which cannot name both. *)
Lemma dangling_goto_is_not_always_named :
  ¬ (∀ src ts eof next l before g n after,
       getTokens (length ts + 2) (Lex.init src) = Ok (ts ++ [eof; next], l) →
       kind eof = EOF → Forall (fun t => kind t ≠ EOF) ts →
       ts = before ++ g :: n :: after → kind g = GOTO →
       ¬ label_declared ts (text n) →
       translate 50 src = Exit (label_error (text n))).
Proof.
  intros H.
  assert (∀ x, ¬ label_declared goto_a_goto_b x) as Hno.
  { intros x Hx%label_declared_has_label. unfold goto_a_goto_b in Hx.
    repeat (apply Exists_cons in Hx as [Hx|Hx]; [discriminate Hx|]).
    by apply Exists_nil in Hx. }
  assert (Forall (fun t => kind t ≠ EOF) goto_a_goto_b) as Hall
    by (repeat constructor; discriminate).
  pose proof (H _ goto_a_goto_b _ _ _ [] (mkToken "GOTO" GOTO)
                (mkToken "a" IDENT) _ goto_twice_tokens eq_refl Hall eq_refl
                eq_refl (Hno _)) as Ha.
  pose proof (H _ goto_a_goto_b _ _ _
                [mkToken "GOTO" GOTO; mkToken "a" IDENT;
                 mkToken newline NEWLINE]
                (mkToken "GOTO" GOTO) (mkToken "b" IDENT) _
                goto_twice_tokens eq_refl Hall eq_refl eq_refl (Hno _)) as Hb.
  rewrite Ha in Hb. vm_compute in Hb. discriminate Hb.
Qed.

(** The same program stops at another error when it has one: here the
    undeclared variable of the second statement is reported, and the label
    is not. *)
Lemma dangling_goto_behind_another_error :
  translate 50 ("GOTO a" +:+ newline +:+ "PRINT x")
  = Exit "Error. Referencing variable before assignment: x".
Proof. vm_compute. reflexivity. Qed.

(** C2 — In every accepted program each [GOTO] is followed by a name that
    a [LABEL] statement of the program declares, and a program with a
    [GOTO] whose name no [LABEL] declares is rejected: the run, which ends
    when it has enough fuel for the source, ends with an exit.  The exit
    is an error of the scanner or of a statement, or the message of the
    closing check, which names a label that a [GOTO] of the program jumps
    to and that no [LABEL] of the program declares: that label when it is
    the only one, one of them when there are several.  When the statements have all been consumed and a
    name of [labelsGotoed] is missing from [labelsDeclared], [program]
    exits with the message that names such a label; [program] exits with
    this message only then, at the end of input, and no call of
    [statement] does. *)
Theorem dangling_goto_is_reported_at_the_end fuel :
  (∀ src out, translate fuel src = Ok out →
     ∃ ts eof next l,
       getTokens (length ts + 2) (Lex.init src) = Ok (ts ++ [eof; next], l)
       ∧ kind eof = EOF ∧ Forall (fun t => kind t ≠ EOF) ts
       ∧ gotos_labelled ts (label_declared ts))
  ∧ (∀ src ts eof next l before g n after,
       (String.length src + 2 ≤ fuel)%nat →
       getTokens (length ts + 2) (Lex.init src) = Ok (ts ++ [eof; next], l) →
       kind eof = EOF → Forall (fun t => kind t ≠ EOF) ts →
       ts = before ++ g :: n :: after → kind g = GOTO →
       ¬ label_declared ts (text n) →
       ∃ m, translate fuel src = Exit m
            ∧ (early_error m
               ∨ ∃ y, m = label_error y ∧ gotoed ts y
                      ∧ ¬ label_declared ts y))
  ∧ (∀ src ts eof next l x m,
       getTokens (length ts + 2) (Lex.init src) = Ok (ts ++ [eof; next], l) →
       kind eof = EOF → Forall (fun t => kind t ≠ EOF) ts →
       (∀ y, gotoed ts y → ¬ label_declared ts y → y = x) →
       translate fuel src = Exit m →
       early_error m ∨ m = label_error x)
  ∧ (∀ p p2 x, parsed_statements fuel p = Ok p2 →
       x ∈ labelsGotoed p2 → x ∉ labelsDeclared p2 →
       ∃ y, program fuel p = Exit (label_error y)
            ∧ y ∈ labelsGotoed p2 ∧ y ∉ labelsDeclared p2)
  ∧ (∀ p x, program fuel p = Exit (label_error x) →
       ∃ p2, parsed_statements fuel p = Ok p2 ∧ kind (curToken p2) = EOF
             ∧ x ∈ labelsGotoed p2 ∧ x ∉ labelsDeclared p2)
  ∧ (∀ p x, statement fuel p ≠ Exit (label_error x)).
Proof.
  assert (∀ src out, translate fuel src = Ok out →
     ∃ ts eof next l,
       getTokens (length ts + 2) (Lex.init src) = Ok (ts ++ [eof; next], l)
       ∧ kind eof = EOF ∧ Forall (fun t => kind t ≠ EOF) ts
       ∧ gotos_labelled ts (label_declared ts)) as Haccepted.
  { intros src out
      (ts & eof & next & l & S & D & G & Hts & Heof & Hinv & Hsub)
      %accepted_tokens.
    exists ts, eof, next, l. split; [done|]. split; [done|].
    split; [apply Hinv|].
    intros before g after Heq Hk.
    destruct (inv_gotos _ _ _ _ Hinv _ _ _ Heq Hk) as (n & after' & -> & ? & Hn).
    exists n, after'. split; [done|]. split; [done|].
    apply Hinv, Hsub, Hn. }
  split; [done|]. split; [|split; [|split; [|split]]].
  - intros src ts eof next l before g n after Hf Hts Heof Hall Heq Hg Hno.
    pose proof (translate_total fuel src Hf) as Htotal.
    destruct (translate fuel src) as [out|m|] eqn:Hrun; [| |done].
    2:{ exists m. split; [done|].
        by apply (translate_Exit_tokens fuel src m ts eof next l). }
    exfalso.
    destruct (Haccepted src out Hrun)
      as (ts' & eof' & next' & l' & Hts' & Heof' & Hall' & Hgoto).
    assert (ts' = ts) as ->
      by apply (tokens_unique _ _ _ _ _ _ _ _ _ Hts' Hts Heof' Heof Hall' Hall).
    destruct (Hgoto _ _ _ Heq Hg) as (n' & after' & [= <- <-] & _ & Hn).
    by apply Hno.
  - intros src ts eof next l x m Hts Heof Hall Honly Hrun.
    destruct (translate_Exit_tokens fuel src m ts eof next l Hrun Hts Heof
                Hall) as [Hearly|(y & -> & Hy & Hn)]; [by left|].
    right. f_equal. by apply Honly.
  - intros p p2 x H2 Hx Hn. rewrite program_eq, H2. simpl.
    by apply (checkLabels_dangling
                (emitLine "}" (emitLine "return 0;" p2)) x).
  - intros p x H. rewrite program_eq in H.
    apply bind_Exit in H as [H|(p2 & H2 & H)].
    { apply parsed_statements_Exit in H. by destruct (H x). }
    apply checkLabels_Exit in H as (y & Heq & Hy & Hn).
    apply (inj (String.app _)) in Heq as <-.
    exists p2. split; [done|]. split; [|done].
    unfold parsed_statements in H2. apply bind_Ok in H2 as (p1 & _ & H2).
    apply (while_Ok _ _ (fun _ => True)) in H2 as [_ Hc]; [|done..].
    by apply negb_false_iff, checkToken_true in Hc.
  - intros p x H. apply statement_Exit in H. by destruct (H x).
Qed.

Lemma goto_example_output :
  translate 50 ("GOTO a" +:+ newline +:+ "LABEL a")
  = Ok [ HeaderLine "#include <stdio.h>"; HeaderLine "int main(void){";
         EmitLine "goto a;"; EmitLine "a:";
         EmitLine "return 0;"; EmitLine "}" ].
Proof. vm_compute. reflexivity. Qed.

Lemma goto_alone_tokens :
  getTokens (length goto_a + 2) (Lex.init "GOTO a")
  = Ok (goto_a ++ [EOF_token; EOF_token],
        mkLexer ("GOTO a" +:+ newline) "000" 9).
Proof. vm_compute. reflexivity. Qed.

Lemma dangling_goto_is_reported_at_the_end_witness :
  (∃ ts eof next l,
     getTokens (length ts + 2) (Lex.init ("GOTO a" +:+ newline +:+ "LABEL a"))
     = Ok (ts ++ [eof; next], l)
     ∧ kind eof = EOF ∧ Forall (fun t => kind t ≠ EOF) ts
     ∧ gotos_labelled ts (label_declared ts))
  ∧ (∃ m, translate 50 "GOTO a" = Exit m
          ∧ (early_error m
             ∨ ∃ y, m = label_error y ∧ gotoed goto_a y
                    ∧ ¬ label_declared goto_a y))
  ∧ (∃ m, translate 50 "GOTO a" = Exit m
          ∧ (early_error m ∨ m = label_error "a")).
Proof.
  assert (¬ label_declared goto_a "a") as Hno.
  { intros (a & d & n & b & Heq & Hd & _).
    unfold goto_a in Heq.
    destruct a as [|? [|? [|? a]]]; simplify_eq/=. by destruct a. }
  assert (Forall (fun t => kind t ≠ EOF) goto_a) as Hall
    by (repeat constructor; discriminate).
  split; [|split].
  - apply (proj1 (dangling_goto_is_reported_at_the_end 50)
             ("GOTO a" +:+ newline +:+ "LABEL a") _ goto_example_output).
  - apply (proj1 (proj2 (dangling_goto_is_reported_at_the_end 50))
             "GOTO a" goto_a EOF_token EOF_token
             (mkLexer ("GOTO a" +:+ newline) "000" 9)
             [] (mkToken "GOTO" GOTO) (mkToken "a" IDENT)
             [mkToken newline NEWLINE]).
    + vm_compute. lia.
    + apply goto_alone_tokens.
    + reflexivity.
    + exact Hall.
    + reflexivity.
    + reflexivity.
    + exact Hno.
  - exists (label_error "a"). split; [vm_compute; reflexivity|].
    apply (proj1 (proj2 (proj2 (dangling_goto_is_reported_at_the_end 50)))
             "GOTO a" goto_a EOF_token EOF_token
             (mkLexer ("GOTO a" +:+ newline) "000" 9) "a"
             (label_error "a") goto_alone_tokens eq_refl Hall).
    + intros y (a & g & n & b & Heq & Hg & Hn & <-) _.
      unfold goto_a in Heq.
      destruct a as [|? [|? [|? a]]]; simplify_eq/=; [done|by destruct a].
    + vm_compute. reflexivity.
Defined.

(** ** What [INPUT] emits *)

Lemma nl_emitter fuel p p' : nl fuel p = Ok p' → emitter p' = emitter p.
Proof.
  unfold nl. intros H. apply bind_Ok in H as (p1 & H1 & H).
  apply match_Ok in H1 as [_ H1].
  destruct (nextToken_sets _ _ H1) as (_ & _ & _ & <- & _).
  apply (while_Ok _ _ (fun q => emitter q = emitter p1)) in H as [H _];
    [done| |done].
  intros s s' Hs _ Hn.
  destruct (nextToken_sets _ _ Hn) as (_ & _ & _ & -> & _). done.
Qed.

(** Every [INPUT x] statement that is accepted sends to the emitter the
    declaration of [x], when [x] is new, and the guarded read of [x]. *)
Lemma input_emits_guard fuel p p' :
  checkToken p INPUT = true → statement (S fuel) p = Ok p' →
  emitter p'
  = emitter p
    ++ (if bool_decide (text (peekToken p) ∈ symbols p) then []
        else [HeaderLine ("float " +:+ text (peekToken p) +:+ ";")])
    ++ input_guard (text (peekToken p)).
Proof.
  intros Hk H. apply checkToken_true in Hk.
  cbn [statement] in H. unfold checkToken in H. rewrite Hk in H.
  cbn [bool_decide decide_rel TokenType_eq_dec] in H. simpl in H.
  apply bind_Ok in H as (pb & Hb & H). apply nl_emitter in H. rewrite H.
  apply bind_Ok in Hb as (p1 & H1 & Hb).
  destruct (nextToken_sets _ _ H1) as (Hs & _ & _ & He & Hc).
  apply match_Ok in Hb as [_ Hb].
  destruct (nextToken_sets _ _ Hb) as (_ & _ & _ & -> & _).
  rewrite curToken_declare, Hc. simpl. unfold declare. rewrite Hc, Hs.
  destruct (bool_decide (text (peekToken p) ∈ symbols p)); simpl;
    rewrite He; by rewrite <- ?app_assoc.
Qed.

Lemma input_print_output :
  translate 50 ("INPUT x" +:+ newline +:+ "PRINT x")
  = Ok ([ HeaderLine "#include <stdio.h>"; HeaderLine "int main(void){";
          HeaderLine "float x;" ]
        ++ input_guard "x"
        ++ [ Emit ("printf(" +:+ quote +:+ "%.2f\n" +:+ quote
                   +:+ ", (float)(");
             Emit "x"; EmitLine "));"; EmitLine "return 0;"; EmitLine "}" ]).
Proof. vm_compute. reflexivity. Qed.

(** * Further properties of the scanner *)

Lemma slice_one s i :
  0 ≤ i → charAt s i ≠ "000"%char → slice s i (i + 1) = str1 (charAt s i).
Proof.
  intros Hi Hc. rewrite slice_cons by (done || lia).
  by rewrite slice_empty by lia.
Qed.

Lemma slice_two s i :
  0 ≤ i → charAt s i ≠ "000"%char → charAt s (i + 1) ≠ "000"%char →
  slice s i (i + 2) = str2 (charAt s i) (charAt s (i + 1)).
Proof.
  intros Hi Hc Hd. rewrite slice_cons by (done || lia).
  rewrite slice_cons by (done || lia).
  by rewrite slice_empty by lia.
Qed.

Section Lexemes.
Variable s0 : string.
Local Abbreviation src := (s0 +:+ str1 "010").

Lemma lexeme_one k (c : ascii) i :
  0 ≤ i → charAt src i = c → c ≠ "000"%char → spelling k = Some (str1 c) →
  (takes_equal c = true → charAt src (i + 1) ≠ "="%char) →
  lexeme src i (mkToken (str1 c) k) i.
Proof.
  intros Hi Hc Hn Hs Hnext.
  apply lexeme_symbol; [done| |unfold len; simpl; lia| |].
  - rewrite slice_one; [by rewrite Hc|done|by rewrite Hc].
  - apply charAt_not_nul. by rewrite Hc.
  - intros _. by rewrite Hc.
Qed.

Lemma lexeme_pair k (c : ascii) i :
  0 ≤ i → charAt src i = c → c ≠ "000"%char →
  charAt src (i + 1) = "="%char → spelling k = Some (str2 c "=") →
  lexeme src i (mkToken (str2 c "=") k) (i + 1).
Proof.
  intros Hi Hc Hn He Hs.
  apply lexeme_symbol; [done| |unfold len; simpl; lia| |lia].
  - replace (i + 1 + 1) with (i + 2) by lia.
    rewrite slice_two; [by rewrite Hc, He|done|by rewrite Hc|by rewrite He].
  - apply charAt_not_nul. by rewrite He.
Qed.

Lemma twoCharOr_lexeme two one (c : ascii) i t l' :
  0 ≤ i → charAt src i = c → c ≠ "000"%char → takes_equal c = true →
  spelling two = Some (str2 c "=") → spelling one = Some (str1 c) →
  twoCharOr (lexerAt src i) two one = (t, l') →
  ∃ j, l' = lexerAt src j ∧ lexeme src i t j.
Proof.
  intros Hi Hc Hn Ht H2 H1. unfold twoCharOr.
  destruct (peek (lexerAt src i) =? "=")%char eqn:Hp.
  - apply eqb_true in Hp. rewrite peek_lexerAt in Hp.
    rewrite nextChar_lexerAt. simpl. rewrite Hc, Hp. intros [= <- <-].
    exists (i + 1). split; [done|]. by apply lexeme_pair.
  - apply eqb_false in Hp. rewrite peek_lexerAt in Hp.
    simpl. rewrite Hc. intros [= <- <-].
    exists i. split; [done|]. by apply lexeme_one.
Qed.

(** What [classify] returns is the lexeme at the cursor. *)
Lemma classify_lexeme i t l' :
  0 ≤ i → classify (lexerAt src i) = Ok (t, l') →
  ∃ j, l' = lexerAt src j ∧ lexeme src i t j.
Proof.
  intros Hi. unfold classify. simpl curChar.
  assert (∀ k (c : ascii), charAt src i = c → c ≠ "000"%char →
          takes_equal c = false → spelling k = Some (str1 c) →
          Ok (mkToken (str1 (charAt src i)) k, lexerAt src i) = Ok (t, l') →
          ∃ j, l' = lexerAt src j ∧ lexeme src i t j) as Hone.
  { intros k c Hc Hn Ht Hs [= <- <-]. exists i. split; [done|].
    rewrite Hc. apply lexeme_one; [done..|]. by rewrite Ht. }
  assert (∀ two one (c : ascii), charAt src i = c → c ≠ "000"%char →
          takes_equal c = true →
          spelling two = Some (str2 c "=") → spelling one = Some (str1 c) →
          Ok (twoCharOr (lexerAt src i) two one) = Ok (t, l') →
          ∃ j, l' = lexerAt src j ∧ lexeme src i t j) as Htwo.
  { intros two one c Hc Hn Ht H2 H1 [= H].
    by apply (twoCharOr_lexeme two one c). }
  destruct (charAt src i =? "+")%char eqn:E1;
    [apply eqb_true in E1; by apply (Hone _ "+"%char)|].
  destruct (charAt src i =? "-")%char eqn:E2;
    [apply eqb_true in E2; by apply (Hone _ "-"%char)|].
  destruct (charAt src i =? "*")%char eqn:E3;
    [apply eqb_true in E3; by apply (Hone _ "*"%char)|].
  destruct (charAt src i =? "/")%char eqn:E4;
    [apply eqb_true in E4; by apply (Hone _ "/"%char)|].
  destruct (charAt src i =? "010")%char eqn:E5;
    [apply eqb_true in E5; by apply (Hone _ "010"%char)|].
  destruct (charAt src i =? "=")%char eqn:E6;
    [apply eqb_true in E6; by apply (Htwo _ _ "="%char)|].
  destruct (charAt src i =? ">")%char eqn:E7;
    [apply eqb_true in E7; by apply (Htwo _ _ ">"%char)|].
  destruct (charAt src i =? "<")%char eqn:E8;
    [apply eqb_true in E8; by apply (Htwo _ _ "<"%char)|].
  destruct (charAt src i =? "!")%char eqn:E9.
  { apply eqb_true in E9.
    destruct (peek (lexerAt src i) =? "=")%char eqn:Hp; [|done].
    apply eqb_true in Hp. rewrite peek_lexerAt in Hp.
    rewrite nextChar_lexerAt. simpl. rewrite E9, Hp. intros [= <- <-].
    exists (i + 1). split; [done|]. by apply lexeme_pair. }
  destruct (charAt src i =? "034")%char eqn:E10.
  { apply eqb_true in E10. rewrite nextChar_lexerAt.
    assert (i < len src) by (apply charAt_not_nul; by rewrite E10).
    assert (i ≠ len s0) by (intros ->; by rewrite charAt_newline in E10).
    pose proof (len_src s0).
    pose proof (scanString_spec s0 (i + 1) ltac:(lia)) as Hs.
    destruct (scanString (lexerAt src (i + 1))) as [l1| |]; simpl in *;
      [|done..].
    destruct Hs as (j & -> & Hj & Hq & Hall). intros [= <- <-].
    exists j. split; [done|].
    assert (j ≠ i + 1 ∨ j = i + 1) as _ by lia.
    apply lexeme_string; [done|lia|done|].
    intros k Hk. apply Hall. lia. }
  destruct (isdigit (charAt src i)) eqn:E11.
  { assert (charAt src i ≠ "000"%char) as Hnn
      by (by intros Heq; rewrite Heq in E11).
    destruct (scanWhilePeek_spec s0 isdigit i eq_refl Hi)
      as (j & -> & Hj & Hend & Hall).
    assert (j < len src) as Hjl
      by (by apply (scan_end_in_buffer s0 isdigit i j)).
    simpl. destruct (peek (lexerAt src j) =? ".")%char eqn:Hdot.
    - rewrite nextChar_lexerAt. rewrite peek_lexerAt in Hdot.
      apply eqb_true in Hdot.
      destruct (isdigit (peek (lexerAt src (j + 1)))) eqn:Hfrac; simpl;
        [|done].
      rewrite peek_lexerAt in Hfrac.
      destruct (scanWhilePeek_spec s0 isdigit (j + 1) eq_refl ltac:(lia))
        as (j' & -> & Hj' & Hend' & Hall').
      assert (j' < len src) as Hjl'.
      { apply (scan_end_in_buffer s0 isdigit (j + 1) j'); [done| |done..].
        by rewrite Hdot. }
      simpl. intros [= <- <-]. exists j'. split; [done|].
      apply lexeme_number; [done|lia| |done].
      intros k Hk. destruct (decide (k = i)) as [->|]; [by left|].
      destruct (decide (k ≤ j)); [left; apply Hall; lia|].
      destruct (decide (k = j + 1)) as [->|]; [by right|].
      left. apply Hall'. lia.
    - simpl. intros [= <- <-]. exists j. split; [done|].
      apply lexeme_number; [done|lia| |done].
      intros k Hk. destruct (decide (k = i)) as [->|]; [by left|].
      left. apply Hall. lia. }
  destruct (isalpha (charAt src i)) eqn:E12.
  { assert (charAt src i ≠ "000"%char) as Hnn
      by (by intros Heq; rewrite Heq in E12).
    destruct (scanWhilePeek_spec s0 isalnum i eq_refl Hi)
      as (j & -> & Hj & Hend & Hall).
    assert (j < len src) as Hjl
      by (by apply (scan_end_in_buffer s0 isalnum i j)).
    simpl. intros Hr. exists j.
    assert ((t, l') = (mkToken (slice src i (j + 1))
                         (word_kind (slice src i (j + 1))), lexerAt src j))
      as [= -> ->].
    { unfold word_kind. by destruct (checkIfKeyword _); simplify_eq. }
    split; [done|]. by apply lexeme_word. }
  destruct (charAt src i =? "000")%char eqn:E13; [|done].
  apply eqb_true in E13. rewrite E13. intros [= <- <-].
  exists i. split; [done|]. by apply lexeme_eof.
Qed.

(** [getToken] skips blanks and one comment, and returns the lexeme there,
    with the cursor behind it. *)
Lemma getToken_lexeme i t l' :
  0 ≤ i → getToken (lexerAt src i) = Ok (t, l') →
  ∃ i2 j, l' = lexerAt src (j + 1) ∧ skips src i i2 ∧ lexeme src i2 t j.
Proof.
  intros Hi. unfold getToken.
  destruct (skipWhitespace_spec s0 i Hi) as (i1 & -> & Hi1 & Hw & Hall).
  destruct (skipComment_spec s0 i1 ltac:(lia))
    as (i2 & Hc & Hi2 & Hsame & Hcomment).
  simpl. rewrite Hc. simpl. intros H.
  apply bind_Ok in H as ([t1 l1] & Hcl & H). simpl in H. simplify_eq.
  apply classify_lexeme in Hcl as (j & -> & Hlex); [|lia].
  exists i2, j. rewrite nextChar_lexerAt. split; [done|]. split; [|done].
  exists i1. split; [lia|]. do 3 (split; [done|]). done.
Qed.

End Lexemes.
Lemma wf_at l :
  wf l → ∃ s, source l = s +:+ str1 "010" ∧ 0 ≤ curPos l
              ∧ l = lexerAt (s +:+ str1 "010") (curPos l).
Proof.
  intros Hwf. pose proof (wf_lexerAt l Hwf) as Hl.
  destruct Hwf as ((s & Hs) & Hpos & _). exists s.
  split; [done|]. split; [done|]. by rewrite <- Hs.
Qed.

(** ** Keywords *)

Lemma checkIfKeyword_Some s k :
  checkIfKeyword s = Some k → s = name k ∧ is_keyword k = true.
Proof.
  unfold checkIfKeyword. intros H. apply find_some in H as [_ H].
  apply andb_true_iff in H as [H H2]. apply andb_true_iff in H as [H0 H1].
  apply String.eqb_eq in H0. split; [done|].
  unfold is_keyword. by rewrite H1, H2.
Qed.

Lemma checkIfKeyword_name k :
  is_keyword k = true → checkIfKeyword (name k) = Some k.
Proof. by destruct k. Qed.

Lemma word_kind_cases s :
  (word_kind s = IDENT ∧ checkIfKeyword s = None)
  ∨ (is_keyword (word_kind s) = true ∧ s = name (word_kind s)).
Proof.
  unfold word_kind. destruct (checkIfKeyword s) as [k|] eqn:Hk.
  - right. by apply checkIfKeyword_Some in Hk as [? ?].
  - by left.
Qed.

(** X1 — [checkIfKeyword] finds a member exactly for the names of the eleven
    keywords, spelled in upper case as the members are; the names of the
    other members ([EOF], [IDENT], [PLUS], ...) are no keywords. *)
Theorem keyword_lookup s :
  (∀ k, checkIfKeyword s = Some k ↔ s = name k ∧ is_keyword k = true)
  ∧ (checkIfKeyword s = None ↔ ∀ k, is_keyword k = true → s ≠ name k).
Proof.
  assert (∀ k, checkIfKeyword s = Some k ↔ s = name k ∧ is_keyword k = true)
    as Hsome.
  { intros k. split; [apply checkIfKeyword_Some|].
    intros [-> Hk]. by apply checkIfKeyword_name. }
  split; [done|]. split.
  - intros Hnone k Hk ->. rewrite checkIfKeyword_name in Hnone; done.
  - intros Hall. destruct (checkIfKeyword s) as [k|] eqn:Hk; [|done].
    apply checkIfKeyword_Some in Hk as [-> Hk]. by destruct (Hall k Hk).
Qed.

(** ** The text of a token *)

Lemma slice_cons_in s a b :
  0 ≤ a < b → a < len s →
  slice s a b = String (charAt s a) (slice s (a + 1) b).
Proof.
  intros Hab Hlen. unfold slice.
  replace (Z.to_nat (b - a)) with (S (Z.to_nat (b - (a + 1)))) by lia.
  destruct (get_lt s (Z.to_nat a)) as [c Hc]; [unfold len in Hlen; lia|].
  rewrite (substring_cons _ _ _ c Hc).
  replace (S (Z.to_nat a)) with (Z.to_nat (a + 1)) by lia.
  f_equal. unfold charAt, index.
  destruct (Z.leb_spec (len s) a); [lia|]. by rewrite Hc.
Qed.

Lemma slice_all_in (p : ascii → bool) s a b :
  0 ≤ a → b ≤ len s →
  (∀ k, a ≤ k < b → p (charAt s k) = true) →
  all_chars p (slice s a b) = true.
Proof.
  intros Ha Hb Hall.
  remember (Z.to_nat (b - a)) as n eqn:Hn. revert a Ha Hall Hn.
  induction n as [|n IH]; intros a Ha Hall Hn.
  - by rewrite slice_empty by lia.
  - rewrite slice_cons_in by lia. simpl.
    rewrite Hall by lia. simpl. apply IH; [lia| |lia].
    intros k Hk. apply Hall. lia.
Qed.

Lemma len_slice s a b : 0 ≤ a ≤ b → b ≤ len s → len (slice s a b) = b - a.
Proof.
  intros Hab Hb.
  remember (Z.to_nat (b - a)) as n eqn:Hn. revert a Hab Hn.
  induction n as [|n IH]; intros a Hab Hn.
  - rewrite slice_empty by lia. unfold len. simpl. lia.
  - rewrite slice_cons_in by lia.
    change (len (String ?c ?r)) with (Z.of_nat (S (String.length r))).
    specialize (IH (a + 1) ltac:(lia) ltac:(lia)). unfold len in *. lia.
Qed.

(** On ASCII characters the classes of Python are those of the letters and
    the decimal digits. *)
Lemma ascii_isalpha c : (code c <? 128)%nat = true → isalpha c = letter c.
Proof.
  destruct c as [[] [] [] [] [] [] [] []]; vm_compute;
    intros; (reflexivity || discriminate).
Qed.

Lemma ascii_isalnum c :
  (code c <? 128)%nat = true → isalnum c = letter_or_digit c.
Proof.
  destruct c as [[] [] [] [] [] [] [] []]; vm_compute;
    intros; (reflexivity || discriminate).
Qed.

Lemma all_chars_charAt (p : ascii → bool) s k :
  all_chars p s = true → 0 ≤ k < len s → p (charAt s k) = true.
Proof.
  revert k. induction s as [|c s IH]; intros k Hall Hk.
  - unfold len in Hk. simpl in Hk. lia.
  - simpl in Hall. apply andb_true_iff in Hall as [Hc Hall].
    destruct (decide (k = 0)) as [->|]; [by rewrite charAt_0|].
    change (String c s) with (str1 c +:+ s) in *.
    rewrite len_append in Hk. change (len (str1 c)) with 1 in Hk.
    replace k with (len (str1 c) + (k - 1)) by (unfold len; simpl; lia).
    rewrite charAt_append_r by lia. apply IH; [done|lia].
Qed.


Lemma all_chars_app (p : ascii → bool) a b :
  all_chars p (a +:+ b) = all_chars p a && all_chars p b.
Proof.
  induction a as [|c a IH]; [done|]. simpl. by rewrite IH, andb_assoc.
Qed.


Lemma spelling_word s k : spelling (word_kind s) = Some k → False.
Proof.
  destruct (word_kind_cases s) as [[-> _]|[Hk _]]; [done|].
  by destruct (word_kind s).
Qed.

(** X2 — An identifier token spells a character that [str.isalpha] accepts
    followed by characters that [str.isalnum] accepts, and is none of the
    keywords; on an ASCII source it spells a letter followed by letters and
    decimal digits.  A keyword token spells the name of its kind. *)
Theorem word_tokens l t l' :
  wf l → getToken l = Ok (t, l') →
  (kind t = IDENT →
   (∃ c r, text t = String c r ∧ isalpha c = true
           ∧ all_chars isalnum r = true
           ∧ (ascii_only (source l) = true →
              letter c = true ∧ all_chars letter_or_digit r = true))
   ∧ ∀ k, is_keyword k = true → text t ≠ name k)
  ∧ (is_keyword (kind t) = true → text t = name (kind t)).
Proof.
  intros (s & Hs & Hpos & ->)%wf_at Hget.
  apply getToken_lexeme in Hget as (i2 & j & -> & (i1 & Hi1 & _) & Hlex);
    [|done].
  destruct Hlex as [k sp j Hsp _ _ _ _| | |j Ha Hj Hall Hend|]; simpl.
  - split; [intros ->; done|]. intros Hk. by destruct k.
  - done.
  - done.
  - destruct (word_kind_cases (slice (s +:+ str1 "010") i2 (j + 1)))
      as [[Hk Hnone]|[Hk Hname]].
    + rewrite Hk. split; [|done]. intros _. split.
      * exists (charAt (s +:+ str1 "010") i2),
          (slice (s +:+ str1 "010") (i2 + 1) (j + 1)).
        split; [apply slice_cons_in; lia|]. split; [done|].
        split; [apply slice_all_in; [lia|lia|]; intros k Hk'; apply Hall; lia|].
        intros Hascii. split.
        -- rewrite <- ascii_isalpha; [done|].
           apply (all_chars_charAt _ _ _ Hascii). lia.
        -- apply slice_all_in; [lia|lia|]. intros k Hk'.
           rewrite <- ascii_isalnum; [apply Hall; lia|].
           apply (all_chars_charAt _ _ _ Hascii). lia.
      * intros k Hkw Heq. rewrite Heq, checkIfKeyword_name in Hnone; done.
    + split; [|done]. intros Hi. rewrite Hi in Hk. done.
  - done.
Qed.

Lemma word_tokens_witness :
  (kind (mkToken "x1" IDENT) = IDENT →
   (∃ c r, text (mkToken "x1" IDENT) = String c r ∧ isalpha c = true
           ∧ all_chars isalnum r = true
           ∧ (ascii_only (source (Lex.init "x1 = 2")) = true →
              letter c = true ∧ all_chars letter_or_digit r = true))
   ∧ ∀ k, is_keyword k = true → text (mkToken "x1" IDENT) ≠ name k)
  ∧ (is_keyword (kind (mkToken "x1" IDENT)) = true →
     text (mkToken "x1" IDENT) = name (kind (mkToken "x1" IDENT))).
Proof.
  apply (word_tokens (Lex.init "x1 = 2") (mkToken "x1" IDENT)
           (lexerAt ("x1 = 2" +:+ newline) 2)).
  - apply wf_init.
  - vm_compute. reflexivity.
Defined.

(** Beyond ASCII: [str.isalnum] holds of the fraction one quarter, U+00BC,
    which is neither a letter nor a digit, and the scanner takes it into
    an identifier. *)
Lemma fraction_in_an_identifier :
  getToken (Lex.init ("x" +:+ str1 "188"))
  = Ok (mkToken ("x" +:+ str1 "188") IDENT,
        lexerAt ("x" +:+ str1 "188" +:+ newline) 2)
  ∧ isalpha "188" = false ∧ isdigit "188" = false.
Proof. split; [vm_compute; reflexivity|done]. Qed.

(** X3 — A string token holds the characters between its quotes, none of
    which is a quote, a percent sign, a backslash, a tab, a carriage
    return or a newline. *)
Theorem string_tokens l t l' :
  wf l → getToken l = Ok (t, l') → kind t = STRING →
  all_chars plain (text t) = true.
Proof.
  intros (s & Hs & Hpos & ->)%wf_at Hget Hk.
  apply getToken_lexeme in Hget as (i2 & j & -> & (i1 & Hi1 & _) & Hlex);
    [|done].
  destruct Hlex as [k sp j Hsp _ _ _ _|j Hq Hj Hqj Hall| | |]; simpl in *;
    try done.
  - subst. done.
  - apply slice_all_in; [lia|lia|]. intros k' Hk'.
    destruct (Hall k' ltac:(lia)) as [Hnq Hill]. unfold plain.
    rewrite Hill. apply eqb_false in Hnq. by rewrite Hnq.
  - exfalso. destruct (word_kind_cases (slice (s +:+ str1 "010") i2 (j + 1)))
      as [[Hw _]|[Hw _]]; rewrite Hk in Hw; done.
Qed.

Lemma string_tokens_witness : all_chars plain (text (mkToken "HI" STRING)) = true.
Proof.
  apply (string_tokens (Lex.init (quote +:+ "HI" +:+ quote))
           (mkToken "HI" STRING)
           (lexerAt (quote +:+ "HI" +:+ quote +:+ newline) 4)).
  - apply wf_init.
  - vm_compute. reflexivity.
  - reflexivity.
Defined.

(** X4 — The text of a newline token and of an operator token is the spelling
    of its kind. *)
Theorem symbol_tokens l t l' s :
  wf l → getToken l = Ok (t, l') → spelling (kind t) = Some s → text t = s.
Proof.
  intros (s1 & Hs & Hpos & ->)%wf_at Hget Hsp.
  apply getToken_lexeme in Hget as (i2 & j & -> & _ & Hlex); [|done].
  destruct Hlex as [k sp j Hsp' _ _ _ _| | | |]; simpl in *; try done.
  - congruence.
  - by apply spelling_word in Hsp.
Qed.

Lemma symbol_tokens_witness : text (mkToken "<=" LTEQ) = "<=".
Proof.
  apply (symbol_tokens (Lex.init "<= 1") (mkToken "<=" LTEQ)
           (lexerAt ("<= 1" +:+ newline) 2)).
  - apply wf_init.
  - vm_compute. reflexivity.
  - reflexivity.
Defined.

(** X5 — The text of a token stands in the source, right before the cursor that
    [getToken] returns; for a string token it stands between the two
    quotes, the second of which is the character before that cursor. *)
Theorem token_text_in_source l t l' :
  wf l → getToken l = Ok (t, l') → kind t ≠ EOF →
  (kind t ≠ STRING →
   curPos l ≤ curPos l' - len (text t) ∧ curPos l' ≤ len (source l)
   ∧ slice (source l) (curPos l' - len (text t)) (curPos l') = text t)
  ∧ (kind t = STRING →
     curPos l ≤ curPos l' - len (text t) - 2 ∧ curPos l' ≤ len (source l)
     ∧ slice (source l) (curPos l' - len (text t) - 1) (curPos l' - 1)
       = text t
     ∧ charAt (source l) (curPos l' - len (text t) - 2) = "034"%char
     ∧ charAt (source l) (curPos l' - 1) = "034"%char).
Proof.
  intros (s & Hs & Hpos & ->)%wf_at Hget Hk.
  apply getToken_lexeme in Hget as (i2 & j & -> & (i1 & Hi1 & _) & Hlex);
    [|done].
  simpl curPos. simpl source.
  assert (∀ a b, 0 ≤ a ≤ b → b ≤ len (s +:+ str1 "010") →
          len (slice (s +:+ str1 "010") a b) = b - a) as Hlen
    by (intros; by apply len_slice).
  destruct Hlex as [k sp j Hsp Hsl Hj Hjl _|j Hq Hj Hqj Hall
                   |j Hd Hj _ _|j Ha Hj _ _|]; simpl in *; [| | | |done].
  - split; [|intros ->; done]. intros _.
    replace (j + 1 - len sp) with i2 by lia. split; [lia|]. split; [lia|done].
  - split; [done|]. intros _. rewrite Hlen by lia.
    replace (j + 1 - (j - (i2 + 1)) - 2) with i2 by lia.
    replace (j + 1 - (j - (i2 + 1)) - 1) with (i2 + 1) by lia.
    replace (j + 1 - 1) with j by lia.
    split; [lia|]. split; [lia|]. done.
  - split; [|done]. intros _. rewrite Hlen by lia.
    replace (j + 1 - (j + 1 - i2)) with i2 by lia. split; [lia|]. split; [lia|done].
  - split.
    + intros _. rewrite Hlen by lia.
      replace (j + 1 - (j + 1 - i2)) with i2 by lia.
      split; [lia|]. split; [lia|done].
    + intros Hst. exfalso.
      destruct (word_kind_cases (slice (s +:+ str1 "010") i2 (j + 1)))
        as [[Hw _]|[Hw _]]; rewrite Hst in Hw; done.
Qed.

Lemma token_text_in_source_witness :
  0 ≤ 5 - len "12.5" ∧ 5 ≤ len (" 12.5 + x" +:+ newline)
  ∧ slice (" 12.5 + x" +:+ newline) (5 - len "12.5") 5 = "12.5".
Proof.
  apply (token_text_in_source (Lex.init " 12.5 + x") (mkToken "12.5" NUMBER)
           (lexerAt (" 12.5 + x" +:+ newline) 5)).
  - apply wf_init.
  - vm_compute. reflexivity.
  - discriminate.
  - discriminate.
Defined.
(** ** Number literals of decimal digits *)











(** [str.isdigit] holds of the superscript two, U+00B2, so the scanner
    makes number tokens of it, which are no number literals of decimal
    digits; a decimal point before it is no error, and it goes to the
    output as a number. *)
Lemma superscript_digits_are_scanned :
  getToken (Lex.init ("1." +:+ str1 "178"))
  = Ok (mkToken ("1." +:+ str1 "178") NUMBER,
        lexerAt ("1." +:+ str1 "178" +:+ newline) 3)
  ∧ ¬ NumberLiteral ("1." +:+ str1 "178")
  ∧ translate 20 ("LET x = " +:+ str1 "178")
    = Ok [ HeaderLine "#include <stdio.h>"; HeaderLine "int main(void){";
           HeaderLine "float x;"; Emit "x = "; Emit (str1 "178");
           EmitLine ";"; EmitLine "return 0;"; EmitLine "}" ].
Proof.
  split; [vm_compute; reflexivity|]. split; [|vm_compute; reflexivity].
  intros (a & [Ha Hda] & [Heq|(b & [Hb Hdb] & Heq)]).
  - rewrite <- Heq in Hda. vm_compute in Hda. discriminate Hda.
  - assert (all_chars (fun c => decimal c || (c =? ".")%char)
              ("1." +:+ str1 "178") = true) as Hall.
    { rewrite Heq, !all_chars_app.
      assert (∀ s, all_chars decimal s = true →
                   all_chars (fun c => decimal c || (c =? ".")%char) s = true)
        as Hweak.
      { intros s. induction s as [|c s IH]; [done|]. simpl.
        intros [-> Hs]%andb_true_iff. by rewrite IH. }
      by rewrite (Hweak a Hda), (Hweak b Hdb). }
    vm_compute in Hall. discriminate Hall.
Qed.

(** ** Blanks, comments and the characters that start no token *)

Lemma skipWhitespace_here l :
  iswhite (curChar l) = false → skipWhitespace l = Ok l.
Proof. intros H. unfold skipWhitespace, steps. simpl. by rewrite H. Qed.

Lemma skipComment_here l :
  curChar l ≠ "#"%char → skipComment l = Ok l.
Proof. intros H. unfold skipComment. apply eqb_false in H. by rewrite H. Qed.

(** Where no blank and no comment starts, [getToken] classifies at the
    cursor. *)
Lemma getToken_here l :
  iswhite (curChar l) = false → curChar l ≠ "#"%char →
  getToken l = ('(token, l') ← classify l; Ok (token, nextChar l')).
Proof.
  intros Hw Hc. unfold getToken.
  rewrite skipWhitespace_here by done. cbn [mbind Result_bind].
  by rewrite skipComment_here.
Qed.

Lemma takes_equal_cases c :
  takes_equal c = true →
  c = "="%char ∨ c = "<"%char ∨ c = ">"%char ∨ c = "!"%char.
Proof.
  unfold takes_equal. intros H.
  repeat (apply orb_true_iff in H as [H|H]); apply eqb_true in H; auto.
Qed.

Lemma curChar_nextChar l :
  wf l → curChar (nextChar l) = peek l.
Proof.
  intros (s & _ & _ & ->)%wf_at. by rewrite nextChar_lexerAt, peek_lexerAt.
Qed.

(** X6 — One character of lookahead decides between an operator and the
    operator that it makes with [=]: [==], [<=], [>=] and [!=] are one
    token each, and a [!] that no [=] follows is an error. *)
Theorem equal_sign_lookahead l :
  wf l → takes_equal (curChar l) = true →
  (peek l = "="%char →
   ∃ k, spelling k = Some (str2 (curChar l) "=")
        ∧ getToken l
          = Ok (mkToken (str2 (curChar l) "=") k, nextChar (nextChar l)))
  ∧ (peek l ≠ "="%char → curChar l ≠ "!"%char →
     ∃ k, spelling k = Some (str1 (curChar l))
          ∧ getToken l = Ok (mkToken (str1 (curChar l)) k, nextChar l))
  ∧ (peek l ≠ "="%char → curChar l = "!"%char →
     getToken l
     = Exit ("Lexing Error. Expected !=,  got !" +:+ str1 (peek l))).
Proof.
  intros Hwf Ht. pose proof (curChar_nextChar l Hwf) as Hnext.
  assert (getToken l = ('(token, l') ← classify l; Ok (token, nextChar l')))
    as ->.
  { apply getToken_here;
      destruct (takes_equal_cases _ Ht) as [-> | [-> | [-> | ->]]]; done. }
  unfold classify, twoCharOr.
  split; [|split].
  - intros Hp. rewrite Hp in *.
    destruct (takes_equal_cases _ Ht) as [Hc|[Hc|[Hc|Hc]]]; rewrite Hc;
      simpl; rewrite Hnext; eexists; (split; [|reflexivity]); reflexivity.
  - intros Hp Hb. apply eqb_false in Hp.
    destruct (takes_equal_cases _ Ht) as [Hc|[Hc|[Hc|Hc]]]; [| | |done];
      rewrite Hc; simpl; rewrite Hp; rewrite ?Hc; eexists;
      (split; [|reflexivity]); reflexivity.
  - intros Hp Hc. apply eqb_false in Hp. rewrite Hc. simpl. by rewrite Hp.
Qed.

Lemma equal_sign_lookahead_witness :
  getToken (Lex.init "<= 1")
  = Ok (mkToken "<=" LTEQ, lexerAt ("<= 1" +:+ newline) 2)
  ∧ getToken (Lex.init "!1")
    = Exit "Lexing Error. Expected !=,  got !1".
Proof.
  split.
  - destruct (equal_sign_lookahead (Lex.init "<= 1") (wf_init _) eq_refl)
      as [H _].
    destruct (H eq_refl) as (k & Hk & ->). by destruct k.
  - destruct (equal_sign_lookahead (Lex.init "!1") (wf_init _) eq_refl)
      as (_ & _ & H).
    apply H; [discriminate|reflexivity].
Defined.

(** X7 — A character that is no blank, opens no comment and starts no token
    ends the run: parentheses, commas, a decimal point at the start of a
    number and the like are not part of the language. *)
Theorem unknown_character l :
  iswhite (curChar l) = false → curChar l ≠ "#"%char →
  starts_token (curChar l) = false →
  getToken l = Exit ("Lexing Error. Unknown token: " +:+ str1 (curChar l)).
Proof.
  intros Hw Hc Hs. rewrite getToken_here by done.
  unfold starts_token, takes_equal in Hs.
  repeat match goal with
  | H : _ || _ = false |- _ => apply orb_false_iff in H as [? ?]
  end.
  unfold classify.
  repeat match goal with H : _ = false |- _ => rewrite H; clear H end.
  done.
Qed.

Lemma unknown_character_witness :
  getToken (Lex.init "(1)") = Exit "Lexing Error. Unknown token: (".
Proof.
  apply (unknown_character (Lex.init "(1)")); [reflexivity|discriminate|].
  reflexivity.
Defined.

Lemma scanString_Exit l m :
  scanString l = Exit m → m = "Lexing Error. Illegal character in string.".
Proof.
  unfold scanString. intros H.
  apply (while_Exit _ _
           (fun m => m = "Lexing Error. Illegal character in string."))
    in H; [done|].
  intros s m'. destruct (illegal_in_string _); [|done]. by intros [= <-].
Qed.

(** X8 — The scanner has four error messages, and [getToken] exits with no
    other: for a string literal that holds an illegal character or is not
    closed, for a number that ends in its decimal point, for a [!] that no
    [=] follows, and for a character that starts no token. *)
Theorem lexical_errors l m :
  getToken l = Exit m →
  m = "Lexing Error. Illegal character in string."
  ∨ m = "Lexing Error. Illegal character in number."
  ∨ (∃ c, c ≠ "="%char ∧ m = "Lexing Error. Expected !=,  got !" +:+ str1 c)
  ∨ (∃ c, starts_token c = false
          ∧ m = "Lexing Error. Unknown token: " +:+ str1 c).
Proof.
  unfold getToken, skipWhitespace, skipComment. intros H.
  apply bind_Exit in H as [H|(l1 & _ & H)]; [by apply scan_no_exit in H|].
  apply bind_Exit in H as [H|(l2 & _ & H)].
  { destruct (_ =? _)%char; [by apply scan_no_exit in H|done]. }
  apply bind_Exit in H as [H|([t l3] & _ & H)]; [|done].
  clear l l1. revert H. unfold classify.
  destruct (curChar l2 =? "+")%char eqn:?; [done|].
  destruct (curChar l2 =? "-")%char eqn:?; [done|].
  destruct (curChar l2 =? "*")%char eqn:?; [done|].
  destruct (curChar l2 =? "/")%char eqn:?; [done|].
  destruct (curChar l2 =? "010")%char eqn:?; [done|].
  destruct (curChar l2 =? "=")%char eqn:?; [done|].
  destruct (curChar l2 =? ">")%char eqn:?; [done|].
  destruct (curChar l2 =? "<")%char eqn:?; [done|].
  destruct (curChar l2 =? "!")%char eqn:?.
  { destruct (peek l2 =? "=")%char eqn:Hp; [done|]. intros [= <-].
    apply eqb_false in Hp. right. right. left. by exists (peek l2). }
  destruct (curChar l2 =? "034")%char eqn:?.
  { intros H. apply bind_Exit in H as [H|(? & _ & H)]; [|done].
    left. by apply scanString_Exit in H. }
  destruct (isdigit (curChar l2)) eqn:?.
  { intros H. unfold scanWhilePeek in H.
    apply bind_Exit in H as [H|(l3 & _ & H)]; [by apply scan_no_exit in H|].
    apply bind_Exit in H as [H|(? & _ & H)]; [|done].
    destruct (peek l3 =? ".")%char; [|done].
    destruct (negb _); [|by apply scan_no_exit in H].
    injection H as <-. right. by left. }
  destruct (isalpha (curChar l2)) eqn:?.
  { intros H. unfold scanWhilePeek in H.
    apply bind_Exit in H as [H|(l3 & _ & H)]; [by apply scan_no_exit in H|].
    by destruct (checkIfKeyword _). }
  destruct (curChar l2 =? "000")%char eqn:?; [done|].
  intros [= <-]. right. right. right. exists (curChar l2).
  split; [|done]. unfold starts_token, takes_equal.
  repeat match goal with H : _ = false |- _ => rewrite H; clear H end.
  done.
Qed.

Lemma lexical_errors_witness :
  "Lexing Error. Illegal character in string."
  = "Lexing Error. Illegal character in string."
  ∨ "Lexing Error. Illegal character in string."
    = "Lexing Error. Illegal character in number."
  ∨ (∃ c, c ≠ "="%char
          ∧ "Lexing Error. Illegal character in string."
            = "Lexing Error. Expected !=,  got !" +:+ str1 c)
  ∨ (∃ c, starts_token c = false
          ∧ "Lexing Error. Illegal character in string."
            = "Lexing Error. Unknown token: " +:+ str1 c).
Proof.
  apply (lexical_errors (Lex.init (quote +:+ "a%"))). reflexivity.
Defined.

Section Skipping.
Variable s0 : string.
Local Abbreviation src := (s0 +:+ str1 "010").

Lemma skipWhitespace_next i :
  0 ≤ i → iswhite (charAt src i) = true →
  skipWhitespace (lexerAt src i) = skipWhitespace (lexerAt src (i + 1)).
Proof.
  intros Hi Hw.
  destruct (skipWhitespace_spec s0 i Hi) as (i1 & -> & Hi1 & Hn & Hall).
  destruct (skipWhitespace_spec s0 (i + 1) ltac:(lia))
    as (i1' & -> & Hi1' & Hn' & Hall').
  do 2 f_equal.
  assert (i1 ≠ i) by (intros ->; congruence).
  destruct (Z.lt_trichotomy i1 i1') as [Hlt|[->|Hgt]]; [|done|].
  - specialize (Hall' i1 ltac:(lia)). congruence.
  - specialize (Hall i1' ltac:(lia)). congruence.
Qed.

End Skipping.

(** X9 — A blank, a tab or a carriage return before a token changes nothing:
    [getToken] returns what it returns from the next character. *)
Theorem blanks_are_skipped l :
  wf l → iswhite (curChar l) = true → getToken l = getToken (nextChar l).
Proof.
  intros Hwf Hw. destruct (wf_at l Hwf) as (s & Hs & Hpos & Hl).
  rewrite Hl in Hw |- *. simpl in Hw. rewrite nextChar_lexerAt.
  unfold getToken. by rewrite skipWhitespace_next.
Qed.

Lemma blanks_are_skipped_witness :
  getToken (Lex.init "  LET") = getToken (nextChar (Lex.init "  LET")).
Proof.
  apply (blanks_are_skipped (Lex.init "  LET")); [apply wf_init|reflexivity].
Defined.

(** X10 — A comment runs from [#] to the end of its line and leaves the newline
    in place: the token that [getToken] returns at a [#] is the newline
    token of that line. *)
Theorem comment_to_end_of_line l :
  wf l → curChar l = "#"%char →
  ∃ j, curPos l < j < len (source l)
       ∧ charAt (source l) j = "010"%char
       ∧ (∀ k, curPos l ≤ k < j → charAt (source l) k ≠ "010"%char)
       ∧ getToken l
         = Ok (mkToken newline NEWLINE, lexerAt (source l) (j + 1)).
Proof.
  intros Hwf Hc. destruct (wf_at l Hwf) as (s & Hs & Hpos & Hl).
  rewrite Hs. rewrite Hl in Hc |- *. simpl in Hc. simpl curPos.
  unfold getToken. rewrite skipWhitespace_here by (simpl; by rewrite Hc).
  simpl.
  destruct (skipComment_spec s (curPos l) Hpos)
    as (j & -> & Hj & _ & Hcomment).
  destruct (Hcomment Hc) as [Hnl Hall]. simpl.
  exists j. split.
  { split.
    - destruct (decide (j = curPos l)) as [Heq|]; [|lia].
      rewrite Heq, Hc in Hnl. done.
    - apply charAt_not_nul. by rewrite Hnl. }
  split; [done|]. split; [done|].
  unfold classify. simpl curChar. rewrite Hnl. simpl.
  by rewrite nextChar_lexerAt.
Qed.

Lemma comment_to_end_of_line_witness :
  ∃ j, 0 < j < len ("# a" +:+ newline +:+ "LET" +:+ newline)
       ∧ charAt ("# a" +:+ newline +:+ "LET" +:+ newline) j = "010"%char
       ∧ (∀ k, 0 ≤ k < j
               → charAt ("# a" +:+ newline +:+ "LET" +:+ newline) k
                 ≠ "010"%char)
       ∧ getToken (Lex.init ("# a" +:+ newline +:+ "LET"))
         = Ok (mkToken newline NEWLINE,
               lexerAt ("# a" +:+ newline +:+ "LET" +:+ newline) (j + 1)).
Proof.
  apply (comment_to_end_of_line (Lex.init ("# a" +:+ newline +:+ "LET"))).
  - apply wf_init.
  - reflexivity.
Defined.
(** * Further properties of the parser *)

(** ** Relations that the parser's steps keep *)

Section Ensures.
Variable R : Parser → Parser → Prop.
Hypothesis R_refl : ∀ p, R p p.
Hypothesis R_trans : ∀ p q r, R p q → R q r → R p r.

Lemma ensures_from p q r : R p q → ensures R q r → ensures R p r.
Proof. intros Hpq. destruct r; simpl; eauto. Qed.

Lemma ensures_bind p (m : Result Parser) (f : Parser → Result Parser) :
  ensures R p m → (∀ q, m = Ok q → ensures R q (f q)) →
  ensures R p (m ≫= f).
Proof.
  destruct m as [q| |]; simpl; [|done..]. intros Hq Hf.
  by apply (ensures_from p q); [|apply Hf].
Qed.

Lemma ensures_while fuel (cond : Parser → bool)
    (body : Parser → Result Parser) p :
  (∀ q, cond q = true → ensures R q (body q)) →
  ensures R p (while_ fuel cond body p).
Proof.
  intros Hbody. revert p. induction fuel as [|fuel IH]; intros p; [done|].
  simpl. destruct (cond p) eqn:Hc; [|apply R_refl].
  apply ensures_bind; [by apply Hbody|]. intros q _. apply IH.
Qed.

(** The steps that [statement] is made of. *)
Hypothesis R_next : ∀ p p', nextToken p = Ok p' → R p p'.
Hypothesis R_emit : ∀ c p, R p (emit c p).
Hypothesis R_emitLine :
  ∀ c p, last_char c ≠ Some ":"%char → R p (emitLine c p).
Hypothesis R_declare : ∀ p, R p (declare p).
Hypothesis R_label :
  ∀ p, text (curToken p) ∉ labelsDeclared p →
       R p (emitLine (text (curToken p) +:+ ":")
              (add_labelDeclared (text (curToken p)) p)).
Hypothesis R_goto : ∀ x p, R p (add_labelGotoed x p).

Lemma ensures_nextToken p : ensures R p (nextToken p).
Proof.
  unfold ensures. destruct (nextToken p) eqn:H; simpl; [|done..].
  by apply R_next.
Qed.

Lemma ensures_match k p : ensures R p (match_ k p).
Proof.
  unfold match_. destruct (negb _); [done|]. apply ensures_nextToken.
Qed.

Lemma last_char_app a b c :
  last_char b = Some c → last_char (a +:+ b) = Some c.
Proof.
  intros Hb. induction a as [|d a IH]; [done|].
  rewrite append_cons. simpl. by destruct (a +:+ b).
Qed.

Ltac last_is :=
  solve [repeat (first [reflexivity | apply last_char_app])].

Ltac no_colon :=
  match goal with
  | |- last_char ?s ≠ Some _ =>
      let H := fresh in
      assert (last_char s = Some ";"%char ∨ last_char s = Some "{"%char
              ∨ last_char s = Some "}"%char) as H
        by (first [ left; last_is | right; left; last_is
                  | right; right; last_is ]);
      destruct H as [H|[H|H]]; rewrite H; discriminate
  end.

Ltac prim :=
  match goal with
  | |- R ?p ?p => apply R_refl
  | H : bool_decide (text (curToken ?q) ∈ labelsDeclared ?q) = false
    |- R ?p (emitLine _ (add_labelDeclared _ ?q)) =>
      apply (R_trans p q); [prim|];
      apply R_label; by apply bool_decide_eq_false in H
  | |- R ?p (emit ?c ?q) => apply (R_trans p q); [prim|apply R_emit]
  | |- R ?p (emitLine ?c ?q) =>
      apply (R_trans p q); [prim|apply R_emitLine; no_colon]
  | |- R ?p (declare ?q) => apply (R_trans p q); [prim|apply R_declare]
  | |- R ?p (add_labelGotoed ?x ?q) =>
      apply (R_trans p q); [prim|apply R_goto]
  end.

Ltac ensures_step lemmas :=
  match goal with
  | |- ensures _ _ (Exit _) => exact I
  | |- ensures _ _ (Parse.abort _) => exact I
  | |- ensures _ _ (if ?c then _ else _) => destruct c eqn:?
  | |- ensures _ _ (_ ≫= _) => apply ensures_bind; [|intros ? ?]
  | |- ensures _ _ (Ok _) => unfold ensures; simpl; prim
  | |- ensures _ ?p (nextToken ?q) =>
      apply (ensures_from p q); [prim|apply ensures_nextToken]
  | |- ensures _ ?p (match_ ?k ?q) =>
      apply (ensures_from p q); [prim|apply ensures_match]
  | |- ensures _ ?p (while_ _ _ _ ?q) =>
      apply (ensures_from p q); [prim|apply ensures_while; intros ? ?]
  | |- _ => lemmas
  end.

Lemma ensures_nl fuel p : ensures R p (nl fuel p).
Proof. unfold nl. repeat ensures_step fail. Qed.

Lemma ensures_primary p : ensures R p (primary p).
Proof. unfold primary. repeat ensures_step fail. Qed.

Lemma ensures_unary p : ensures R p (unary p).
Proof. unfold unary. repeat ensures_step ltac:(apply ensures_primary). Qed.

Lemma ensures_term fuel p : ensures R p (term fuel p).
Proof. unfold term. repeat ensures_step ltac:(apply ensures_unary). Qed.

Lemma ensures_expression fuel p : ensures R p (expression fuel p).
Proof.
  unfold expression. repeat ensures_step ltac:(apply ensures_term).
Qed.

Lemma ensures_comparison fuel p : ensures R p (comparison fuel p).
Proof.
  unfold comparison. repeat ensures_step ltac:(apply ensures_expression).
Qed.

(** A relation that is reflexive and transitive and that the steps keep
    holds between the states before and after a statement. *)
Lemma ensures_statement fuel : ∀ p, ensures R p (statement fuel p).
Proof.
  induction fuel as [|fuel IH]; intros p; [done|].
  cbn [statement].
  repeat ensures_step
    ltac:(idtac;
          match goal with
          | |- ensures _ ?p (nl _ ?q) =>
              apply (ensures_from p q); [prim|apply ensures_nl]
          | |- ensures _ ?p (expression _ ?q) =>
              apply (ensures_from p q); [prim|apply ensures_expression]
          | |- ensures _ ?p (comparison _ ?q) =>
              apply (ensures_from p q); [prim|apply ensures_comparison]
          | |- ensures _ ?p (statement _ ?q) => apply IH
          end).
Qed.

End Ensures.
(** ** The parser only adds *)

Lemma extends_refl p : extends p p.
Proof. split; [by exists []; rewrite app_nil_r|done]. Qed.

Lemma extends_trans p q r : extends p q → extends q r → extends p r.
Proof.
  intros ((e & He) & ? & ? & ?) ((e' & He') & ? & ? & ?).
  split; [|set_solver]. exists (e ++ e'). by rewrite He', He, app_assoc.
Qed.

Lemma extends_next p p' : nextToken p = Ok p' → extends p p'.
Proof.
  intros (Hs & Hd & Hg & He & _)%nextToken_sets.
  split; [exists []; by rewrite He, app_nil_r|]. by rewrite Hs, Hd, Hg.
Qed.

Lemma extends_declare p : extends p (declare p).
Proof.
  unfold declare. destruct (negb _); [|apply extends_refl].
  split; [by eexists|simpl; set_solver].
Qed.

Lemma extends_statement fuel p : ensures extends p (statement fuel p).
Proof.
  apply ensures_statement.
  - apply extends_refl.
  - apply extends_trans.
  - apply extends_next.
  - intros c q. split; [by eexists|done].
  - intros c q _. split; [by eexists|done].
  - apply extends_declare.
  - intros q _. split; [by eexists|simpl; set_solver].
  - intros x q. split; [by exists []; rewrite app_nil_r|simpl; set_solver].
Qed.

Lemma extends_parsed_statements fuel p :
  ensures extends p (parsed_statements fuel p).
Proof.
  unfold parsed_statements.
  apply (ensures_from extends extends_trans p
           (headerLine "int main(void){" (headerLine "#include <stdio.h>" p))).
  { split; [|done]. simpl. rewrite <- app_assoc. by eexists. }
  apply ensures_bind; [apply extends_trans| |].
  - apply ensures_while; [apply extends_refl|apply extends_trans|].
    intros q _. unfold ensures. destruct (nextToken q) eqn:H; simpl; [|done..].
    by apply extends_next.
  - intros q _. apply ensures_while; [apply extends_refl|apply extends_trans|].
    intros q' _. apply extends_statement.
Qed.

Lemma checkLabels_same p p' : checkLabels p = Ok p' → p' = p.
Proof. unfold checkLabels. destruct (find _ _); [done|]. by intros [= <-]. Qed.

(** X11 — A statement, and the whole of [program], leave in place what the
    emitter has received and what the three sets hold: calls are appended
    to the emitter and names are added to the sets, and nothing is taken
    back. *)
Theorem parser_only_adds fuel p p' :
  (statement fuel p = Ok p' → extends p p')
  ∧ (program fuel p = Ok p' → extends p p').
Proof.
  split.
  - intros H. pose proof (extends_statement fuel p) as He.
    by rewrite H in He.
  - rewrite program_eq. intros H. apply bind_Ok in H as (q & Hq & H).
    apply checkLabels_same in H as ->.
    pose proof (extends_parsed_statements fuel p) as He. rewrite Hq in He.
    apply (extends_trans p q); [done|].
    split; [|done]. simpl. rewrite <- app_assoc. by eexists.
Qed.

Lemma parser_only_adds_witness :
  ∃ p p', Parse.init (Lex.init ("LET x = 1" +:+ newline +:+ "GOTO a")) []
          = Ok p
          ∧ statement 5 p = Ok p' ∧ extends p p'.
Proof.
  eexists _, _. split; [vm_compute; reflexivity|].
  split; [vm_compute; reflexivity|].
  apply (proj1 (parser_only_adds 5 _ _)). vm_compute. reflexivity.
Defined.

(** X12 — What [translate] returns for an accepted source starts with the two
    lines of the preamble and ends with the two lines of the epilogue. *)
Theorem output_frame fuel src out :
  translate fuel src = Ok out →
  ∃ body,
    out = HeaderLine "#include <stdio.h>" :: HeaderLine "int main(void){"
          :: body ++ [EmitLine "return 0;"; EmitLine "}"].
Proof.
  unfold translate, Parse.init. intros H.
  apply bind_Ok in H as (p0 & H0 & H).
  apply bind_Ok in H as (p1 & H1 & [= <-]).
  assert (emitter p0 = []) as He0.
  { apply bind_Ok in H0 as ([t1 l1] & _ & H0). simpl in H0.
    apply bind_Ok in H0 as ([t2 l2] & _ & H0). by simplify_eq. }
  rewrite program_eq in H1. apply bind_Ok in H1 as (q & Hq & H1).
  apply checkLabels_same in H1 as ->.
  unfold parsed_statements in Hq. apply bind_Ok in Hq as (q0 & Hq0 & Hq).
  pose proof (ensures_while extends extends_refl extends_trans fuel
                (fun p => checkToken p NEWLINE) nextToken
                (headerLine "int main(void){"
                   (headerLine "#include <stdio.h>" p0))) as E1.
  rewrite Hq0 in E1.
  pose proof (ensures_while extends extends_refl extends_trans fuel
                (fun p => negb (checkToken p EOF)) (statement fuel) q0) as E2.
  rewrite Hq in E2.
  destruct E1 as [(e1 & He1) _].
  { intros q' _. unfold ensures. destruct (nextToken q') eqn:Hn; simpl;
      [|done..]. by apply extends_next. }
  destruct E2 as [(e2 & He2) _]; [intros q' _; apply extends_statement|].
  exists (e1 ++ e2). simpl. rewrite He2, He1. simpl. rewrite He0. simpl.
  by rewrite <- !app_assoc.
Qed.

Lemma output_frame_witness :
  ∃ body,
    [ HeaderLine "#include <stdio.h>"; HeaderLine "int main(void){";
      EmitLine "goto a;"; EmitLine "a:"; EmitLine "return 0;"; EmitLine "}" ]
    = HeaderLine "#include <stdio.h>" :: HeaderLine "int main(void){"
      :: body ++ [EmitLine "return 0;"; EmitLine "}"].
Proof.
  apply (output_frame 50 ("GOTO a" +:+ newline +:+ "LABEL a")).
  vm_compute. reflexivity.
Defined.
(** ** Declarations and labels in the output *)

Lemma append_inj_l x y z : x +:+ z = y +:+ z → x = y.
Proof.
  revert y. induction x as [|c x IH]; intros [|d y] H.
  - done.
  - apply (f_equal String.length) in H.
    rewrite append_nil_l, append_cons in H. simpl in H.
    rewrite length_append in H. lia.
  - apply (f_equal String.length) in H.
    rewrite append_nil_l, append_cons in H. simpl in H.
    rewrite length_append in H. lia.
  - rewrite !append_cons in H. injection H as -> H. f_equal. by apply IH.
Qed.

Lemma float_inj x y :
  "float " +:+ x +:+ ";" = "float " +:+ y +:+ ";" → x = y.
Proof.
  intros H. apply (inj (String.app _)) in H. by apply append_inj_l in H.
Qed.

Lemma last_char_colon x : last_char (x +:+ ":") = Some ":"%char.
Proof. by apply last_char_app. Qed.

Lemma declarations_snoc x e c :
  declarations x (e ++ [c])
  = (declarations x e
     + if decide (c = HeaderLine ("float " +:+ x +:+ ";")) then 1 else 0)%nat.
Proof.
  unfold declarations. rewrite count_occ_app. simpl.
  destruct (Call_eq_dec c _), (decide _); done.
Qed.

Lemma label_lines_snoc x e c :
  label_lines x (e ++ [c])
  = (label_lines x e + if decide (c = EmitLine (x +:+ ":")) then 1 else 0)%nat.
Proof.
  unfold label_lines. rewrite count_occ_app. simpl.
  destruct (Call_eq_dec c _), (decide _); done.
Qed.

Lemma declares_symbols_step p q :
  symbols q = symbols p →
  (∃ c, emitter q = emitter p ++ [c] ∧ ∀ x, c ≠ HeaderLine ("float " +:+ x +:+ ";"))
  ∨ emitter q = emitter p →
  declares_symbols p → declares_symbols q.
Proof.
  intros Hs He Hp x. rewrite Hs, <- Hp.
  destruct He as [(c & -> & Hc)| ->]; [|done].
  rewrite declarations_snoc. destruct (decide _) as [->|]; [|lia].
  by destruct (Hc x).
Qed.

Lemma declares_symbols_declare p :
  declares_symbols p → declares_symbols (declare p).
Proof.
  unfold declare. destruct (bool_decide _) eqn:Hin; [done|].
  apply bool_decide_eq_false in Hin. simpl. intros Hp x. simpl.
  rewrite declarations_snoc, Hp.
  destruct (decide _) as [Heq|Hne].
  - assert (text (curToken p) = x) as <- by (apply float_inj; congruence).
    rewrite bool_decide_eq_false_2 by done.
    rewrite bool_decide_eq_true_2 by set_solver. done.
  - assert (x ≠ text (curToken p)) by (intros ->; done).
    rewrite (bool_decide_ext (x ∈ {[text (curToken p)]} ∪ symbols p)
               (x ∈ symbols p)); [lia|].
    rewrite elem_of_union, elem_of_singleton. tauto.
Qed.

Lemma declares_symbols_statement fuel p :
  ensures (fun p p' => declares_symbols p → declares_symbols p') p
    (statement fuel p).
Proof.
  apply ensures_statement; try done.
  - auto.
  - intros q q' (Hs & _ & _ & He & _)%nextToken_sets.
    apply declares_symbols_step; auto.
  - intros c q. apply declares_symbols_step; [done|]. left. by eexists.
  - intros c q _. apply declares_symbols_step; [done|]. left. by eexists.
  - apply declares_symbols_declare.
  - intros q _. apply declares_symbols_step; [done|]. left. by eexists.
Qed.

Lemma emits_labels_step p q :
  labelsDeclared q = labelsDeclared p →
  (∃ c, emitter q = emitter p ++ [c] ∧ ∀ x, c ≠ EmitLine (x +:+ ":"))
  ∨ emitter q = emitter p →
  emits_labels p → emits_labels q.
Proof.
  intros Hs He Hp x. rewrite Hs, <- Hp.
  destruct He as [(c & -> & Hc)| ->]; [|done].
  rewrite label_lines_snoc. destruct (decide _) as [->|]; [|lia].
  by destruct (Hc x).
Qed.

Lemma emits_labels_label p :
  text (curToken p) ∉ labelsDeclared p → emits_labels p →
  emits_labels (emitLine (text (curToken p) +:+ ":")
                  (add_labelDeclared (text (curToken p)) p)).
Proof.
  intros Hin Hp x. simpl. rewrite label_lines_snoc, Hp.
  destruct (decide _) as [Heq|Hne].
  - injection Heq as Heq. apply append_inj_l in Heq as <-.
    rewrite bool_decide_eq_false_2 by done.
    rewrite bool_decide_eq_true_2 by set_solver. done.
  - assert (x ≠ text (curToken p)) by (intros ->; done).
    rewrite (bool_decide_ext (x ∈ {[text (curToken p)]} ∪ labelsDeclared p)
               (x ∈ labelsDeclared p)); [lia|].
    rewrite elem_of_union, elem_of_singleton. tauto.
Qed.

Lemma emits_labels_statement fuel p :
  ensures (fun p p' => emits_labels p → emits_labels p') p
    (statement fuel p).
Proof.
  apply ensures_statement; try done.
  - auto.
  - intros q q' (_ & Hs & _ & He & _)%nextToken_sets.
    apply emits_labels_step; auto.
  - intros c q. apply emits_labels_step; [done|]. left. by eexists.
  - intros c q Hc. apply emits_labels_step; [done|]. left.
    eexists. split; [done|]. intros x [= ->].
    by rewrite last_char_colon in Hc.
  - intros q. unfold declare. destruct (negb _); [|done].
    apply emits_labels_step; [done|]. left. by eexists.
  - apply emits_labels_label.
Qed.

(** An invariant of the statements and of the four lines that [program]
    adds holds at the end of an accepted run. *)
Lemma program_invariant (I : Parser → Prop) fuel l p p' :
  (∀ q fuel, ensures (fun p p' => I p → I p') q (statement fuel q)) →
  (∀ q q', nextToken q = Ok q' → I q → I q') →
  (∀ q, I q → I (headerLine "#include <stdio.h>" q)) →
  (∀ q, I q → I (headerLine "int main(void){" q)) →
  (∀ q, I q → I (emitLine "return 0;" q)) →
  (∀ q, I q → I (emitLine "}" q)) →
  (∀ t1 t2 l', I (mkParser l' [] ∅ ∅ ∅ t1 t2)) →
  Parse.init l [] = Ok p → program fuel p = Ok p' → I p'.
Proof.
  intros Hst Hnext Hh1 Hh2 He1 He2 Hinit H0 H.
  assert (I p) as Hp.
  { unfold Parse.init in H0.
    apply bind_Ok in H0 as ([t1 l1] & _ & H0). simpl in H0.
    apply bind_Ok in H0 as ([t2 l2] & _ & H0). simpl in H0.
    injection H0 as <-. apply Hinit. }
  rewrite program_eq in H. apply bind_Ok in H as (q & Hq & H).
  apply checkLabels_same in H as ->. apply He2, He1.
  unfold parsed_statements in Hq. apply bind_Ok in Hq as (q0 & Hq0 & Hq).
  pose proof (ensures_while (fun p p' => I p → I p')
                (fun _ H => H) (fun _ _ _ H1 H2 H => H2 (H1 H)) fuel
                (fun p => checkToken p NEWLINE) nextToken
                (headerLine "int main(void){"
                   (headerLine "#include <stdio.h>" p))) as E1.
  rewrite Hq0 in E1.
  pose proof (ensures_while (fun p p' => I p → I p')
                (fun _ H => H) (fun _ _ _ H1 H2 H => H2 (H1 H)) fuel
                (fun p => negb (checkToken p EOF)) (statement fuel) q0) as E2.
  rewrite Hq in E2. apply E2; [intros; apply Hst|].
  apply E1; [|by apply Hh2, Hh1].
  intros q' _. unfold ensures. destruct (nextToken q') eqn:Hn; simpl;
    [|done..]. by apply Hnext.
Qed.

(** X13 — At the end of an accepted run the preamble holds one declaration
    [float x;] for each variable [x] of [symbols] and none for any other
    name: no variable is declared twice, whatever the number of [LET] and
    [INPUT] statements that name it. *)
Theorem variables_declared_once fuel l p p' :
  Parse.init l [] = Ok p → program fuel p = Ok p' → declares_symbols p'.
Proof.
  apply (program_invariant declares_symbols).
  - intros. apply declares_symbols_statement.
  - intros q q' (Hs & _ & _ & He & _)%nextToken_sets.
    apply declares_symbols_step; auto.
  - intros q. apply declares_symbols_step; [done|]. left.
    eexists. split; [done|]. intros x. by rewrite append_cons.
  - intros q. apply declares_symbols_step; [done|]. left.
    eexists. split; [done|]. intros x. by rewrite append_cons.
  - intros q. apply declares_symbols_step; [done|]. left. by eexists.
  - intros q. apply declares_symbols_step; [done|]. left. by eexists.
  - intros t1 t2 l' x. simpl. by rewrite bool_decide_eq_false_2 by set_solver.
Qed.

Lemma variables_declared_once_witness :
  ∃ p p', Parse.init (Lex.init ("LET x = 1" +:+ newline +:+ "LET x = 2")) []
          = Ok p
          ∧ program 20 p = Ok p' ∧ declares_symbols p'.
Proof.
  eexists _, _. split; [vm_compute; reflexivity|].
  split; [vm_compute; reflexivity|].
  eapply (variables_declared_once 20
           (Lex.init ("LET x = 1" +:+ newline +:+ "LET x = 2"))).
  - vm_compute. reflexivity.
  - vm_compute. reflexivity.
Defined.

(** X14 — At the end of an accepted run the body holds one line [x:] for each
    label [x] of [labelsDeclared] and none for any other name. *)
Theorem labels_emitted_once fuel l p p' :
  Parse.init l [] = Ok p → program fuel p = Ok p' → emits_labels p'.
Proof.
  apply (program_invariant emits_labels).
  - intros. apply emits_labels_statement.
  - intros q q' (_ & Hs & _ & He & _)%nextToken_sets.
    apply emits_labels_step; auto.
  - intros q. apply emits_labels_step; [done|]. left. by eexists.
  - intros q. apply emits_labels_step; [done|]. left. by eexists.
  - intros q. apply emits_labels_step; [done|]. left.
    eexists. split; [done|]. intros x H.
    apply (f_equal (fun c => match c with EmitLine s => last_char s
                                     | _ => None end)) in H.
    by rewrite last_char_colon in H.
  - intros q. apply emits_labels_step; [done|]. left.
    eexists. split; [done|]. intros x H.
    apply (f_equal (fun c => match c with EmitLine s => last_char s
                                     | _ => None end)) in H.
    by rewrite last_char_colon in H.
  - intros t1 t2 l' x. simpl. by rewrite bool_decide_eq_false_2 by set_solver.
Qed.

Lemma labels_emitted_once_witness :
  ∃ p p', Parse.init (Lex.init ("LABEL a" +:+ newline +:+ "GOTO a")) []
          = Ok p
          ∧ program 20 p = Ok p' ∧ emits_labels p'.
Proof.
  eexists _, _. split; [vm_compute; reflexivity|].
  split; [vm_compute; reflexivity|].
  eapply (labels_emitted_once 20
           (Lex.init ("LABEL a" +:+ newline +:+ "GOTO a"))).
  - vm_compute. reflexivity.
  - vm_compute. reflexivity.
Defined.

(** ** Every run ends *)

(** X15 — The parser ends on every source: each turn of its loops and each
    nested statement reads a token, and the scanner delivers the
    end-of-input token from the end of the buffer on.  With fuel for the
    source, [translate] returns the emitter's contents or exits, and more
    fuel changes nothing. *)
Theorem translate_terminates fuel fuel' src :
  (String.length src + 2 ≤ fuel)%nat → (fuel ≤ fuel')%nat →
  ((∃ out, translate fuel src = Ok out) ∨ (∃ m, translate fuel src = Exit m))
  ∧ translate fuel' src = translate fuel src.
Proof.
  intros Hf Hf'. split.
  - pose proof (translate_total fuel src Hf) as Ht.
    destruct (translate fuel src); [by left; eexists|by right; eexists|done].
  - apply translate_fuel; lia.
Qed.

Lemma translate_terminates_witness :
  ((∃ out, translate 9 "GOTO a" = Ok out)
   ∨ (∃ m, translate 9 "GOTO a" = Exit m))
  ∧ translate 20 "GOTO a" = translate 9 "GOTO a".
Proof. apply (translate_terminates 9 20 "GOTO a"); vm_compute; lia. Defined.

(** X16 — A source that holds nothing, or nothing but line breaks, is accepted
    and gives the program that only returns. *)
Theorem blank_source n fuel :
  (n + 2 ≤ fuel)%nat →
  translate fuel (blank n)
  = Ok [ HeaderLine "#include <stdio.h>"; HeaderLine "int main(void){";
         EmitLine "return 0;"; EmitLine "}" ].
Proof.
  intros Hf.
  assert (translate 2 ""
          = Ok [ HeaderLine "#include <stdio.h>"; HeaderLine "int main(void){";
                 EmitLine "return 0;"; EmitLine "}" ]) as H2
    by (vm_compute; reflexivity).
  pose proof (blank_lines_fuel n 2 "" _ H2 ltac:(done)) as H.
  rewrite append_nil_r in H. rewrite <- H.
  apply translate_fuel; rewrite length_blank; lia.
Qed.

Lemma blank_source_witness :
  translate 5 (blank 3)
  = Ok [ HeaderLine "#include <stdio.h>"; HeaderLine "int main(void){";
         EmitLine "return 0;"; EmitLine "}" ].
Proof. apply (blank_source 3 5). lia. Defined.
(** ** The tokens that the parser reads *)

Lemma getTokens_app n m l :
  getTokens (n + m) l
  = ('(a, l1) ← getTokens n l; '(b, l2) ← getTokens m l1; Ok (a ++ b, l2)).
Proof.
  revert l. induction n as [|n IH]; intros l.
  - simpl. by destruct (getTokens m l) as [[]| |].
  - cbn [Nat.add]. rewrite !getTokens_S.
    destruct (getToken l) as [[t l1]| |]; [|done..].
    cbn [mbind Result_bind]. rewrite IH.
    destruct (getTokens n l1) as [[a l2]| |]; [|done..].
    cbn [mbind Result_bind].
    by destruct (getTokens m l2) as [[b l3]| |].
Qed.

Lemma reads_refl p : reads p [] p.
Proof. by exists []. Qed.

Lemma reads_trans p ts q ts' r :
  reads p ts q → reads q ts' r → reads p (ts ++ ts') r.
Proof.
  intros (new & Hn & Heq) (new' & Hn' & Heq'). exists (new ++ new').
  rewrite length_app, getTokens_app, Hn. cbn [mbind Result_bind].
  rewrite Hn'. split; [done|].
  change (curToken p :: peekToken p :: new ++ new')
    with ((curToken p :: peekToken p :: new) ++ new').
  rewrite Heq, <- !app_assoc. f_equal. exact Heq'.
Qed.

Lemma reads_next p p' : nextToken p = Ok p' → reads p [curToken p] p'.
Proof.
  intros (t & l & Hget & ->)%nextToken_Ok. exists [t]. simpl.
  by rewrite Hget.
Qed.

Lemma reads_head p t ts p' : reads p (t :: ts) p' → t = curToken p.
Proof. intros (new & _ & Heq). by injection Heq. Qed.

Lemma same_sets_refl p : same_sets p p.
Proof. done. Qed.

Lemma same_sets_trans p q r : same_sets p q → same_sets q r → same_sets p r.
Proof. intros (? & ? & ?) (? & ? & ?). repeat split; congruence. Qed.

Lemma same_sets_next p p' : nextToken p = Ok p' → same_sets p p'.
Proof. by intros (? & ? & ? & _)%nextToken_sets. Qed.

Section Copies.
Variable ok : Token → bool.

Lemma copies_refl p : copies ok p [] p.
Proof.
  split; [apply reads_refl|]. split; [done|].
  split; [by rewrite app_nil_r|done].
Qed.

Lemma copies_trans p ts q ts' r :
  copies ok p ts q → copies ok q ts' r → copies ok p (ts ++ ts') r.
Proof.
  intros (Hr & Hok & He & Hs) (Hr' & Hok' & He' & Hs').
  split; [by eapply reads_trans|]. split; [by apply Forall_app|].
  split; [|by eapply same_sets_trans].
  unfold copy in *. by rewrite He', He, map_app, app_assoc.
Qed.

(** The step of the expression routines: the current token is sent to
    the emitter and the next one is read. *)
Lemma copies_next p p' :
  ok (curToken p) = true →
  nextToken (emit (text (curToken p)) p) = Ok p' →
  copies ok p [curToken p] p'.
Proof.
  intros Hok H. split; [exact (reads_next _ _ H)|].
  split; [by constructor|].
  destruct (nextToken_sets _ _ H) as (Hs & Hd & Hg & He & _).
  split; [by rewrite He|done].
Qed.

Lemma copies_while fuel (cond : Parser → bool)
    (body : Parser → Result Parser) p :
  (∀ q, cond q = true → ensures (fun p p' => ∃ ts, copies ok p ts p') q (body q)) →
  ensures (fun p p' => ∃ ts, copies ok p ts p') p (while_ fuel cond body p).
Proof.
  apply ensures_while.
  - intros q. exists []. apply copies_refl.
  - intros q1 q2 q3 (ts & H) (ts' & H'). exists (ts ++ ts').
    by eapply copies_trans.
Qed.

End Copies.
Lemma copies_weaken (ok ok' : Token → bool) p ts p' :
  (∀ t, ok t = true → ok' t = true) → copies ok p ts p' → copies ok' p ts p'.
Proof.
  intros Himp (Hr & Hok & He & Hs). split; [done|]. split; [|done].
  eapply Forall_impl; [exact Hok|]. auto.
Qed.

Lemma copies_cons ok p ts p' :
  ts ≠ [] → copies ok p ts p' → ∃ ts', ts = curToken p :: ts'.
Proof.
  intros Hne (Hr & _). destruct ts as [|t ts']; [done|].
  apply reads_head in Hr as ->. by eexists.
Qed.

(** A loop of the expression routines: while the current token is an
    operator, it is copied and an operand is parsed. *)
Lemma operator_loop_copies (ok : Token → bool) fuel (cond : Parser → bool)
    (operand : Parser → Result Parser) p :
  (∀ q, cond q = true → ok (curToken q) = true) →
  (∀ q q', operand q = Ok q' → ∃ ts, copies ok q ts q') →
  ensures (fun p p' => ∃ ts, copies ok p ts p') p
    (while_ fuel cond
       (fun p => p ← nextToken (emit (text (curToken p)) p); operand p) p).
Proof.
  intros Hcond Hop. apply copies_while. intros q Hc. unfold ensures.
  destruct (nextToken _) as [q1| |] eqn:H1; simpl; [|done..].
  destruct (operand q1) as [q2| |] eqn:H2; simpl; [|done..].
  destruct (Hop _ _ H2) as (ts & Hts). exists ([curToken q] ++ ts).
  eapply copies_trans; [|exact Hts]. apply copies_next; auto.
Qed.

Lemma loop_copies_Ok (ok : Token → bool) fuel (cond : Parser → bool)
    (body : Parser → Result Parser) p p' :
  ensures (fun p p' => ∃ ts, copies ok p ts p') p (while_ fuel cond body p) →
  while_ fuel cond body p = Ok p' → ∃ ts, copies ok p ts p'.
Proof. intros He H. by rewrite H in He. Qed.

Lemma primary_copies p p' :
  primary p = Ok p' → copies arithmetic p [curToken p] p'.
Proof.
  unfold primary. destruct (checkToken p NUMBER) eqn:Hn.
  - apply checkToken_true in Hn. apply copies_next.
    unfold arithmetic. by rewrite Hn.
  - destruct (checkToken p IDENT) eqn:Hi; [|done].
    destruct (negb _); [done|]. apply checkToken_true in Hi.
    apply copies_next. unfold arithmetic. by rewrite Hi.
Qed.

Lemma sign_arithmetic p :
  checkToken p PLUS || checkToken p MINUS = true →
  arithmetic (curToken p) = true.
Proof.
  intros [H|H]%orb_true_iff; apply checkToken_true in H;
    unfold arithmetic; by rewrite H.
Qed.

Lemma factor_arithmetic p :
  checkToken p ASTERISK || checkToken p SLASH = true →
  arithmetic (curToken p) = true.
Proof.
  intros [H|H]%orb_true_iff; apply checkToken_true in H;
    unfold arithmetic; by rewrite H.
Qed.

Lemma isComparisonOperator_compares p :
  isComparisonOperator p = true → compares (curToken p) = true.
Proof.
  unfold isComparisonOperator. intros H.
  repeat (apply orb_true_iff in H as [H|H]); apply checkToken_true in H;
    unfold compares; by rewrite H.
Qed.

Lemma unary_copies p p' :
  unary p = Ok p' → ∃ ts, ts ≠ [] ∧ copies arithmetic p ts p'.
Proof.
  unfold unary. destruct (checkToken p PLUS || checkToken p MINUS) eqn:Hc.
  - intros H. apply bind_Ok in H as (q & Hq & H).
    exists ([curToken p] ++ [curToken q]). split; [done|].
    eapply copies_trans; [|by apply primary_copies].
    apply copies_next; [by apply sign_arithmetic|done].
  - simpl. intros H. exists [curToken p]. split; [done|].
    by apply primary_copies.
Qed.

Lemma term_copies fuel p p' :
  term fuel p = Ok p' → ∃ ts, ts ≠ [] ∧ copies arithmetic p ts p'.
Proof.
  unfold term. intros H. apply bind_Ok in H as (q & Hq & H).
  apply unary_copies in Hq as (ts & Hne & Hts).
  apply (loop_copies_Ok arithmetic) in H as (ts' & Hts').
  - exists (ts ++ ts'). split; [by destruct ts|]. by eapply copies_trans.
  - apply operator_loop_copies; [apply factor_arithmetic|].
    intros q1 q2 (ts1 & _ & H1)%unary_copies. by exists ts1.
Qed.

Lemma expression_copies fuel p p' :
  expression fuel p = Ok p' → ∃ ts, ts ≠ [] ∧ copies arithmetic p ts p'.
Proof.
  unfold expression. intros H. apply bind_Ok in H as (q & Hq & H).
  apply term_copies in Hq as (ts & Hne & Hts).
  apply (loop_copies_Ok arithmetic) in H as (ts' & Hts').
  - exists (ts ++ ts'). split; [by destruct ts|]. by eapply copies_trans.
  - apply operator_loop_copies; [apply sign_arithmetic|].
    intros q1 q2 (ts1 & _ & H1)%term_copies. by exists ts1.
Qed.

(** X17 — An expression that is accepted has been copied to the body token by
    token: it starts at the current token, is made of numbers,
    identifiers and the four arithmetic operators, each of which the
    emitter has received as it is spelled and in the order of the source,
    and the sets are as they were. *)
Theorem expression_copies_tokens fuel p p' :
  expression fuel p = Ok p' →
  ∃ ts, copies arithmetic p (curToken p :: ts) p'.
Proof.
  intros (ts & Hne & Hts)%expression_copies.
  destruct (copies_cons _ _ _ _ Hne Hts) as (ts' & ->). by exists ts'.
Qed.

Lemma expression_copies_tokens_witness :
  ∃ p p' ts, Parse.init (Lex.init "1 + 2 * 3") [] = Ok p
             ∧ expression 5 p = Ok p'
             ∧ copies arithmetic p (curToken p :: ts) p'.
Proof.
  assert (∃ p p', Parse.init (Lex.init "1 + 2 * 3") [] = Ok p
                  ∧ expression 5 p = Ok p') as (p & p' & H0 & H).
  { eexists _, _. split; [vm_compute; reflexivity|].
    vm_compute. reflexivity. }
  destruct (expression_copies_tokens 5 p p' H) as (ts & Hts).
  by exists p, p', ts.
Defined.

Lemma comparison_copies fuel p p' :
  comparison fuel p = Ok p' →
  ∃ ts op ts',
    copies (fun t => arithmetic t || compares t) p
      (curToken p :: ts ++ op :: ts') p'
    ∧ Forall (fun t => arithmetic t = true) (curToken p :: ts)
    ∧ compares op = true ∧ ts' ≠ [].
Proof.
  unfold comparison. intros H.
  assert (∀ q q', expression fuel q = Ok q' →
          ∃ ts, copies (fun t => arithmetic t || compares t) q ts q')
    as Hexp.
  { intros q q' (ts & _ & Hts)%expression_copies. exists ts.
    eapply copies_weaken; [|exact Hts]. intros t ->. done. }
  apply bind_Ok in H as (q1 & H1 & H).
  apply bind_Ok in H as (q3 & H3 & H).
  destruct (isComparisonOperator q1) eqn:Hop; [|done].
  apply bind_Ok in H3 as (q2 & H2 & H3).
  apply expression_copies in H1 as (ts1 & Hne1 & Hts1).
  destruct (copies_cons _ _ _ _ Hne1 Hts1) as (ts & ->).
  apply expression_copies in H3 as (ts3 & Hne3 & Hts3).
  apply (loop_copies_Ok (fun t => arithmetic t || compares t)) in H
    as (ts4 & Hts4).
  2:{ apply operator_loop_copies; [|done]. intros q Hq.
      apply isComparisonOperator_compares in Hq. rewrite Hq.
      apply orb_true_r. }
  apply isComparisonOperator_compares in Hop.
  exists ts, (curToken q1), (ts3 ++ ts4).
  split; [|split; [apply Hts1|split; [done|by destruct ts3]]].
  change (curToken p :: ts ++ curToken q1 :: ts3 ++ ts4)
    with ((curToken p :: ts) ++ [curToken q1] ++ ts3 ++ ts4).
  eapply copies_trans.
  { eapply copies_weaken; [|exact Hts1]. intros t ->. done. }
  eapply copies_trans.
  { apply copies_next; [|exact H2]. rewrite Hop. apply orb_true_r. }
  eapply copies_trans; [|exact Hts4].
  eapply copies_weaken; [|exact Hts3]. intros t ->. done.
Qed.

(** X18 — A comparison that is accepted is an expression, a comparison
    operator and what follows it, an expression at least; all of it has
    been copied to the body token by token. *)
Theorem comparison_copies_tokens fuel p p' :
  comparison fuel p = Ok p' →
  ∃ ts op ts',
    copies (fun t => arithmetic t || compares t) p
      (curToken p :: ts ++ op :: ts') p'
    ∧ Forall (fun t => arithmetic t = true) (curToken p :: ts)
    ∧ compares op = true ∧ ts' ≠ [].
Proof. apply comparison_copies. Qed.

Lemma comparison_copies_tokens_witness :
  ∃ p p' ts op ts',
    Parse.init (Lex.init "1 + 2 <= 3") [] = Ok p
    ∧ comparison 5 p = Ok p'
    ∧ copies (fun t => arithmetic t || compares t) p
        (curToken p :: ts ++ op :: ts') p'
    ∧ Forall (fun t => arithmetic t = true) (curToken p :: ts)
    ∧ compares op = true ∧ ts' ≠ [].
Proof.
  assert (∃ p p', Parse.init (Lex.init "1 + 2 <= 3") [] = Ok p
                  ∧ comparison 5 p = Ok p') as (p & p' & H0 & H).
  { eexists _, _. split; [vm_compute; reflexivity|].
    vm_compute. reflexivity. }
  destruct (comparison_copies_tokens 5 p p' H) as (ts & op & ts' & Hts).
  by exists p, p', ts, op, ts'.
Defined.
(** ** What each statement reads and emits *)

Lemma yields_refl p : yields p [] [] p.
Proof. split; [apply reads_refl|by rewrite app_nil_r]. Qed.

Lemma yields_trans p ts e q ts' e' r :
  yields p ts e q → yields q ts' e' r → yields p (ts ++ ts') (e ++ e') r.
Proof.
  intros [Hr He] [Hr' He']. split; [by eapply reads_trans|].
  by rewrite He', He, app_assoc.
Qed.

Lemma yields_ext p ts e p' ts' e' :
  yields p ts e p' → ts = ts' → e = e' → yields p ts' e' p'.
Proof. by intros ? <- <-. Qed.

Ltac same_list :=
  cbn [app]; rewrite ?app_nil_r, <- ?app_assoc; cbn [app]; reflexivity.

Lemma yields_next p p' : nextToken p = Ok p' → yields p [curToken p] [] p'.
Proof.
  intros H. split; [by apply reads_next|].
  destruct (nextToken_sets _ _ H) as (_ & _ & _ & -> & _).
  by rewrite app_nil_r.
Qed.

Lemma yields_match k p p' :
  match_ k p = Ok p' →
  kind (curToken p) = k ∧ yields p [curToken p] [] p' ∧ same_sets p p'.
Proof.
  intros [Hk H]%match_Ok. split; [done|].
  split; [by apply yields_next|by apply same_sets_next].
Qed.

(** A state that differs from [p] by the emitter and the sets reads as
    [p] does. *)
Lemma yields_from p q e0 ts e r :
  lexer q = lexer p → curToken q = curToken p → peekToken q = peekToken p →
  emitter q = emitter p ++ e0 →
  yields q ts e r → yields p ts (e0 ++ e) r.
Proof.
  intros Hl Hc Hp He [(new & Hn & Heq) Her]. split.
  - exists new. by rewrite <- Hl, <- Hc, <- Hp.
  - by rewrite Her, He, app_assoc.
Qed.

Lemma copies_yields ok p ts p' : copies ok p ts p' → yields p ts (copy ts) p'.
Proof. by intros (? & _ & ? & _). Qed.

Lemma skips_lines_refl p : skips_lines p [] p.
Proof. split; [apply reads_refl|done]. Qed.

Lemma skips_lines_trans p ts q ts' r :
  skips_lines p ts q → skips_lines q ts' r → skips_lines p (ts ++ ts') r.
Proof.
  intros (Hr & Hk & He & Hs) (Hr' & Hk' & He' & Hs').
  split; [by eapply reads_trans|]. split; [by apply Forall_app|].
  split; [congruence|by eapply same_sets_trans].
Qed.

Lemma skips_lines_next p p' :
  kind (curToken p) = NEWLINE → nextToken p = Ok p' →
  skips_lines p [curToken p] p'.
Proof.
  intros Hk H. split; [by apply reads_next|]. split; [by constructor|].
  destruct (nextToken_sets _ _ H) as (? & ? & ? & ? & _). done.
Qed.

(** [nl] reads one or more newline tokens and changes nothing else. *)
Lemma nl_skips fuel p p' :
  nl fuel p = Ok p' → ∃ ts, newlines ts ∧ skips_lines p ts p'.
Proof.
  unfold nl. intros H. apply bind_Ok in H as (q & [Hk Hq]%match_Ok & H).
  pose proof (ensures_while (fun p p' => ∃ ts, skips_lines p ts p')
                (fun p => ex_intro _ [] (skips_lines_refl p))
                ltac:(intros ? ? ? [ts1 H1] [ts2 H2]; exists (ts1 ++ ts2);
                      by eapply skips_lines_trans)
                fuel (fun p => checkToken p NEWLINE) nextToken q) as E.
  rewrite H in E. destruct E as (ts & Hts).
  { intros q1 Hc%checkToken_true. unfold ensures.
    destruct (nextToken q1) eqn:Hn; simpl; [|done..].
    exists [curToken q1]. by apply skips_lines_next. }
  exists ([curToken p] ++ ts). split.
  - split; [done|]. apply Forall_app. split; [by constructor|apply Hts].
  - eapply skips_lines_trans; [by apply skips_lines_next|done].
Qed.

Lemma nl_yields fuel p p' :
  nl fuel p = Ok p' →
  ∃ ts, newlines ts ∧ yields p ts [] p' ∧ same_sets p p'.
Proof.
  intros (ts & Hn & Hr & _ & He & Hs)%nl_skips. exists ts.
  split; [done|]. split; [|done]. split; [done|]. by rewrite app_nil_r.
Qed.

Lemma emitter_declare p :
  emitter (declare p)
  = emitter p ++ declaration (text (curToken p)) (symbols p).
Proof.
  unfold declare, declaration. destruct (bool_decide _); simpl; [|done].
  by rewrite app_nil_r.
Qed.

Lemma symbols_declare_union p :
  symbols (declare p) = {[text (curToken p)]} ∪ symbols p.
Proof.
  unfold declare. destruct (bool_decide _) eqn:Hin; simpl; [|done].
  apply bool_decide_eq_true in Hin. apply set_eq. intros y.
  rewrite elem_of_union, elem_of_singleton. split; [auto|].
  by intros [->|].
Qed.

Lemma statement_PRINT fuel p :
  checkToken p PRINT = true →
  statement (S fuel) p
  = (p ← (p ← nextToken p;
          if checkToken p STRING then
            nextToken
              (emitLine ("printf(" +:+ quote +:+ text (curToken p) +:+ "\n"
                         +:+ quote +:+ ");") p)
          else
            p ← expression fuel
                  (emit ("printf(" +:+ quote +:+ "%" +:+ ".2f\n" +:+ quote
                         +:+ ", (float)(") p);
            Ok (emitLine "));" p));
     nl fuel p).
Proof.
  intros Hk%checkToken_true. cbn [statement]. unfold checkToken.
  rewrite Hk. reflexivity.
Qed.

Lemma statement_LABEL fuel p :
  checkToken p LABEL = true →
  statement (S fuel) p
  = (p ← (p ← nextToken p;
          if bool_decide (text (curToken p) ∈ labelsDeclared p)
          then Parse.abort ("Label already exists: " +:+ text (curToken p))
          else
            match_ IDENT
              (emitLine (text (curToken p) +:+ ":")
                 (add_labelDeclared (text (curToken p)) p)));
     nl fuel p).
Proof.
  intros Hk%checkToken_true. cbn [statement]. unfold checkToken.
  rewrite Hk. reflexivity.
Qed.

Lemma statement_GOTO fuel p :
  checkToken p GOTO = true →
  statement (S fuel) p
  = (p ← (p ← nextToken p;
          match_ IDENT
            (emitLine ("goto " +:+ text (curToken p) +:+ ";")
               (add_labelGotoed (text (curToken p)) p)));
     nl fuel p).
Proof.
  intros Hk%checkToken_true. cbn [statement]. unfold checkToken.
  rewrite Hk. reflexivity.
Qed.

Lemma statement_LET fuel p :
  checkToken p LET = true →
  statement (S fuel) p
  = (p ← (p ← nextToken p;
          p ← match_ IDENT (emit (text (curToken p) +:+ " = ") (declare p));
          p ← match_ EQ p;
          p ← expression fuel p;
          Ok (emitLine ";" p));
     nl fuel p).
Proof.
  intros Hk%checkToken_true. cbn [statement]. unfold checkToken.
  rewrite Hk. reflexivity.
Qed.

Lemma statement_INPUT fuel p :
  checkToken p INPUT = true →
  statement (S fuel) p
  = (p ← (p ← nextToken p;
          match_ IDENT
            (emitLine "}"
               (emitLine ("*s" +:+ quote +:+ ");")
                  (emit ("scanf(" +:+ quote +:+ "%")
                     (emitLine (text (curToken p) +:+ " = 0;")
                        (emitLine ("if(0==scanf(" +:+ quote +:+ "%" +:+ "f"
                                   +:+ quote +:+ ", &" +:+ text (curToken p)
                                   +:+ ")) {") (declare p)))))));
     nl fuel p).
Proof.
  intros Hk%checkToken_true. cbn [statement]. unfold checkToken.
  rewrite Hk. cbn [bool_decide decide_rel TokenType_eq_dec]. simpl.
  destruct (nextToken p) as [p1| |]; [|done..]. cbn [mbind Result_bind].
  by rewrite !curToken_declare.
Qed.
Lemma labels_declare p :
  labelsDeclared (declare p) = labelsDeclared p
  ∧ labelsGotoed (declare p) = labelsGotoed p.
Proof. unfold declare. by destruct (negb _). Qed.

(** X19 — [LET x = e]: the statement reads [LET], the identifier [x], [=], the
    tokens of the expression [e] and the newlines that end it; it puts
    [x] into [symbols], declares it in the preamble when it is new, and
    sends the assignment to the body: [x = ], the spellings of the tokens
    of [e] in their order, and the line end [;]. *)
Theorem let_statement fuel p p' :
  checkToken p LET = true → statement (S fuel) p = Ok p' →
  ∃ eq ts nls,
    kind (peekToken p) = IDENT ∧ kind eq = EQ
    ∧ ts ≠ [] ∧ Forall (fun t => arithmetic t = true) ts ∧ newlines nls
    ∧ yields p (curToken p :: peekToken p :: eq :: ts ++ nls)
        (declaration (text (peekToken p)) (symbols p)
         ++ Emit (text (peekToken p) +:+ " = ") :: copy ts ++ [EmitLine ";"])
        p'
    ∧ symbols p' = {[text (peekToken p)]} ∪ symbols p
    ∧ labelsDeclared p' = labelsDeclared p
    ∧ labelsGotoed p' = labelsGotoed p.
Proof.
  intros Hk H. rewrite statement_LET in H by done.
  apply bind_Ok in H as (p5 & H & Hnl).
  apply bind_Ok in H as (p1 & H1 & H).
  apply bind_Ok in H as (p2 & H2 & H).
  apply bind_Ok in H as (p3 & H3 & H).
  apply bind_Ok in H as (p4 & H4 & [= <-]).
  pose proof (yields_next _ _ H1) as Y1.
  destruct (nextToken_sets _ _ H1) as (S1 & D1 & G1 & E1 & C1).
  apply yields_match in H2 as (K2 & Y2 & S2 & D2 & G2).
  simpl in K2, S2, D2, G2. rewrite curToken_declare in K2.
  apply (yields_from p1 _
           (declaration (text (curToken p1)) (symbols p1)
            ++ [Emit (text (curToken p1) +:+ " = ")])) in Y2;
    [|simpl; apply lexer_declare|simpl; apply curToken_declare
     |simpl; apply peekToken_declare
     |simpl; by rewrite emitter_declare, app_assoc].
  simpl in Y2. rewrite curToken_declare in Y2.
  apply yields_match in H3 as (K3 & Y3 & S3 & D3 & G3).
  apply expression_copies in H4 as (ts & Hne & Hts).
  pose proof (copies_yields _ _ _ _ Hts) as Y4.
  destruct Hts as (_ & Hok & _ & S4 & D4 & G4).
  apply nl_yields in Hnl as (nls & Hnls & Y5 & S5 & D5 & G5).
  apply (yields_from p4 _ [EmitLine ";"]) in Y5; [|done..].
  simpl in S5, D5, G5.
  exists (curToken p2), ts, nls. rewrite <- C1.
  split; [done|]. split; [done|]. split; [done|]. split; [done|].
  split; [done|]. split.
  - pose proof (yields_trans _ _ _ _ _ _ _ Y1
                  (yields_trans _ _ _ _ _ _ _ Y2
                     (yields_trans _ _ _ _ _ _ _ Y3
                        (yields_trans _ _ _ _ _ _ _ Y4 Y5)))) as Y.
    simpl in Y. rewrite !app_nil_r in Y. rewrite <- S1.
    by rewrite <- !app_assoc in Y.
  - destruct (labels_declare p1) as [Dd Gd].
    rewrite S5, S4, S3, S2, symbols_declare_union, S1.
    split; [done|]. split; congruence.
Qed.

Lemma let_statement_witness :
  ∃ p p' eq ts nls,
    Parse.init (Lex.init "LET x = 1 + 2") [] = Ok p
    ∧ statement 5 p = Ok p'
    ∧ kind (peekToken p) = IDENT ∧ kind eq = EQ
    ∧ ts ≠ [] ∧ Forall (fun t => arithmetic t = true) ts ∧ newlines nls
    ∧ yields p (curToken p :: peekToken p :: eq :: ts ++ nls)
        (declaration (text (peekToken p)) (symbols p)
         ++ Emit (text (peekToken p) +:+ " = ") :: copy ts ++ [EmitLine ";"])
        p'
    ∧ symbols p' = {[text (peekToken p)]} ∪ symbols p
    ∧ labelsDeclared p' = labelsDeclared p
    ∧ labelsGotoed p' = labelsGotoed p.
Proof.
  assert (∃ p p', Parse.init (Lex.init "LET x = 1 + 2") [] = Ok p
                  ∧ checkToken p LET = true
                  ∧ statement 5 p = Ok p') as (p & p' & H0 & Hk & H).
  { eexists _, _. split; [vm_compute; reflexivity|].
    split; vm_compute; reflexivity. }
  destruct (let_statement 4 p p' Hk H) as (eq & ts & nls & Hlet).
  by exists p, p', eq, ts, nls.
Defined.

(** X20 — [PRINT]: with a string literal the statement sends one line to the
    body, the [printf] of the literal's text and a line break; with an
    expression it sends the [printf] of a number with two decimals, whose
    argument is the expression copied token by token.  It reads the
    keyword, the literal or the tokens of the expression, and the
    newlines, and leaves the sets as they are. *)
Theorem print_statement fuel p p' :
  checkToken p PRINT = true → statement (S fuel) p = Ok p' →
  same_sets p p'
  ∧ ((kind (peekToken p) = STRING
      ∧ ∃ nls, newlines nls
          ∧ yields p (curToken p :: peekToken p :: nls)
              [EmitLine ("printf(" +:+ quote +:+ text (peekToken p) +:+ "\n"
                         +:+ quote +:+ ");")] p')
     ∨ (kind (peekToken p) ≠ STRING
        ∧ ∃ ts nls, ts ≠ [] ∧ Forall (fun t => arithmetic t = true) ts
            ∧ newlines nls
            ∧ yields p (curToken p :: ts ++ nls)
                (Emit ("printf(" +:+ quote +:+ "%" +:+ ".2f\n" +:+ quote
                       +:+ ", (float)(")
                 :: copy ts ++ [EmitLine "));"]) p')).
Proof.
  intros Hk H. rewrite statement_PRINT in H by done.
  apply bind_Ok in H as (p5 & H & Hnl).
  apply bind_Ok in H as (p1 & H1 & H).
  pose proof (yields_next _ _ H1) as Y1.
  pose proof (same_sets_next _ _ H1) as SS1.
  destruct (nextToken_sets _ _ H1) as (_ & _ & _ & _ & C1).
  apply nl_yields in Hnl as (nls & Hnls & Y5 & SS5).
  destruct (checkToken p1 STRING) eqn:Hs.
  - apply checkToken_true in Hs. rewrite C1 in Hs.
    pose proof (same_sets_next _ _ H) as SS2.
    apply yields_next in H as Y2.
    apply (yields_from p1 _
             [EmitLine ("printf(" +:+ quote +:+ text (curToken p1) +:+ "\n"
                        +:+ quote +:+ ");")]) in Y2; [|done..].
    simpl in Y2, SS2. split.
    { eapply same_sets_trans; [exact SS1|].
      eapply same_sets_trans; [exact SS2|exact SS5]. }
    left. split; [done|]. exists nls. split; [done|].
    rewrite <- C1.
    eapply yields_ext;
      [exact (yields_trans _ _ _ _ _ _ _ Y1
                (yields_trans _ _ _ _ _ _ _ Y2 Y5))|same_list..].
  - apply checkToken_false in Hs. rewrite C1 in Hs.
    apply bind_Ok in H as (p2 & H2 & [= <-]).
    apply expression_copies in H2 as (ts & Hne & Hts).
    pose proof (copies_yields _ _ _ _ Hts) as Y2.
    destruct Hts as (_ & Hok & _ & SS2).
    apply (yields_from p1 _
             [Emit ("printf(" +:+ quote +:+ "%" +:+ ".2f\n" +:+ quote
                    +:+ ", (float)(")]) in Y2; [|done..].
    apply (yields_from p2 _ [EmitLine "));"]) in Y5; [|done..].
    simpl in SS2, SS5. split.
    { eapply same_sets_trans; [exact SS1|].
      eapply same_sets_trans; [exact SS2|exact SS5]. }
    right. split; [done|]. exists ts, nls. do 3 (split; [done|]).
    eapply yields_ext;
      [exact (yields_trans _ _ _ _ _ _ _ Y1
                (yields_trans _ _ _ _ _ _ _ Y2 Y5))|same_list..].
Qed.

Lemma print_statement_witness :
  ∃ p p',
    Parse.init (Lex.init ("PRINT " +:+ quote +:+ "HI" +:+ quote)) [] = Ok p
    ∧ statement 5 p = Ok p'
    ∧ same_sets p p'
    ∧ ((kind (peekToken p) = STRING
        ∧ ∃ nls, newlines nls
            ∧ yields p (curToken p :: peekToken p :: nls)
                [EmitLine ("printf(" +:+ quote +:+ text (peekToken p)
                           +:+ "\n" +:+ quote +:+ ");")] p')
       ∨ (kind (peekToken p) ≠ STRING
          ∧ ∃ ts nls, ts ≠ [] ∧ Forall (fun t => arithmetic t = true) ts
              ∧ newlines nls
              ∧ yields p (curToken p :: ts ++ nls)
                  (Emit ("printf(" +:+ quote +:+ "%" +:+ ".2f\n" +:+ quote
                         +:+ ", (float)(")
                   :: copy ts ++ [EmitLine "));"]) p')).
Proof.
  assert (∃ p p', Parse.init (Lex.init ("PRINT " +:+ quote +:+ "HI"
                                        +:+ quote)) [] = Ok p
                  ∧ checkToken p PRINT = true
                  ∧ statement 5 p = Ok p') as (p & p' & H0 & Hk & H).
  { eexists _, _. split; [vm_compute; reflexivity|].
    split; vm_compute; reflexivity. }
  exists p, p'. split; [done|]. split; [done|].
  apply (print_statement 4 p p' Hk H).
Defined.
(** X21 — [LABEL x] and [GOTO x]: the statement reads the keyword, the
    identifier [x] and the newlines, and sends one line to the body, the
    label [x:] or the jump [goto x;].  [LABEL] is accepted only when [x]
    is not in [labelsDeclared], and puts it there; [GOTO] puts [x] into
    [labelsGotoed], whether a label [x] has been declared or not. *)
Theorem jump_statements fuel p p' :
  statement (S fuel) p = Ok p' →
  (checkToken p LABEL = true →
   kind (peekToken p) = IDENT ∧ (text (peekToken p) ∉ labelsDeclared p)
   ∧ (∃ nls, newlines nls
        ∧ yields p (curToken p :: peekToken p :: nls)
            [EmitLine (text (peekToken p) +:+ ":")] p')
   ∧ symbols p' = symbols p
   ∧ labelsDeclared p' = {[text (peekToken p)]} ∪ labelsDeclared p
   ∧ labelsGotoed p' = labelsGotoed p)
  ∧ (checkToken p GOTO = true →
     kind (peekToken p) = IDENT
     ∧ (∃ nls, newlines nls
          ∧ yields p (curToken p :: peekToken p :: nls)
              [EmitLine ("goto " +:+ text (peekToken p) +:+ ";")] p')
     ∧ symbols p' = symbols p
     ∧ labelsDeclared p' = labelsDeclared p
     ∧ labelsGotoed p' = {[text (peekToken p)]} ∪ labelsGotoed p).
Proof.
  intros H. split; intros Hk.
  - rewrite statement_LABEL in H by done.
    apply bind_Ok in H as (p5 & H & Hnl).
    apply bind_Ok in H as (p1 & H1 & H).
    pose proof (yields_next _ _ H1) as Y1.
    destruct (nextToken_sets _ _ H1) as (S1 & D1 & G1 & _ & C1).
    destruct (bool_decide _) eqn:Hin; [done|].
    apply bool_decide_eq_false in Hin.
    apply yields_match in H as (K2 & Y2 & S2 & D2 & G2).
    simpl in K2, S2, D2, G2.
    apply (yields_from p1 _ [EmitLine (text (curToken p1) +:+ ":")]) in Y2;
      [|done..].
    simpl in Y2.
    apply nl_yields in Hnl as (nls & Hnls & Y5 & S5 & D5 & G5).
    rewrite C1, D1 in *.
    split; [done|]. split; [done|]. split.
    + exists nls. split; [done|].
      eapply yields_ext;
        [exact (yields_trans _ _ _ _ _ _ _ Y1
                  (yields_trans _ _ _ _ _ _ _ Y2 Y5))|same_list..].
    + split; [congruence|]. split; congruence.
  - rewrite statement_GOTO in H by done.
    apply bind_Ok in H as (p5 & H & Hnl).
    apply bind_Ok in H as (p1 & H1 & H).
    pose proof (yields_next _ _ H1) as Y1.
    destruct (nextToken_sets _ _ H1) as (S1 & D1 & G1 & _ & C1).
    apply yields_match in H as (K2 & Y2 & S2 & D2 & G2).
    simpl in K2, S2, D2, G2.
    apply (yields_from p1 _
             [EmitLine ("goto " +:+ text (curToken p1) +:+ ";")]) in Y2;
      [|done..].
    simpl in Y2.
    apply nl_yields in Hnl as (nls & Hnls & Y5 & S5 & D5 & G5).
    rewrite C1, G1 in *.
    split; [done|]. split.
    + exists nls. split; [done|].
      eapply yields_ext;
        [exact (yields_trans _ _ _ _ _ _ _ Y1
                  (yields_trans _ _ _ _ _ _ _ Y2 Y5))|same_list..].
    + split; [congruence|]. split; congruence.
Qed.

Lemma jump_statements_witness :
  ∃ p p',
    Parse.init (Lex.init "GOTO a") [] = Ok p
    ∧ statement 5 p = Ok p'
    ∧ kind (peekToken p) = IDENT
    ∧ (∃ nls, newlines nls
         ∧ yields p (curToken p :: peekToken p :: nls)
             [EmitLine ("goto " +:+ text (peekToken p) +:+ ";")] p')
    ∧ symbols p' = symbols p
    ∧ labelsDeclared p' = labelsDeclared p
    ∧ labelsGotoed p' = {[text (peekToken p)]} ∪ labelsGotoed p.
Proof.
  assert (∃ p p', Parse.init (Lex.init "GOTO a") [] = Ok p
                  ∧ checkToken p GOTO = true
                  ∧ statement 5 p = Ok p') as (p & p' & H0 & Hk & H).
  { eexists _, _. split; [vm_compute; reflexivity|].
    split; vm_compute; reflexivity. }
  exists p, p'. split; [done|]. split; [done|].
  apply (proj2 (jump_statements 4 p p' H) Hk).
Defined.

(** X22 — [INPUT x]: the statement reads [INPUT], the identifier [x] and the
    newlines; it puts [x] into [symbols], declares it in the preamble
    when it is new, and sends the guarded read to the body: the [scanf]
    of a number into [x] and, when that reads nothing, the assignment of
    zero and a [scanf] that discards one input item. *)
Theorem input_statement fuel p p' :
  checkToken p INPUT = true → statement (S fuel) p = Ok p' →
  kind (peekToken p) = IDENT
  ∧ (∃ nls, newlines nls
       ∧ yields p (curToken p :: peekToken p :: nls)
           (declaration (text (peekToken p)) (symbols p)
            ++ input_guard (text (peekToken p))) p')
  ∧ symbols p' = {[text (peekToken p)]} ∪ symbols p
  ∧ labelsDeclared p' = labelsDeclared p
  ∧ labelsGotoed p' = labelsGotoed p.
Proof.
  intros Hk H. rewrite statement_INPUT in H by done.
  apply bind_Ok in H as (p5 & H & Hnl).
  apply bind_Ok in H as (p1 & H1 & H).
  pose proof (yields_next _ _ H1) as Y1.
  destruct (nextToken_sets _ _ H1) as (S1 & D1 & G1 & _ & C1).
  apply yields_match in H as (K2 & Y2 & S2 & D2 & G2).
  simpl in K2, S2, D2, G2. rewrite curToken_declare in K2.
  apply (yields_from p1 _
           (declaration (text (curToken p1)) (symbols p1)
            ++ input_guard (text (curToken p1)))) in Y2;
    [|simpl; apply lexer_declare|simpl; apply curToken_declare
     |simpl; apply peekToken_declare
     |simpl; rewrite emitter_declare; unfold input_guard;
      by rewrite <- !app_assoc].
  simpl in Y2. rewrite curToken_declare in Y2.
  apply nl_yields in Hnl as (nls & Hnls & Y5 & S5 & D5 & G5).
  destruct (labels_declare p1) as [Dd Gd].
  rewrite S5, S2, symbols_declare_union, D5, D2, Dd, G5, G2, Gd.
  rewrite C1, S1, D1, G1 in *.
  split; [done|]. split; [|done].
  exists nls. split; [done|].
  eapply yields_ext;
    [exact (yields_trans _ _ _ _ _ _ _ Y1
              (yields_trans _ _ _ _ _ _ _ Y2 Y5))|same_list..].
Qed.

Lemma input_statement_witness :
  ∃ p p',
    Parse.init (Lex.init "INPUT x") [] = Ok p
    ∧ statement 5 p = Ok p'
    ∧ kind (peekToken p) = IDENT
    ∧ (∃ nls, newlines nls
         ∧ yields p (curToken p :: peekToken p :: nls)
             (declaration (text (peekToken p)) (symbols p)
              ++ input_guard (text (peekToken p))) p')
    ∧ symbols p' = {[text (peekToken p)]} ∪ symbols p
    ∧ labelsDeclared p' = labelsDeclared p
    ∧ labelsGotoed p' = labelsGotoed p.
Proof.
  assert (∃ p p', Parse.init (Lex.init "INPUT x") [] = Ok p
                  ∧ checkToken p INPUT = true
                  ∧ statement 5 p = Ok p') as (p & p' & H0 & Hk & H).
  { eexists _, _. split; [vm_compute; reflexivity|].
    split; vm_compute; reflexivity. }
  exists p, p'. split; [done|]. split; [done|].
  apply (input_statement 4 p p' Hk H).
Defined.
Lemma yields_wrap p q e0 :
  lexer q = lexer p → curToken q = curToken p → peekToken q = peekToken p →
  emitter q = emitter p ++ e0 → yields p [] e0 q.
Proof.
  intros Hl Hc Hp He. split; [|done]. exists []. simpl.
  by rewrite Hl, Hc, Hp.
Qed.

(** A statement reads some tokens and sends some calls to the emitter. *)
Lemma statement_yields fuel p :
  ensures (fun p p' => ∃ ts e, yields p ts e p') p (statement fuel p).
Proof.
  apply ensures_statement.
  - intros q. exists [], []. apply yields_refl.
  - intros q1 q2 q3 (ts & e & H) (ts' & e' & H').
    exists (ts ++ ts'), (e ++ e'). by eapply yields_trans.
  - intros q q' H. exists [curToken q], []. by apply yields_next.
  - intros c q. exists [], [Emit c]. by apply yields_wrap.
  - intros c q _. exists [], [EmitLine c]. by apply yields_wrap.
  - intros q. exists [], (declaration (text (curToken q)) (symbols q)).
    apply yields_wrap;
      [apply lexer_declare|apply curToken_declare|apply peekToken_declare
      |apply emitter_declare].
  - intros q _. exists [], [EmitLine (text (curToken q) +:+ ":")].
    by apply yields_wrap.
  - intros x q. exists [], []. apply yields_wrap; [done..|].
    simpl. by rewrite app_nil_r.
Qed.

Lemma statement_IF fuel p :
  checkToken p IF = true →
  statement (S fuel) p
  = (p ← (p ← nextToken p;
          p ← comparison fuel (emit "if(" p);
          p ← match_ THEN p;
          p ← nl fuel p;
          p ← while_ fuel (fun p => negb (checkToken p ENDIF))
                (statement fuel) (emitLine "){" p);
          p ← match_ ENDIF p;
          Ok (emitLine "}" p));
     nl fuel p).
Proof.
  intros Hk%checkToken_true. cbn [statement]. unfold checkToken.
  rewrite Hk. reflexivity.
Qed.

Lemma statement_WHILE fuel p :
  checkToken p WHILE = true →
  statement (S fuel) p
  = (p ← (p ← nextToken p;
          p ← comparison fuel (emit "while(" p);
          p ← match_ REPEAT p;
          p ← nl fuel p;
          p ← while_ fuel (fun p => negb (checkToken p ENDWHILE))
                (statement fuel) (emitLine "){" p);
          p ← match_ ENDWHILE p;
          Ok (emitLine "}" p));
     nl fuel p).
Proof.
  intros Hk%checkToken_true. cbn [statement]. unfold checkToken.
  rewrite Hk. reflexivity.
Qed.

(** What the [IF] and the [WHILE] branch have in common. *)
Lemma block_run fuel opening mid closing p p' :
  (p ← (p ← nextToken p;
        p ← comparison fuel (emit opening p);
        p ← match_ mid p;
        p ← nl fuel p;
        p ← while_ fuel (fun p => negb (checkToken p closing))
              (statement fuel) (emitLine "){" p);
        p ← match_ closing p;
        Ok (emitLine "}" p));
   nl fuel p) = Ok p' →
  block fuel opening mid closing p p'.
Proof.
  intros H.
  apply bind_Ok in H as (p7 & H & Hnl).
  apply bind_Ok in H as (p1 & H1 & H).
  apply bind_Ok in H as (p2 & H2 & H).
  apply bind_Ok in H as (p3 & H3 & H).
  apply bind_Ok in H as (p4 & H4 & H).
  apply bind_Ok in H as (p5 & H5 & H).
  apply bind_Ok in H as (p6 & H6 & [= <-]).
  pose proof (yields_next _ _ H1) as Y1.
  apply comparison_copies in H2 as (ts & op & ts' & Hcmp & Harith & Hop & _).
  pose proof (copies_yields _ _ _ _ Hcmp) as Y2.
  destruct Hcmp as (_ & Hok & _).
  apply (yields_from p1 _ [Emit opening]) in Y2; [|done..].
  simpl in Y2.
  apply yields_match in H3 as (K3 & Y3 & _).
  apply nl_yields in H4 as (nls & Hnls & Y4 & _).
  pose proof (yields_wrap p4 (emitLine "){" p4) [EmitLine "){"]
                eq_refl eq_refl eq_refl eq_refl) as Yb.
  pose proof (ensures_while (fun p p' => ∃ ts e, yields p ts e p')
                (fun p => ex_intro _ [] (ex_intro _ [] (yields_refl p)))
                ltac:(intros ? ? ? (t1 & e1 & Ha) (t2 & e2 & Hb);
                      exists (t1 ++ t2), (e1 ++ e2);
                      by eapply yields_trans)
                fuel (fun p => negb (checkToken p closing)) (statement fuel)
                (emitLine "){" p4)) as E.
  rewrite H5 in E. destruct E as (body & e & Ybody).
  { intros q _. apply statement_yields. }
  apply yields_match in H6 as (K6 & Y6 & _).
  apply nl_yields in Hnl as (nls' & Hnls' & Y7 & _).
  apply (yields_from p6 _ [EmitLine "}"]) in Y7; [|done..].
  exists (curToken p1 :: ts ++ op :: ts'), (curToken p2), nls,
    (emitLine "){" p4), body, e, p5, (curToken p5), nls'.
  split; [exact Hok|]. split.
  { apply Exists_cons_tl, Exists_app. right. by apply Exists_cons_hd. }
  split; [done|]. split; [done|]. split.
  { eapply yields_ext;
      [exact (yields_trans _ _ _ _ _ _ _ Y1
                (yields_trans _ _ _ _ _ _ _ Y2
                   (yields_trans _ _ _ _ _ _ _ Y3
                      (yields_trans _ _ _ _ _ _ _ Y4 Yb))))|same_list..]. }
  split; [done|]. split; [done|]. split; [done|]. split; [done|].
  eapply yields_ext; [exact (yields_trans _ _ _ _ _ _ _ Y6 Y7)|same_list..].
Qed.

(** X23 — [IF] and [WHILE]: the statement reads the keyword and a comparison,
    which it copies token by token behind [if(] or [while(]; then [THEN]
    or [REPEAT] and the newlines, for which it opens the block; then the
    statements of the body, up to [ENDIF] or [ENDWHILE]; then that keyword
    and the newlines, for which it closes the block. *)
Theorem block_statements fuel p p' :
  statement (S fuel) p = Ok p' →
  (checkToken p IF = true → block fuel "if(" THEN ENDIF p p')
  ∧ (checkToken p WHILE = true → block fuel "while(" REPEAT ENDWHILE p p').
Proof.
  intros H. split; intros Hk.
  - rewrite statement_IF in H by done. by apply block_run.
  - rewrite statement_WHILE in H by done. by apply block_run.
Qed.

Lemma block_statements_witness :
  ∃ p p',
    Parse.init (Lex.init ("WHILE 1 < 2 REPEAT" +:+ newline +:+ "PRINT 3"
                          +:+ newline +:+ "ENDWHILE")) [] = Ok p
    ∧ statement 5 p = Ok p'
    ∧ block 4 "while(" REPEAT ENDWHILE p p'.
Proof.
  assert (∃ p p',
            Parse.init (Lex.init ("WHILE 1 < 2 REPEAT" +:+ newline
                                  +:+ "PRINT 3" +:+ newline +:+ "ENDWHILE")) []
            = Ok p
            ∧ checkToken p WHILE = true
            ∧ statement 5 p = Ok p') as (p & p' & H0 & Hk & H).
  { eexists _, _. split; [vm_compute; reflexivity|].
    split; vm_compute; reflexivity. }
  exists p, p'. split; [done|]. split; [done|].
  apply (proj2 (block_statements 4 p p' H) Hk).
Defined.

(** ** Variables that are read before they are declared *)

Lemma checkToken_kind p k k' :
  kind (curToken p) = k → k' ≠ k → checkToken p k' = false.
Proof. intros Hk Hne. apply checkToken_false. congruence. Qed.

Lemma expression_undeclared fuel p :
  kind (curToken p) = IDENT → text (curToken p) ∉ symbols p →
  expression fuel p = Exit (undeclared (text (curToken p))).
Proof.
  intros Hk Hin. unfold expression, term, unary.
  rewrite (checkToken_kind p IDENT PLUS), (checkToken_kind p IDENT MINUS)
    by done.
  cbn [orb mbind Result_bind]. unfold primary.
  rewrite (checkToken_kind p IDENT NUMBER) by done.
  rewrite (proj2 (checkToken_true p IDENT) Hk).
  by rewrite bool_decide_eq_false_2.
Qed.

(** X24 — An identifier that is not in [symbols] ends the run where an
    expression starts with it, with the message that names it: in an
    expression, in a comparison, and in a [PRINT] statement, where the
    scanner is asked for the next token first and may exit with its own
    error. *)
Theorem undeclared_variable fuel p :
  (kind (curToken p) = IDENT → text (curToken p) ∉ symbols p →
   expression fuel p = Exit (undeclared (text (curToken p)))
   ∧ comparison fuel p = Exit (undeclared (text (curToken p))))
  ∧ (wf (lexer p) → checkToken p PRINT = true →
     kind (peekToken p) = IDENT → text (peekToken p) ∉ symbols p →
     ∃ m, statement (S fuel) p = Exit m
          ∧ (m = undeclared (text (peekToken p))
             ∨ getToken (lexer p) = Exit m)).
Proof.
  split.
  - intros Hk Hin. split; [by apply expression_undeclared|].
    unfold comparison. by rewrite expression_undeclared.
  - intros Hwf Hp Hk Hin. rewrite statement_PRINT by done.
    pose proof (getToken_wf _ Hwf) as Hg.
    destruct (nextToken p) as [p1|m|] eqn:H1.
    + destruct (nextToken_sets _ _ H1) as (S1 & _ & _ & _ & C1).
      cbn [mbind Result_bind].
      rewrite (checkToken_kind p1 IDENT STRING) by (done || congruence).
      rewrite expression_undeclared; simpl; [|congruence..].
      rewrite C1. eauto.
    + exists m. split; [done|]. right. unfold nextToken in H1.
      destruct (getToken (lexer p)) as [[]| |]; simpl in H1; congruence.
    + unfold nextToken in H1.
      destruct (getToken (lexer p)) as [[]| |]; simpl in *; done.
Qed.

Lemma undeclared_variable_witness :
  ∃ m, statement 1
         (mkParser (Lex.init "") [] ∅ ∅ ∅
            (mkToken "PRINT" PRINT) (mkToken "x" IDENT)) = Exit m
       ∧ (m = undeclared "x" ∨ getToken (Lex.init "") = Exit m).
Proof.
  apply (proj2 (undeclared_variable 0
                  (mkParser (Lex.init "") [] ∅ ∅ ∅
                     (mkToken "PRINT" PRINT) (mkToken "x" IDENT)))).
  - apply wf_init.
  - reflexivity.
  - reflexivity.
  - simpl. apply not_elem_of_empty.
Defined.
(** ** Tokens that start no statement *)

Lemma statement_invalid fuel p :
  starts_statement (kind (curToken p)) = false →
  statement (S fuel) p = Exit (invalid_statement (curToken p)).
Proof.
  intros Hk. cbn [statement]. unfold checkToken, invalid_statement.
  destruct (kind (curToken p)); try discriminate Hk; reflexivity.
Qed.

(** X25 — A statement starts with one of the seven keywords [PRINT], [IF],
    [WHILE], [LABEL], [GOTO], [LET] and [INPUT]; at any other token the
    run ends with the message that shows the token.  So does the body of
    an [IF] or a [WHILE] that the end of input cuts short: the loop over
    the statements of a body stops at the closing keyword only. *)
Theorem no_statement fuel p :
  starts_statement (kind (curToken p)) = false →
  statement (S fuel) p = Exit (invalid_statement (curToken p))
  ∧ ∀ closing, kind (curToken p) ≠ closing →
      while_ (S fuel) (fun p => negb (checkToken p closing))
        (statement (S fuel)) p
      = Exit (invalid_statement (curToken p)).
Proof.
  intros Hk. split; [by apply statement_invalid|].
  intros closing Hc. cbn [while_].
  rewrite (proj2 (checkToken_false p closing) Hc). cbn [negb].
  by rewrite statement_invalid.
Qed.

Lemma no_statement_witness :
  statement 1 (mkParser (Lex.init "") [] ∅ ∅ ∅
                 (mkToken "x" IDENT) (mkToken "=" EQ))
  = Exit "Error. Invalid Statement at x (IDENT)".
Proof.
  apply (no_statement 0 (mkParser (Lex.init "") [] ∅ ∅ ∅
                           (mkToken "x" IDENT) (mkToken "=" EQ))).
  reflexivity.
Defined.

(** ** The output depends on the tokens only *)

Section Alike.
Variable LR : Lexer → Lexer → Prop.
Hypothesis LR_getToken :
  ∀ l1 l2, LR l1 l2 →
    agree (fun r1 r2 => r1.1 = r2.1 ∧ LR r1.2 r2.2) (getToken l1) (getToken l2).

Lemma alike_curToken p1 p2 : (alike LR) p1 p2 → curToken p1 = curToken p2.
Proof. by intros (_ & _ & _ & _ & _ & ? & _). Qed.

Lemma alike_checkToken p1 p2 :
  (alike LR) p1 p2 → ∀ k, checkToken p1 k = checkToken p2 k.
Proof. intros H k. unfold checkToken. by rewrite (alike_curToken _ _ H). Qed.

Lemma alike_isComparisonOperator p1 p2 :
  (alike LR) p1 p2 → isComparisonOperator p1 = isComparisonOperator p2.
Proof.
  intros H. unfold isComparisonOperator.
  by rewrite !(alike_checkToken _ _ H).
Qed.

Lemma alike_symbols p1 p2 : (alike LR) p1 p2 → symbols p1 = symbols p2.
Proof. by intros (_ & _ & ? & _). Qed.

Lemma alike_labelsDeclared p1 p2 :
  (alike LR) p1 p2 → labelsDeclared p1 = labelsDeclared p2.
Proof. by intros (_ & _ & _ & ? & _). Qed.

Lemma alike_labelsGotoed p1 p2 :
  (alike LR) p1 p2 → labelsGotoed p1 = labelsGotoed p2.
Proof. by intros (_ & _ & _ & _ & ? & _). Qed.

Lemma alike_emit c p1 p2 : (alike LR) p1 p2 → (alike LR) (emit c p1) (emit c p2).
Proof.
  intros (? & ? & ? & ? & ? & ? & ?). repeat split; simpl; congruence.
Qed.

Lemma alike_emitLine c p1 p2 :
  (alike LR) p1 p2 → (alike LR) (emitLine c p1) (emitLine c p2).
Proof.
  intros (? & ? & ? & ? & ? & ? & ?). repeat split; simpl; congruence.
Qed.

Lemma alike_headerLine c p1 p2 :
  (alike LR) p1 p2 → (alike LR) (headerLine c p1) (headerLine c p2).
Proof.
  intros (? & ? & ? & ? & ? & ? & ?). repeat split; simpl; congruence.
Qed.

Lemma alike_add_symbol x p1 p2 :
  (alike LR) p1 p2 → (alike LR) (add_symbol x p1) (add_symbol x p2).
Proof.
  intros (? & ? & ? & ? & ? & ? & ?). repeat split; simpl; congruence.
Qed.

Lemma alike_add_labelDeclared x p1 p2 :
  (alike LR) p1 p2 → (alike LR) (add_labelDeclared x p1) (add_labelDeclared x p2).
Proof.
  intros (? & ? & ? & ? & ? & ? & ?). repeat split; simpl; congruence.
Qed.

Lemma alike_add_labelGotoed x p1 p2 :
  (alike LR) p1 p2 → (alike LR) (add_labelGotoed x p1) (add_labelGotoed x p2).
Proof.
  intros (? & ? & ? & ? & ? & ? & ?). repeat split; simpl; congruence.
Qed.

Lemma alike_declare p1 p2 :
  (alike LR) p1 p2 → (alike LR) (declare p1) (declare p2).
Proof.
  intros H. unfold declare.
  rewrite (alike_curToken _ _ H), (alike_symbols _ _ H).
  destruct (negb _); [|done].
  by apply alike_headerLine, alike_add_symbol.
Qed.

Lemma nextToken_alike p1 p2 :
  (alike LR) p1 p2 → agree (alike LR) (nextToken p1) (nextToken p2).
Proof.
  intros (Hl & He & Hs & Hd & Hg & Hc & Hp). unfold nextToken.
  eapply agree_bind; [by apply LR_getToken|].
  intros [t1 l1] [t2 l2] [Ht Hl']. simpl in *. subst.
  split; [done|]. repeat split; simpl; congruence.
Qed.

Lemma match_alike k p1 p2 :
  (alike LR) p1 p2 → agree (alike LR) (match_ k p1) (match_ k p2).
Proof.
  intros H. unfold match_.
  rewrite (alike_checkToken _ _ H), (alike_curToken _ _ H).
  destruct (negb _); [reflexivity|by apply nextToken_alike].
Qed.

Ltac alike_norm H :=
  repeat first
    [ rewrite curToken_emit | rewrite curToken_emitLine
    | rewrite curToken_declare
    | rewrite (alike_checkToken _ _ H)
    | rewrite (alike_isComparisonOperator _ _ H)
    | rewrite (alike_curToken _ _ H)
    | rewrite (alike_symbols _ _ H)
    | rewrite (alike_labelsDeclared _ _ H)
    | rewrite (alike_labelsGotoed _ _ H) ].

Ltac alike_solve :=
  repeat first
    [ assumption | apply alike_emit | apply alike_emitLine
    | apply alike_headerLine | apply alike_add_labelDeclared
    | apply alike_add_labelGotoed | apply alike_declare ].

Ltac alike_step lemmas :=
  match goal with
  | |- agree _ (if ?c then _ else _) (if ?c then _ else _) => destruct c
  | |- agree _ (Exit _) (Exit _) => reflexivity
  | |- agree _ (Parse.abort _) (Parse.abort _) => reflexivity
  | |- agree _ (Ok _) (Ok _) => apply agree_Ok; by alike_solve
  | |- agree _ (nextToken _) (nextToken _) =>
      apply nextToken_alike; by alike_solve
  | |- agree _ (match_ _ _) (match_ _ _) => apply match_alike; by alike_solve
  | |- agree _ (while_ _ _ _ _) (while_ _ _ _ _) =>
      apply agree_while;
      [ let H := fresh "HR" in intros ? ? H; alike_norm H; reflexivity
      | let H := fresh "HR" in intros ? ? H; alike_norm H
      | by alike_solve ]
  | |- agree _ (_ ≫= _) (_ ≫= _) =>
      apply (agree_bind (alike LR) (alike LR));
      [|let H := fresh "HR" in intros ? ? H; alike_norm H]
  | |- _ => lemmas
  end.

Lemma nl_alike fuel p1 p2 :
  (alike LR) p1 p2 → agree (alike LR) (nl fuel p1) (nl fuel p2).
Proof. intros H. unfold nl. repeat alike_step fail. Qed.

Lemma primary_alike p1 p2 :
  (alike LR) p1 p2 → agree (alike LR) (primary p1) (primary p2).
Proof. intros H. unfold primary. alike_norm H. repeat alike_step fail. Qed.

Lemma unary_alike p1 p2 :
  (alike LR) p1 p2 → agree (alike LR) (unary p1) (unary p2).
Proof.
  intros H. unfold unary. alike_norm H.
  repeat alike_step ltac:(by apply primary_alike).
Qed.

Lemma term_alike fuel p1 p2 :
  (alike LR) p1 p2 → agree (alike LR) (term fuel p1) (term fuel p2).
Proof.
  intros H. unfold term. repeat alike_step ltac:(by apply unary_alike).
Qed.

Lemma expression_alike fuel p1 p2 :
  (alike LR) p1 p2 → agree (alike LR) (expression fuel p1) (expression fuel p2).
Proof.
  intros H. unfold expression. repeat alike_step ltac:(by apply term_alike).
Qed.

Lemma comparison_alike fuel p1 p2 :
  (alike LR) p1 p2 → agree (alike LR) (comparison fuel p1) (comparison fuel p2).
Proof.
  intros H. unfold comparison.
  repeat alike_step ltac:(by apply expression_alike).
Qed.

Lemma statement_alike fuel p1 p2 :
  (alike LR) p1 p2 → agree (alike LR) (statement fuel p1) (statement fuel p2).
Proof.
  revert p1 p2. induction fuel as [|fuel IH]; intros p1 p2 H; [done|].
  cbn [statement]. alike_norm H.
  repeat alike_step
    ltac:(first [ by apply nl_alike
                | apply expression_alike; by alike_solve
                | apply comparison_alike; by alike_solve
                | by apply IH ]).
Qed.

Lemma checkLabels_alike p1 p2 :
  (alike LR) p1 p2 → agree (alike LR) (checkLabels p1) (checkLabels p2).
Proof.
  intros H. unfold checkLabels. alike_norm H.
  by destruct (find _ _).
Qed.

Lemma program_alike fuel p1 p2 :
  (alike LR) p1 p2 → agree (alike LR) (program fuel p1) (program fuel p2).
Proof.
  intros H. unfold program.
  repeat alike_step
    ltac:(first [ by apply statement_alike
                | apply checkLabels_alike; by alike_solve ]).
Qed.

Lemma init_alike l1 l2 e :
  LR l1 l2 → agree (alike LR) (Parse.init l1 e) (Parse.init l2 e).
Proof.
  intros Hl. unfold Parse.init.
  eapply agree_bind; [by apply LR_getToken|].
  intros [t1 a] [t1' b] [Ht Hab]. simpl in *. subst.
  eapply agree_bind; [by apply LR_getToken|].
  intros [t2 a'] [t2' b'] [Ht Hab']. simpl in *. subst.
  by repeat split.
Qed.
End Alike.

Lemma same_stream_getToken l1 l2 :
  same_stream l1 l2 →
  agree (fun r1 r2 => r1.1 = r2.1 ∧ same_stream r1.2 r2.2)
    (getToken l1) (getToken l2).
Proof.
  intros H. pose proof (H 1%nat) as H1. simpl in H1.
  destruct (getToken l1) as [[t1 l1']| |] eqn:E1,
           (getToken l2) as [[t2 l2']| |] eqn:E2; simpl in *; try done.
  injection H1 as <-. split; [done|]. intros n.
  specialize (H (S n)). rewrite !getTokens_S, E1, E2 in H.
  cbn [mbind Result_bind] in H.
  destruct (getTokens n l1') as [[a1 b1]| |],
           (getTokens n l2') as [[a2 b2]| |]; simpl in *; try done.
  by injection H.
Qed.

Lemma getTokens_length n l ts l' :
  getTokens n l = Ok (ts, l') → length ts = n.
Proof.
  revert l ts l'. induction n as [|n IH]; intros l ts l' H.
  - by injection H as <- _.
  - rewrite getTokens_S in H. apply bind_Ok in H as ([t l1] & _ & H).
    simpl in H. apply bind_Ok in H as ([ts1 l2] & H1 & H). simpl in H.
    injection H as <- _. simpl. f_equal. by eapply IH.
Qed.

Lemma getTokens_wf n l ts l' :
  wf l → getTokens n l = Ok (ts, l') → wf l' ∧ source l' = source l.
Proof.
  revert l ts l'. induction n as [|n IH]; intros l ts l' Hwf H.
  - by injection H as _ <-.
  - rewrite getTokens_S in H. apply bind_Ok in H as ([t l1] & Hg & H).
    simpl in H. apply bind_Ok in H as ([ts1 l2] & H1 & H). simpl in H.
    injection H as _ <-.
    pose proof (getToken_wf l Hwf) as Hw. rewrite Hg in Hw.
    destruct Hw as (Hwf1 & Hs1 & _). simpl in *.
    destruct (IH _ _ _ Hwf1 H1) as [? ?]. split; [done|congruence].
Qed.

(** Two scanners that have delivered the same tokens and reached the end
    of their buffers deliver the same tokens for ever. *)
Lemma same_stream_finite k l1 l2 ts l1' l2' :
  wf l1 → wf l2 →
  getTokens k l1 = Ok (ts, l1') → getTokens k l2 = Ok (ts, l2') →
  len (source l1') ≤ curPos l1' → len (source l2') ≤ curPos l2' →
  same_stream l1 l2.
Proof.
  intros Hwf1 Hwf2 H1 H2 He1 He2 n.
  destruct (getTokens_wf _ _ _ _ Hwf1 H1) as [Hw1 _].
  destruct (getTokens_wf _ _ _ _ Hwf2 H2) as [Hw2 _].
  destruct (Nat.le_gt_cases n k) as [Hle|Hgt].
  - replace k with (n + (k - n))%nat in H1, H2 by lia.
    rewrite getTokens_app in H1, H2.
    apply bind_Ok in H1 as ([a1 m1] & Ha1 & H1). simpl in H1.
    apply bind_Ok in H1 as ([b1 m1'] & Hb1 & H1). simpl in H1.
    apply bind_Ok in H2 as ([a2 m2] & Ha2 & H2). simpl in H2.
    apply bind_Ok in H2 as ([b2 m2'] & Hb2 & H2). simpl in H2.
    rewrite Ha1, Ha2. simpl.
    apply getTokens_length in Ha1, Ha2.
    injection H1 as H1 _. injection H2 as H2 _.
    rewrite <- H2 in H1. apply app_inj_1 in H1 as [? _]; [done|congruence].
  - replace n with (k + (n - k))%nat by lia.
    rewrite !getTokens_app, H1, H2. cbn [mbind Result_bind].
    destruct (getTokens_past_end l1' (n - k) Hw1 He1) as (m1 & ->).
    destruct (getTokens_past_end l2' (n - k) Hw2 He2) as (m2 & ->).
    done.
Qed.

(** X26 — The translation depends on the source through its tokens only:
    when the scanner delivers the same [k] tokens on two sources and has
    then reached the end of both buffers, the two runs end alike, with the
    same output or with the same message, whatever the blanks and the
    comments that the sources differ by. *)
Theorem same_tokens_same_output fuel k s1 s2 ts l1 l2 :
  getTokens k (Lex.init s1) = Ok (ts, l1) →
  getTokens k (Lex.init s2) = Ok (ts, l2) →
  len (source l1) ≤ curPos l1 → len (source l2) ≤ curPos l2 →
  translate fuel s1 = translate fuel s2.
Proof.
  intros H1 H2 He1 He2.
  assert (same_stream (Lex.init s1) (Lex.init s2)) as Hs
    by (by apply (same_stream_finite k _ _ ts l1 l2); [apply wf_init..| | | |]).
  apply agree_eq. unfold translate.
  eapply agree_bind;
    [apply (init_alike same_stream same_stream_getToken); exact Hs|].
  intros p1 p2 Hp.
  eapply agree_bind;
    [by apply (program_alike same_stream same_stream_getToken)|].
  intros q1 q2 Hq. apply Hq.
Qed.

Lemma same_tokens_same_output_witness :
  translate 20 "PRINT 1" = translate 20 ("  PRINT   1 # one").
Proof.
  apply (same_tokens_same_output 20 4 "PRINT 1" ("  PRINT   1 # one")
           [mkToken "PRINT" PRINT; mkToken "1" NUMBER;
            mkToken newline NEWLINE; EOF_token]
           (lexerAt ("PRINT 1" +:+ newline) 9)
           (lexerAt ("  PRINT   1 # one" +:+ newline) 19)).
  - vm_compute. reflexivity.
  - vm_compute. reflexivity.
  - vm_compute. discriminate.
  - vm_compute. discriminate.
Defined.
